(** * VHD merge engine and sparse image builder of xen-orchestra

    A shallow embedding of

    - [packages/vhd-lib/src/merge.js] (module [Merge]): the flattening of a
      differencing child disk into its parent, and
    - [packages/xo-vmdk-to-vhd/src/vhd-write.js] (module [VhdWrite]): the
      sparse extent, the dynamic-disk writer and the raw streaming converter.

    JavaScript numbers are modelled by [Z]: every quantity the code computes
    is an integer far below 2^53, where the floating-point operations used
    ([+], [-], [*], [Math.floor (a / b)], [Math.ceil (a / b)], [%]) are
    exact.  Buffers are lists of bytes.  Promises are modelled by their
    outcome: an awaited call either yields a value or throws. *)

From Stdlib Require Import ZArith.
From Stdlib.Strings Require Import Byte.
From stdpp Require Import base tactics option list list_numbers numbers gmap strings.

Local Open Scope Z_scope.

(** ** Outcomes of fallible calls *)

(** What a JavaScript call can throw (or a promise reject with). *)
Inductive Exn :=
| AssertionError            (* thrown by [assert] and [assert.strictEqual] *)
| RangeError (what : string)
| Failure (reason : string) (* [new Error(reason)], or a collaborator's error *).

Inductive Result (A : Type) :=
| Ok (a : A)
| Err (e : Exn).
Arguments Ok {A} a.
Arguments Err {A} e.

Definition isOk {A} (r : Result A) : bool :=
  match r with Ok _ => true | Err _ => false end.

(** A buffer is a sequence of bytes. *)
Abbreviation Buffer := (list byte).

Module Merge.

(** ** Data read from a disk *)

Record DiskGeometry := mkGeometry {
  cylinders : Z;
  heads : Z;
  sectorsPerTrack : Z
}.

Record Footer := mkFooter {
  cookie : string;
  features : Z;
  fileFormatVersion : Z;
  dataOffset : Z;
  timestamp : Z;
  creatorApplication : string;
  creatorHostOs : Z;
  originalSize : Z;
  currentSize : Z;
  diskGeometry : DiskGeometry;
  diskType : Z;
  checksum : Z;
  uuid : Buffer
}.

Record Header := mkHeader {
  headerCookie : string;
  tableOffset : Z;
  headerVersion : Z;
  maxTableEntries : Z;
  blockSize : Z;
  headerChecksum : Z
}.

(** Modelled from the spec: the disk type codes of [./_constants], which is
    not among the sources (fixed = 2, dynamic = 3, differencing = 4 in the
    VHD format).  No result below depends on their values. *)
Definition DISK_TYPE_DYNAMIC : Z := 3.
Definition DISK_TYPE_DIFFERENCING : Z := 4.

Definition Handler := string.
Definition Path := string.
Definition Fd := Z.

(** ** The handle contract

    [./vhd] (class [Vhd]) and the storage handlers are collaborators of
    [merge]; their code is not part of the sources.  They are taken as a
    parameter: a world [W] (files, descriptors, whatever the handlers hold),
    a private part [P] of a [Vhd] wrapper (its block table and the like), and
    one function per operation [merge] calls.  Every asynchronous operation
    may reject, and may change the world whether it does or not. *)

Section Contract.

Context {W P : Type}.

(** A [Vhd] wrapper once [readHeaderAndFooter] has populated it.  [merge]
    itself reads [header.blockSize], [header.maxTableEntries] and the
    footer's fields, and assigns five fields of the parent's footer. *)
Record Vhd := mkVhd {
  vhdHandler : Handler;
  vhdFd : Fd;
  footer : Footer;
  header : Header;
  priv : P
}.

Record Contract := mkContract {
  (* handler.openFile(path, flags) *)
  openFile : Handler → Path → string → W → W * Result Fd;
  (* handler.closeFile(fd) *)
  closeFile : Handler → Fd → W → W * Result unit;
  (* new Vhd(handler, fd) followed by its readHeaderAndFooter() *)
  readHeaderAndFooter : Handler → Fd → W → W * Result Vhd;
  (* vhd.readBlockAllocationTable() *)
  readBlockAllocationTable : Vhd → W → W * Result Vhd;
  (* vhd.ensureBatSize(size) *)
  ensureBatSize : Vhd → Z → W → W * Result Vhd;
  (* vhd.containsBlock(id): synchronous, no effect *)
  containsBlock : Vhd → Z → bool;
  (* parent.coalesceBlock(child, blockId): the parent wrapper afterwards
     and the number of bytes it reports *)
  coalesceBlock : Vhd → Vhd → Z → W → W * Result (Vhd * Z);
  (* vhd.writeFooter() *)
  writeFooter : Vhd → W → W * Result Vhd
}.

(** ** Calls observed

    Each call [merge] makes on a collaborator is logged with its outcome, in
    the order the calls are made. *)
Inductive Event :=
| EvOpenFile (h : Handler) (p : Path) (flags : string) (r : Result Fd)
| EvCloseFile (h : Handler) (fd : Fd) (r : Result unit)
| EvReadHeaderAndFooter (h : Handler) (fd : Fd) (r : Result Vhd)
| EvReadBlockAllocationTable (v : Vhd) (r : Result Vhd)
| EvEnsureBatSize (v : Vhd) (size : Z) (r : Result Vhd)
| EvCoalesceBlock (parent child : Vhd) (blockId : Z) (r : Result (Vhd * Z))
| EvWriteFooter (v : Vhd) (r : Result Vhd).

(** ** The monad of [merge]: world, log, exceptions *)

Definition M (A : Type) : Type := W * list Event → (W * list Event) * Result A.

Definition ret {A} (a : A) : M A := λ s, (s, Ok a).
Definition throw {A} (e : Exn) : M A := λ s, (s, Err e).
Definition bind {A B} (m : M A) (k : A → M B) : M B :=
  λ s, match m s with
       | (s', Ok a) => k a s'
       | (s', Err e) => (s', Err e)
       end.

(** [try { body } finally { cleanup }]: the cleanup runs on every exit of
    the body; when it throws, its exception replaces the body's outcome. *)
Definition tryFinally {A} (body : M A) (cleanup : M unit) : M A :=
  λ s, match body s with
       | (s1, r) =>
           match cleanup s1 with
           | (s2, Ok _) => (s2, r)
           | (s2, Err e) => (s2, Err e)
           end
       end.

(** [await Promise.all([a, b])]: both calls are made, [a] first; the whole
    rejects when one of them does.  Operations are atomic in this model, so
    the first rejection in call order is the one reported. *)
Definition all2 {A B} (a : M A) (b : M B) : M (A * B) :=
  λ s, match a s with
       | (s1, ra) =>
           match b s1 with
           | (s2, rb) =>
               (s2, match ra, rb with
                    | Ok x, Ok y => Ok (x, y)
                    | Err e, _ => Err e
                    | Ok _, Err e => Err e
                    end)
           end
       end.

Definition assert (b : bool) : M unit :=
  if b then ret tt else throw AssertionError.

(** A call on a collaborator: run it on the world and log it. *)
Definition call {A} (op : W → W * Result A) (ev : Result A → Event) : M A :=
  λ '(w, log), match op w with (w', r) => ((w', log ++ [ev r]), r) end.

End Contract.

Arguments Vhd : clear implicits.
Arguments Contract : clear implicits.
Arguments Event : clear implicits.
Arguments M : clear implicits.

Declare Scope merge_scope.
Delimit Scope merge_scope with merge.
Notation "x <- m ;; k" := (bind m (λ x, k))
  (at level 100, m at next level, right associativity) : merge_scope.
Notation "'let*' pat := m 'in' k" := (bind m (λ pat, k))
  (at level 100, pat pattern, m at next level, right associativity) : merge_scope.
Notation "m ;;; k" := (bind m (λ _, k))
  (at level 100, right associativity) : merge_scope.

Section MergeCode.

Context {W P : Type} (C : Contract W P).
Local Open Scope merge_scope.

Abbreviation M := (M W P).

(** Lines 46-55: the loop over the child's block indices.  [ids] is the
    ascending list of indices still to visit. *)
Fixpoint coalesceBlocks (parentVhd childVhd : Vhd P) (ids : list Z)
    (mergedDataSize : Z) : M (Vhd P * Z) :=
  match ids with
  | [] => ret (parentVhd, mergedDataSize)
  | blockId :: rest =>
      if containsBlock C childVhd blockId then
        let* (parentVhd', n) :=
          call (coalesceBlock C parentVhd childVhd blockId)
               (EvCoalesceBlock parentVhd childVhd blockId) in
        coalesceBlocks parentVhd' childVhd rest (mergedDataSize + n)
      else
        coalesceBlocks parentVhd childVhd rest mergedDataSize
  end.

(** Lines 57-64: the child's metadata is copied onto the parent's footer. *)
Definition adoptFooter (pFooter cFooter : Footer) : Footer :=
  {| cookie := cookie pFooter;
     features := features pFooter;
     fileFormatVersion := fileFormatVersion pFooter;
     dataOffset := dataOffset pFooter;
     timestamp := timestamp cFooter;
     creatorApplication := creatorApplication pFooter;
     creatorHostOs := creatorHostOs pFooter;
     originalSize := originalSize cFooter;
     currentSize := currentSize cFooter;
     diskGeometry :=
       {| cylinders := cylinders (diskGeometry cFooter);
          heads := heads (diskGeometry cFooter);
          sectorsPerTrack := sectorsPerTrack (diskGeometry cFooter) |};
     diskType := diskType pFooter;
     checksum := checksum pFooter;
     uuid := uuid cFooter |}.

Definition withFooter (v : Vhd P) (f : Footer) : Vhd P :=
  {| vhdHandler := vhdHandler v; vhdFd := vhdFd v; footer := f;
     header := header v; priv := priv v |}.

(** Lines 21-70: what runs with both files open. *)
Definition mergeOpened (parentHandler : Handler) (parentFd : Fd)
    (childHandler : Handler) (childFd : Fd) : M Z :=
  (* Reading footer and header. *)
  let* (parentVhd, childVhd) :=
    all2 (call (readHeaderAndFooter C parentHandler parentFd)
               (EvReadHeaderAndFooter parentHandler parentFd))
         (call (readHeaderAndFooter C childHandler childFd)
               (EvReadHeaderAndFooter childHandler childFd)) in
  assert (blockSize (header childVhd) =? blockSize (header parentVhd)) ;;;
  let parentDiskType := diskType (footer parentVhd) in
  assert ((parentDiskType =? DISK_TYPE_DIFFERENCING)
          || (parentDiskType =? DISK_TYPE_DYNAMIC)) ;;;
  assert (diskType (footer childVhd) =? DISK_TYPE_DIFFERENCING) ;;;
  (* Read allocation table of child/parent. *)
  let* (parentVhd, childVhd) :=
    all2 (call (readBlockAllocationTable C parentVhd)
               (EvReadBlockAllocationTable parentVhd))
         (call (readBlockAllocationTable C childVhd)
               (EvReadBlockAllocationTable childVhd)) in
  parentVhd <- call (ensureBatSize C parentVhd (maxTableEntries (header childVhd)))
                    (EvEnsureBatSize parentVhd (maxTableEntries (header childVhd))) ;;
  let* (parentVhd, mergedDataSize) :=
    coalesceBlocks parentVhd childVhd
      (seqZ 0 (maxTableEntries (header childVhd))) 0 in
  let parentVhd := withFooter parentVhd
                     (adoptFooter (footer parentVhd) (footer childVhd)) in
  (* necessary to update values and to recreate the footer after block
     creation *)
  call (writeFooter C parentVhd) (EvWriteFooter parentVhd) ;;;
  ret mergedDataSize.

(** Lines 10-77 ([concurrency(2)] apart, which only delays the start). *)
Definition merge (parentHandler : Handler) (parentPath : Path)
    (childHandler : Handler) (childPath : Path) : M Z :=
  parentFd <- call (openFile C parentHandler parentPath "r+")
                   (EvOpenFile parentHandler parentPath "r+") ;;
  tryFinally
    (childFd <- call (openFile C childHandler childPath "r")
                     (EvOpenFile childHandler childPath "r") ;;
     tryFinally
       (mergeOpened parentHandler parentFd childHandler childFd)
       (call (closeFile C childHandler childFd)
             (EvCloseFile childHandler childFd)))
    (call (closeFile C parentHandler parentFd)
          (EvCloseFile parentHandler parentFd)).

(** A whole call of [merge] from a world, with an empty log. *)
Definition runMerge (parentHandler : Handler) (parentPath : Path)
    (childHandler : Handler) (childPath : Path) (w : W)
    : (W * list (Event P)) * Result Z :=
  merge parentHandler parentPath childHandler childPath (w, []).

Definition logOf {A} (out : (W * list (Event P)) * Result A) : list (Event P) :=
  snd (fst out).
Definition resultOf {A} (out : (W * list (Event P)) * Result A) : Result A :=
  snd out.

(** ** Reading a log *)

(** The three assertions of lines 29-36, on the wrappers as read. *)
Definition validPair (parentVhd childVhd : Vhd P) : bool :=
  (blockSize (header childVhd) =? blockSize (header parentVhd))
  && ((diskType (footer parentVhd) =? DISK_TYPE_DIFFERENCING)
      || (diskType (footer parentVhd) =? DISK_TYPE_DYNAMIC))
  && (diskType (footer childVhd) =? DISK_TYPE_DIFFERENCING).

(** Did the logged call resolve? *)
Definition succeeded (ev : Event P) : bool :=
  match ev with
  | EvOpenFile _ _ _ r => isOk r
  | EvCloseFile _ _ r => isOk r
  | EvReadHeaderAndFooter _ _ r => isOk r
  | EvReadBlockAllocationTable _ r => isOk r
  | EvEnsureBatSize _ _ r => isOk r
  | EvCoalesceBlock _ _ _ r => isOk r
  | EvWriteFooter _ r => isOk r
  end.

(** Calls that change the parent disk: its table, its blocks, its footer. *)
Definition mutates (ev : Event P) : bool :=
  match ev with
  | EvEnsureBatSize _ _ _ | EvCoalesceBlock _ _ _ _ | EvWriteFooter _ _ => true
  | _ => false
  end.

Definition isCoalesce (ev : Event P) : bool :=
  match ev with EvCoalesceBlock _ _ _ _ => true | _ => false end.

Definition isClose (ev : Event P) : bool :=
  match ev with EvCloseFile _ _ _ => true | _ => false end.

(** Descriptors obtained from [openFile], in the order they were obtained. *)
Definition opened (log : list (Event P)) : list (Handler * Fd) :=
  omap (λ ev, match ev with
              | EvOpenFile h _ _ (Ok fd) => Some (h, fd)
              | _ => None
              end) log.

(** Descriptors handed to [closeFile], in the order of the calls. *)
Definition closed (log : list (Event P)) : list (Handler * Fd) :=
  omap (λ ev, match ev with
              | EvCloseFile h fd _ => Some (h, fd)
              | _ => None
              end) log.

(** Outcomes of the [readHeaderAndFooter] calls, in order. *)
Definition headersRead (log : list (Event P)) : list (Result (Vhd P)) :=
  omap (λ ev, match ev with
              | EvReadHeaderAndFooter _ _ r => Some r
              | _ => None
              end) log.

(** Outcomes of the [readBlockAllocationTable] calls, in order. *)
Definition tablesRead (log : list (Event P)) : list (Result (Vhd P)) :=
  omap (λ ev, match ev with
              | EvReadBlockAllocationTable _ r => Some r
              | _ => None
              end) log.

(** The [coalesceBlock] calls: source wrapper and block index, in order. *)
Definition coalesceCalls (log : list (Event P)) : list (Vhd P * Z) :=
  omap (λ ev, match ev with
              | EvCoalesceBlock _ child blockId _ => Some (child, blockId)
              | _ => None
              end) log.

(** The [coalesceBlock] calls that resolved: the wrapper each was called
    on and the wrapper it left.  In the code both are the one object
    [parentVhd], before and after the call. *)
Definition coalesceSteps (log : list (Event P)) : list (Vhd P * Vhd P) :=
  omap (λ ev, match ev with
              | EvCoalesceBlock parent _ _ (Ok (parent', _)) => Some (parent, parent')
              | _ => None
              end) log.

(** The steps lead from [v] to [v']: the first call is made on [v], each
    other call on the wrapper the call before it left, and [v'] is what the
    last call left. *)
Fixpoint threads (v : Vhd P) (steps : list (Vhd P * Vhd P)) (v' : Vhd P) : Prop :=
  match steps with
  | [] => v' = v
  | (a, b) :: rest => a = v ∧ threads b rest v'
  end.

(** The byte counts the [coalesceBlock] calls reported, in order. *)
Definition reportedBytes (log : list (Event P)) : list Z :=
  omap (λ ev, match ev with
              | EvCoalesceBlock _ _ _ (Ok (_, n)) => Some n
              | _ => None
              end) log.

Definition sumZ (l : list Z) : Z := foldr Z.add 0 l.

(** The wrappers [writeFooter] was called on. *)
Definition footersWritten (log : list (Event P)) : list (Vhd P) :=
  omap (λ ev, match ev with
              | EvWriteFooter v _ => Some v
              | _ => None
              end) log.

(** The logged call, when it resolved, left the wrapper's [footer] field as
    it was.  Nothing in the contract assigns it; [merge] is its only
    writer. *)
Definition keepsFooter (ev : Event P) : Prop :=
  match ev with
  | EvReadBlockAllocationTable v (Ok v') => footer v' = footer v
  | EvEnsureBatSize v _ (Ok v') => footer v' = footer v
  | EvCoalesceBlock parent _ _ (Ok (parent', _)) => footer parent' = footer parent
  | _ => True
  end.

(** ** Runs of [merge], by exit path

    The relations below list the logs and results [merge] can produce, one
    constructor per exit path.  They are derived from the code above (lemmas
    [coalesceBlocks_run], [mergeOpened_run], [merge_run]). *)

Definition both {A B} (ra : Result A) (rb : Result B) : Result (A * B) :=
  match ra, rb with
  | Ok x, Ok y => Ok (x, y)
  | Err e, _ => Err e
  | Ok _, Err e => Err e
  end.

Definition afterCleanup {A} (r : Result A) (cleanup : Result unit) : Result A :=
  match cleanup with Ok _ => r | Err e => Err e end.

Inductive LoopRun (childVhd : Vhd P)
  : Vhd P → list Z → Z → list (Event P) → Result (Vhd P * Z) → Prop :=
| LoopEnd parentVhd acc :
    LoopRun childVhd parentVhd [] acc [] (Ok (parentVhd, acc))
| LoopSkip parentVhd blockId ids acc evs r :
    containsBlock C childVhd blockId = false →
    LoopRun childVhd parentVhd ids acc evs r →
    LoopRun childVhd parentVhd (blockId :: ids) acc evs r
| LoopCoalesce parentVhd blockId ids acc parentVhd' n evs r :
    containsBlock C childVhd blockId = true →
    LoopRun childVhd parentVhd' ids (acc + n) evs r →
    LoopRun childVhd parentVhd (blockId :: ids) acc
      (EvCoalesceBlock parentVhd childVhd blockId (Ok (parentVhd', n)) :: evs) r
| LoopFail parentVhd blockId ids acc e :
    containsBlock C childVhd blockId = true →
    LoopRun childVhd parentVhd (blockId :: ids) acc
      [EvCoalesceBlock parentVhd childVhd blockId (Err e)] (Err e).

Inductive OpenedRun (ph : Handler) (pfd : Fd) (ch : Handler) (cfd : Fd)
  : list (Event P) → Result Z → Prop :=
| HeadersFailed rp rc e :
    both rp rc = Err e →
    OpenedRun ph pfd ch cfd
      [EvReadHeaderAndFooter ph pfd rp; EvReadHeaderAndFooter ch cfd rc] (Err e)
| Rejected pv cv :
    validPair pv cv = false →
    OpenedRun ph pfd ch cfd
      [EvReadHeaderAndFooter ph pfd (Ok pv); EvReadHeaderAndFooter ch cfd (Ok cv)]
      (Err AssertionError)
| TablesFailed pv cv rp rc e :
    validPair pv cv = true →
    both rp rc = Err e →
    OpenedRun ph pfd ch cfd
      [EvReadHeaderAndFooter ph pfd (Ok pv); EvReadHeaderAndFooter ch cfd (Ok cv);
       EvReadBlockAllocationTable pv rp; EvReadBlockAllocationTable cv rc]
      (Err e)
| EnsureFailed pv cv pv1 cv1 e :
    validPair pv cv = true →
    OpenedRun ph pfd ch cfd
      [EvReadHeaderAndFooter ph pfd (Ok pv); EvReadHeaderAndFooter ch cfd (Ok cv);
       EvReadBlockAllocationTable pv (Ok pv1); EvReadBlockAllocationTable cv (Ok cv1);
       EvEnsureBatSize pv1 (maxTableEntries (header cv1)) (Err e)]
      (Err e)
| LoopFailed pv cv pv1 cv1 pv2 evs e :
    validPair pv cv = true →
    LoopRun cv1 pv2 (seqZ 0 (maxTableEntries (header cv1))) 0 evs (Err e) →
    OpenedRun ph pfd ch cfd
      ([EvReadHeaderAndFooter ph pfd (Ok pv); EvReadHeaderAndFooter ch cfd (Ok cv);
        EvReadBlockAllocationTable pv (Ok pv1); EvReadBlockAllocationTable cv (Ok cv1);
        EvEnsureBatSize pv1 (maxTableEntries (header cv1)) (Ok pv2)] ++ evs)
      (Err e)
| Written pv cv pv1 cv1 pv2 evs pv3 n rw :
    validPair pv cv = true →
    LoopRun cv1 pv2 (seqZ 0 (maxTableEntries (header cv1))) 0 evs (Ok (pv3, n)) →
    OpenedRun ph pfd ch cfd
      ([EvReadHeaderAndFooter ph pfd (Ok pv); EvReadHeaderAndFooter ch cfd (Ok cv);
        EvReadBlockAllocationTable pv (Ok pv1); EvReadBlockAllocationTable cv (Ok cv1);
        EvEnsureBatSize pv1 (maxTableEntries (header cv1)) (Ok pv2)] ++ evs
       ++ [EvWriteFooter (withFooter pv3 (adoptFooter (footer pv3) (footer cv1))) rw])
      (match rw with Ok _ => Ok n | Err e => Err e end).

Inductive MergeRun (ph : Handler) (pp : Path) (ch : Handler) (cp : Path)
  : list (Event P) → Result Z → Prop :=
| ParentNotOpened e :
    MergeRun ph pp ch cp [EvOpenFile ph pp "r+" (Err e)] (Err e)
| ChildNotOpened pfd e rcp :
    MergeRun ph pp ch cp
      [EvOpenFile ph pp "r+" (Ok pfd); EvOpenFile ch cp "r" (Err e);
       EvCloseFile ph pfd rcp]
      (afterCleanup (Err e) rcp)
| BothOpened pfd cfd evs r rcc rcp :
    OpenedRun ph pfd ch cfd evs r →
    MergeRun ph pp ch cp
      ([EvOpenFile ph pp "r+" (Ok pfd); EvOpenFile ch cp "r" (Ok cfd)] ++ evs
       ++ [EvCloseFile ch cfd rcc; EvCloseFile ph pfd rcp])
      (afterCleanup (afterCleanup r rcc) rcp).

End MergeCode.

(** ** A sample collaborator

    It serves to run [merge] on concrete disks; the properties of [merge]
    are proved for every collaborator, not for this one. *)
Module Sample.

(** Modelled from the spec: an in-memory stand-in for the handle contract of
    section 6 ([./vhd] and the storage handlers are not among the sources).
    A disk is its footer, its header and its block allocation table (sector
    offsets, [0xFFFFFFFF] for an unused slot). *)
Record Disk := mkDisk {
  diskFooter : Footer;
  diskHeader : Header;
  diskTable : list Z
}.

Record World := mkWorld {
  disks : list (Path * Disk);
  descriptors : list (Fd * Path)
}.

Definition BLOCK_UNUSED : Z := 0xFFFFFFFF.

Fixpoint lookupBy {K V} (eqb : K → K → bool) (k : K) (l : list (K * V)) : option V :=
  match l with
  | [] => None
  | (k', v) :: rest => if eqb k k' then Some v else lookupBy eqb k rest
  end.

Fixpoint updateBy {K V} (eqb : K → K → bool) (k : K) (v : V) (l : list (K * V))
    : list (K * V) :=
  match l with
  | [] => [(k, v)]
  | (k', v') :: rest =>
      if eqb k k' then (k, v) :: rest else (k', v') :: updateBy eqb k v rest
  end.

Definition diskOf (w : World) (fd : Fd) : option Disk :=
  match lookupBy Z.eqb fd (descriptors w) with
  | Some p => lookupBy String.eqb p (disks w)
  | None => None
  end.

Definition storeDisk (w : World) (fd : Fd) (d : Disk) : World :=
  match lookupBy Z.eqb fd (descriptors w) with
  | Some p => {| disks := updateBy String.eqb p d (disks w);
                 descriptors := descriptors w |}
  | None => w
  end.

Definition sampleOpen (_ : Handler) (p : Path) (_ : string) (w : World)
    : World * Result Fd :=
  match lookupBy String.eqb p (disks w) with
  | Some _ =>
      let fd := 3 + Z.of_nat (length (descriptors w)) in
      ({| disks := disks w; descriptors := descriptors w ++ [(fd, p)] |}, Ok fd)
  | None => (w, Err (Failure "ENOENT"))
  end.

Definition sampleClose (_ : Handler) (fd : Fd) (w : World) : World * Result unit :=
  match lookupBy Z.eqb fd (descriptors w) with
  | Some _ =>
      ({| disks := disks w;
          descriptors := filter (λ e, fst e ≠ fd) (descriptors w) |}, Ok tt)
  | None => (w, Err (Failure "EBADF"))
  end.

Definition sampleReadHeaderAndFooter (h : Handler) (fd : Fd) (w : World)
    : World * Result (Vhd (option (list Z))) :=
  match diskOf w fd with
  | Some d => (w, Ok {| vhdHandler := h; vhdFd := fd; footer := diskFooter d;
                        header := diskHeader d; priv := None |})
  | None => (w, Err (Failure "EBADF"))
  end.

Definition withTable (v : Vhd (option (list Z))) (hd : Header) (t : list Z)
    : Vhd (option (list Z)) :=
  {| vhdHandler := vhdHandler v; vhdFd := vhdFd v; footer := footer v;
     header := hd; priv := Some t |}.

Definition sampleReadTable (v : Vhd (option (list Z))) (w : World)
    : World * Result (Vhd (option (list Z))) :=
  match diskOf w (vhdFd v) with
  | Some d => (w, Ok (withTable v (header v) (diskTable d)))
  | None => (w, Err (Failure "EBADF"))
  end.

Definition tableOf (v : Vhd (option (list Z))) : list Z :=
  match priv v with Some t => t | None => [] end.

Definition sampleEnsureBatSize (v : Vhd (option (list Z))) (size : Z) (w : World)
    : World * Result (Vhd (option (list Z))) :=
  if size <=? maxTableEntries (header v) then (w, Ok v)
  else
    let hd := {| headerCookie := headerCookie (header v);
                 tableOffset := tableOffset (header v);
                 headerVersion := headerVersion (header v);
                 maxTableEntries := size;
                 blockSize := blockSize (header v);
                 headerChecksum := headerChecksum (header v) |} in
    let t := tableOf v
             ++ replicate (Z.to_nat size - length (tableOf v))%nat BLOCK_UNUSED in
    (storeDisk w (vhdFd v) {| diskFooter := footer v; diskHeader := hd; diskTable := t |},
     Ok (withTable v hd t)).

Definition sampleContainsBlock (v : Vhd (option (list Z))) (blockId : Z) : bool :=
  match tableOf v !! Z.to_nat blockId with
  | Some entry => negb (entry =? BLOCK_UNUSED)
  | None => false
  end.

Definition sampleCoalesceBlock (parent child : Vhd (option (list Z))) (blockId : Z)
    (w : World) : World * Result (Vhd (option (list Z)) * Z) :=
  match diskOf w (vhdFd parent) with
  | Some d =>
      let entry :=
        if sampleContainsBlock parent blockId
        then default BLOCK_UNUSED (tableOf parent !! Z.to_nat blockId)
        else 3 + Z.of_nat (length (tableOf parent)) in
      let t := <[Z.to_nat blockId := entry]> (tableOf parent) in
      (storeDisk w (vhdFd parent)
         {| diskFooter := diskFooter d; diskHeader := header parent; diskTable := t |},
       Ok (withTable parent (header parent) t, blockSize (header parent)))
  | None => (w, Err (Failure "EBADF"))
  end.

Definition sampleWriteFooter (v : Vhd (option (list Z))) (w : World)
    : World * Result (Vhd (option (list Z))) :=
  match diskOf w (vhdFd v) with
  | Some d =>
      (storeDisk w (vhdFd v)
         {| diskFooter := footer v; diskHeader := diskHeader d;
            diskTable := diskTable d |}, Ok v)
  | None => (w, Err (Failure "EBADF"))
  end.

Definition contract : Contract World (option (list Z)) :=
  {| openFile := sampleOpen;
     closeFile := sampleClose;
     readHeaderAndFooter := sampleReadHeaderAndFooter;
     readBlockAllocationTable := sampleReadTable;
     ensureBatSize := sampleEnsureBatSize;
     containsBlock := sampleContainsBlock;
     coalesceBlock := sampleCoalesceBlock;
     writeFooter := sampleWriteFooter |}.

Definition sampleFooter (kind size stamp : Z) (id : Buffer) : Footer :=
  {| cookie := "conectix"; features := 2; fileFormatVersion := 0x00010000;
     dataOffset := 512; timestamp := stamp; creatorApplication := "xo  ";
     creatorHostOs := 0x5769326b; originalSize := size; currentSize := size;
     diskGeometry := {| cylinders := size / (4 * 17 * 512); heads := 4;
                        sectorsPerTrack := 17 |};
     diskType := kind; checksum := 0; uuid := id |}.

Definition sampleHeader (entries : Z) : Header :=
  {| headerCookie := "cxsparse"; tableOffset := 1536; headerVersion := 0x00010000;
     maxTableEntries := entries; blockSize := 0x00200000; headerChecksum := 0 |}.

(** A dynamic parent of two blocks (the first allocated) and a differencing
    child of three blocks (the second and third allocated). *)
Definition parentDisk : Disk :=
  {| diskFooter := sampleFooter DISK_TYPE_DYNAMIC 0x400000 100 [x01; x02];
     diskHeader := sampleHeader 2;
     diskTable := [4; BLOCK_UNUSED] |}.

Definition childDisk : Disk :=
  {| diskFooter := sampleFooter DISK_TYPE_DIFFERENCING 0x600000 200 [x0a; x0b];
     diskHeader := sampleHeader 3;
     diskTable := [BLOCK_UNUSED; 4; 4101] |}.

(** A child that is dynamic, not differencing. *)
Definition dynamicChildDisk : Disk :=
  {| diskFooter := sampleFooter DISK_TYPE_DYNAMIC 0x600000 200 [x0a; x0b];
     diskHeader := sampleHeader 3;
     diskTable := [BLOCK_UNUSED; 4; 4101] |}.

Definition world : World :=
  {| disks := [("parent.vhd", parentDisk); ("child.vhd", childDisk);
               ("dynamic.vhd", dynamicChildDisk)];
     descriptors := [] |}.

(** The wrappers [readHeaderAndFooter] yields for the files of [world], the
    parent being opened first (descriptor 3) and the child second. *)
Definition wrapper (fd : Fd) (d : Disk) : Vhd (option (list Z)) :=
  {| vhdHandler := "local"; vhdFd := fd; footer := diskFooter d;
     header := diskHeader d; priv := None |}.

(** Merging [child.vhd] into [parent.vhd]. *)
Definition goodRun : (World * list (Event (option (list Z)))) * Result Z :=
  runMerge contract "local" "parent.vhd" "local" "child.vhd" world.

(** Merging [dynamic.vhd], which is not a differencing disk. *)
Definition badRun : (World * list (Event (option (list Z)))) * Result Z :=
  runMerge contract "local" "parent.vhd" "local" "dynamic.vhd" world.

(** [contract], except that [coalesceBlock] rejects on block [failAt] and
    that [closeFile] rejects on descriptor [failClose]: a storage that breaks
    down in the middle of a merge. *)
Definition faulty (failAt : option Z) (failClose : option Fd)
    : Contract World (option (list Z)) :=
  {| openFile := sampleOpen;
     closeFile := λ h fd w,
       if bool_decide (failClose = Some fd) then (w, Err (Failure "EIO"))
       else sampleClose h fd w;
     readHeaderAndFooter := sampleReadHeaderAndFooter;
     readBlockAllocationTable := sampleReadTable;
     ensureBatSize := sampleEnsureBatSize;
     containsBlock := sampleContainsBlock;
     coalesceBlock := λ parent child blockId w,
       if bool_decide (failAt = Some blockId) then (w, Err (Failure "EIO"))
       else sampleCoalesceBlock parent child blockId w;
     writeFooter := sampleWriteFooter |}.

(** The child wrapper once its table is read, and the parent wrapper once
    its table has grown to three entries and block 1 was merged into it. *)
Definition childAtLoop : Vhd (option (list Z)) :=
  withTable (wrapper 4 childDisk) (diskHeader childDisk) (diskTable childDisk).

Definition parentAfterBlock1 : Vhd (option (list Z)) :=
  withTable (wrapper 3 parentDisk) (sampleHeader 3) [4; 6; BLOCK_UNUSED].

(** Merging [child.vhd] into [parent.vhd] when coalescing block 2 fails. *)
Definition brokenRun : (World * list (Event (option (list Z)))) * Result Z :=
  runMerge (faulty (Some 2) None) "local" "parent.vhd" "local" "child.vhd" world.

(** The same merge when everything works but the closing of the parent. *)
Definition unclosedRun : (World * list (Event (option (list Z)))) * Result Z :=
  runMerge (faulty None (Some 3)) "local" "parent.vhd" "local" "child.vhd" world.

End Sample.

End Merge.

(** * The sparse image builder and the streaming converter *)

Module VhdWrite.

(** ** Buffers *)

Definition byteOfZ (z : Z) : byte :=
  default x00 (Byte.of_N (Z.to_N (z mod 256))).

Definition ZofByte (b : byte) : Z := Z.of_N (Byte.to_N b).

Definition lengthZ (b : Buffer) : Z := Z.of_nat (length b).

(** [Buffer.alloc(size, fill)], for a size that is not negative. *)
Definition alloc (size : Z) (fill : byte) : Buffer :=
  replicate (Z.to_nat size) fill.

(** An index of [slice]: counted from the end when negative, clamped to the
    buffer. *)
Definition clampIndex (len i : Z) : Z :=
  if i <? 0 then Z.max (len + i) 0 else Z.min i len.

(** [buf.slice(start, end)] *)
Definition slice (buf : Buffer) (start end_ : Z) : Buffer :=
  let s := clampIndex (lengthZ buf) start in
  let e := clampIndex (lengthZ buf) end_ in
  take (Z.to_nat (e - s)) (drop (Z.to_nat s) buf).

(** [source.copy(target, targetStart)]: the target afterwards.  What does not
    fit before the end of the target is not copied. *)
Definition copyInto (source target : Buffer) (targetStart : Z) : Buffer :=
  let ts := Z.to_nat targetStart in
  let src := take (length target - ts) source in
  take ts target ++ src ++ drop (ts + length src) target.

Definition be32 (value : Z) : Buffer :=
  [byteOfZ (value / 2 ^ 24); byteOfZ (value / 2 ^ 16);
   byteOfZ (value / 2 ^ 8); byteOfZ value].

(** [buf.writeUInt32BE(value, offset)]: the buffer afterwards.  Node throws a
    range error for a value that is not a 32-bit unsigned integer and for an
    offset that leaves no room for four bytes. *)
Definition writeUInt32BE (buf : Buffer) (value offset : Z) : Result Buffer :=
  if (0 <=? value) && (value <=? 0xFFFFFFFF)
     && (0 <=? offset) && (offset + 4 <=? lengthZ buf)
  then Ok (copyInto (be32 value) buf offset)
  else Err (RangeError "writeUInt32BE").

(** [buf.readUInt32BE(offset)], to read back what [writeUInt32BE] wrote. *)
Definition readUInt32BE (buf : Buffer) (offset : Z) : option Z :=
  let k := Z.to_nat offset in
  match buf !! k, buf !! S k, buf !! S (S k), buf !! S (S (S k)) with
  | Some b0, Some b1, Some b2, Some b3 =>
      Some (ZofByte b0 * 2 ^ 24 + ZofByte b1 * 2 ^ 16 + ZofByte b2 * 2 ^ 8 + ZofByte b3)
  | _, _, _, _ => None
  end.

(** [Math.ceil(a / b)] for a positive [b]. *)
Definition ceilDiv (a b : Z) : Z := - ((- a) / b).

(** ** Constants and the struct codec of [@xen-orchestra/vhd-lib] *)

(** Modelled from the spec: the constants imported from
    [@xen-orchestra/vhd-lib], which is not among the sources: 512-byte
    sectors, and the VHD disk type codes. *)
Definition VHD_SECTOR_SIZE : Z := 512.
Definition HARD_DISK_TYPE_FIXED : Z := 2.
Definition HARD_DISK_TYPE_DYNAMIC : Z := 3.

Definition footerCookie : string := "conectix".
Definition creatorApp : string := "xo  ".
(* it looks like everybody is using Wi2k *)
Definition WIN2K_OS : Z := 0x5769326b.
Definition headerCookie : string := "cxsparse".

Record Geometry := mkGeometry {
  cylinders : Z;
  heads : Z;
  sectorsPerTrack : Z;
  actualSize : Z
}.

(** The object [createFooter] hands to [fuFooter.pack]; [dataOffset] is
    [undefined] when the caller omits the argument. *)
Record FooterFields := mkFooterFields {
  cookie : string;
  features : Z;
  fileFormatVersion : Z;
  dataOffset : option Z;
  timestamp : Z;
  creatorApplication : string;
  creatorHostOs : Z;
  originalSize : Z;
  currentSize : Z;
  diskGeometry : Geometry;
  diskType : Z
}.

(** The object [createDynamicDiskHeader] hands to [fuHeader.pack]. *)
Record HeaderFields := mkHeaderFields {
  hCookie : string;
  dataOffsetUnused : Buffer;
  tableOffset : Z;
  headerVersion : Z;
  maxTableEntries : Z;
  hBlockSize : Z;
  hChecksum : Z
}.

Inductive Struct := FuFooter | FuHeader.

(** What [vhd-write.js] imports from [@xen-orchestra/vhd-lib] besides the
    constants; taken as a parameter. *)
Record Codec := mkCodec {
  fuFooter_pack : FooterFields → Buffer;
  fuFooter_size : Z;
  fuHeader_pack : HeaderFields → Buffer;
  (* checksumStruct(buf, struct) writes the checksum into buf *)
  checksumStruct : Buffer → Struct → Buffer;
  computeGeometryForSize : Z → Geometry
}.

(** ** Blocks *)

(** [buffer] holds the bitmap and then the data; [bitmapBuffer] and
    [dataBuffer] are views of it, not copies. *)
Record Block := mkBlock {
  buffer : Buffer;
  bitmapSize : Z
}.

Definition bitmapBuffer (b : Block) : Buffer := slice (buffer b) 0 (bitmapSize b).
Definition dataBuffer (b : Block) : Buffer :=
  slice (buffer b) (bitmapSize b) (lengthZ (buffer b)).

Definition blockBufferSize (blockSize : Z) : Z :=
  ceilDiv (blockSize + blockSize / VHD_SECTOR_SIZE / 8) VHD_SECTOR_SIZE
  * VHD_SECTOR_SIZE.

(** [new Block(blockSize)].  The divisions are exact for a block size that
    is a multiple of 4096 (512 bytes a sector, 8 sectors a bitmap byte), as
    the 2 MiB of [VHDFile] is. *)
Definition newBlock (blockSize : Z) : Block :=
  let bitmapSize := blockSize / VHD_SECTOR_SIZE / 8 in
  let bufferSize := blockBufferSize blockSize in
  {| buffer := copyInto (alloc bitmapSize xff) (alloc bufferSize x00) 0;
     bitmapSize := bitmapSize |}.

(** The block once [buf] is copied into its data view at [offset], that
    is into [buffer] past the bitmap. *)
Definition withData (b : Block) (buf : Buffer) (offset : Z) : Block :=
  {| buffer := copyInto buf (buffer b) (bitmapSize b + offset);
     bitmapSize := bitmapSize b |}.

(** [block.writeData(buffer, offset)], that is
    [buffer.copy(this.dataBuffer, offset)]: [Buffer.copy] throws a range
    error on a negative target start. *)
Definition writeData (b : Block) (buf : Buffer) (offset : Z) : Result Block :=
  if offset <? 0 then Err (RangeError "targetStart")
  else Ok (withData b buf offset).

(** ** The sparse extent *)

(** [entries] is a JavaScript array assigned by index: a finite map from
    indices to blocks ([undefined] where nothing was assigned). *)
Record Table := mkTable {
  entryCount : Z;
  tableBuffer : Buffer;
  entries : gmap Z Block
}.

Definition createEmptyTable (dataSize blockSize : Z) : Table :=
  let blockCount := ceilDiv dataSize blockSize in
  let tableSizeSectors := ceilDiv (blockCount * 4) VHD_SECTOR_SIZE in
  {| entryCount := blockCount;
     tableBuffer := alloc (tableSizeSectors * VHD_SECTOR_SIZE) xff;
     entries := ∅ |}.

Record SparseExtent := mkSparseExtent {
  table : Table;
  blockSize : Z;
  startOffset : Z
}.

(** [new SparseExtent(dataSize, blockSize, startOffset)] *)
Definition newSparseExtent (dataSize blockSize startOffset : Z) : SparseExtent :=
  let table := createEmptyTable dataSize blockSize in
  {| table := table;
     blockSize := blockSize;
     startOffset := (startOffset + lengthZ (tableBuffer table)) / VHD_SECTOR_SIZE |}.

Definition withEntries (se : SparseExtent) (es : gmap Z Block) : SparseExtent :=
  {| table := {| entryCount := entryCount (table se);
                 tableBuffer := tableBuffer (table se);
                 entries := es |};
     blockSize := blockSize se;
     startOffset := startOffset se |}.

Definition withTableBuffer (se : SparseExtent) (buf : Buffer) : SparseExtent :=
  {| table := {| entryCount := entryCount (table se);
                 tableBuffer := buf;
                 entries := entries (table se) |};
     blockSize := blockSize se;
     startOffset := startOffset se |}.

(** A throw ends the use of the extent: no caller catches it, and what the
    extent holds afterwards is not modelled. *)
Definition _writeBlock (se : SparseExtent) (blockBuffer : Buffer)
    (tableIndex offset : Z) : Result SparseExtent :=
  if blockSize se <? lengthZ blockBuffer + offset then
    Err (Failure "invalid block geometry")
  else
    let entry :=
      match entries (table se) !! tableIndex with
      | Some entry => entry
      | None => newBlock (blockSize se)
      end in
    match writeData entry blockBuffer offset with
    | Ok entry => Ok (withEntries se (<[tableIndex := entry]> (entries (table se))))
    | Err e => Err e
    end.

(** The body of the loop of [writeBuffer], for block [i]. *)
Definition writeBufferAt (se : SparseExtent) (buf : Buffer) (offset i : Z)
    : Result SparseExtent :=
  let blockDelta := offset - i * blockSize se in
  if 0 <? blockDelta then
    _writeBlock se (slice buf 0 ((i + 1) * blockSize se - offset)) i blockDelta
  else
    _writeBlock se (slice buf (- blockDelta) ((i + 1) * blockSize se - offset)) i 0.

(** The loop of [writeBuffer] over the indices still to visit.  A throw
    leaves the loop; no caller catches it. *)
Fixpoint writeBufferFrom (se : SparseExtent) (buf : Buffer) (offset : Z)
    (ids : list Z) : Result SparseExtent :=
  match ids with
  | [] => Ok se
  | i :: rest =>
      match writeBufferAt se buf offset i with
      | Ok se' => writeBufferFrom se' buf offset rest
      | Err e => Err e
      end
  end.

Definition startBlockOf (se : SparseExtent) (offset : Z) : Z :=
  offset / blockSize se.
Definition endBlockOf (se : SparseExtent) (buf : Buffer) (offset : Z) : Z :=
  ceilDiv (offset + lengthZ buf) (blockSize se).

Definition writeBuffer (se : SparseExtent) (buf : Buffer) (offset : Z)
    : Result SparseExtent :=
  let startBlock := startBlockOf se offset in
  let endBlock := endBlockOf se buf offset in
  writeBufferFrom se buf offset (seqZ startBlock (endBlock - startBlock)).

(** ** Writing the file

    A file opened with ['w'] starts empty; every [write(file, buf, 0, len)]
    appends.  The file is modelled by the sequence of buffers written to it;
    failures of the file system are left out. *)
Definition File := list Buffer.

Definition write (file : File) (buf : Buffer) (offset len : Z) : File :=
  file ++ [slice buf offset (offset + len)].

(** First loop of [writeOnFile]: stamp the sector offset of every allocated
    block into the table buffer. *)
Fixpoint stampOffsets (es : gmap Z Block) (buf : Buffer) (currentOffset : Z)
    (ids : list Z) : Result (Buffer * Z) :=
  match ids with
  | [] => Ok (buf, currentOffset)
  | i :: rest =>
      match es !! i with
      | Some block =>
          match writeUInt32BE buf currentOffset (i * 4) with
          | Ok buf' =>
              stampOffsets es buf'
                (currentOffset + lengthZ (buffer block) / VHD_SECTOR_SIZE) rest
          | Err e => Err e
          end
      | None => stampOffsets es buf currentOffset rest
      end
  end.

(** Second loop of [writeOnFile]: every allocated block writes its whole
    buffer ([block.writeOnFile(file)]). *)
Fixpoint writeBlocks (es : gmap Z Block) (file : File) (ids : list Z) : File :=
  match ids with
  | [] => file
  | i :: rest =>
      match es !! i with
      | Some block =>
          writeBlocks es (write file (buffer block) 0 (lengthZ (buffer block))) rest
      | None => writeBlocks es file rest
      end
  end.

Definition writeOnFile (se : SparseExtent) (file : File) : File * Result SparseExtent :=
  let ids := seqZ 0 (entryCount (table se)) in
  match stampOffsets (entries (table se)) (tableBuffer (table se))
          (startOffset se) ids with
  | Err e => (file, Err e)
  | Ok (buf, _) =>
      let file := write file buf 0 (lengthZ buf) in
      (writeBlocks (entries (table se)) file ids, Ok (withTableBuffer se buf))
  end.

(** ** Notions used to state the properties of the builder *)

(** The bytes of [buf], written at absolute offset [offset], that fall into
    block [i]: those at absolute positions [i * blockSize] up to
    [(i + 1) * blockSize]. *)
Definition chunkFor (blockSize : Z) (buf : Buffer) (offset i : Z) : Buffer :=
  let lo := Z.max 0 (i * blockSize - offset) in
  let hi := (i + 1) * blockSize - offset in
  take (Z.to_nat (hi - lo)) (drop (Z.to_nat lo) buf).

(** Sectors taken by the blocks allocated at the indices [ids]. *)
Definition sectorsOf (es : gmap Z Block) (ids : list Z) : Z :=
  foldr (λ i acc, match es !! i with
                  | Some block => lengthZ (buffer block) / VHD_SECTOR_SIZE + acc
                  | None => acc
                  end) 0 ids.

(** The sector at which block [i] lands: the blocks start at [startOffset]
    and follow each other in ascending index order. *)
Definition cursorAt (se : SparseExtent) (i : Z) : Z :=
  startOffset se + sectorsOf (entries (table se)) (seqZ 0 i).

(** The buffers of the allocated blocks, in ascending index order. *)
Definition allocatedBlocks (se : SparseExtent) : list Buffer :=
  omap (λ i, buffer <$> entries (table se) !! i) (seqZ 0 (entryCount (table se))).

(** The invariant of an extent that [writeOnFile] relies on: the table
    buffer has room for every entry, and the slot of a block that was never
    written holds the sentinel. *)
Record wfExtent (se : SparseExtent) : Prop := mkWfExtent {
  wf_start : 0 ≤ startOffset se;
  wf_room : 4 * entryCount (table se) ≤ lengthZ (tableBuffer (table se));
  wf_sentinel : ∀ i, 0 ≤ i < entryCount (table se) →
    entries (table se) !! i = None →
    readUInt32BE (tableBuffer (table se)) (i * 4) = Some 0xFFFFFFFF
}.

Section WithCodec.

Context (codec : Codec).

Definition createFooter (size timestamp : Z) (geometry : Geometry) (diskType : Z)
    (dataOffset : option Z) : Buffer :=
  let footer := fuFooter_pack codec
    {| cookie := footerCookie;
       features := 2;
       fileFormatVersion := 0x00010000;
       dataOffset := dataOffset;
       timestamp := timestamp;
       creatorApplication := creatorApp;
       creatorHostOs := WIN2K_OS;
       originalSize := size;
       currentSize := size;
       diskGeometry := geometry;
       diskType := diskType |} in
  checksumStruct codec footer FuFooter.

Definition createDynamicDiskHeader (tableEntries blockSize : Z) : Buffer :=
  let header := fuHeader_pack codec
    {| hCookie := headerCookie;
       dataOffsetUnused := alloc 8 xff;
       tableOffset := VHD_SECTOR_SIZE * 3;
       headerVersion := 0x00010000;
       maxTableEntries := tableEntries;
       hBlockSize := blockSize;
       hChecksum := 0 |} in
  checksumStruct codec header FuHeader.

Record VHDFile := mkVHDFile {
  geomtry : Geometry;
  fileTimestamp : Z;
  fileBlockSize : Z;
  sparseFile : SparseExtent
}.

(** [new VHDFile(virtualSize, timestamp)] *)
Definition newVHDFile (virtualSize timestamp : Z) : VHDFile :=
  let geomtry := computeGeometryForSize codec virtualSize in
  {| geomtry := geomtry;
     fileTimestamp := timestamp;
     fileBlockSize := 0x00200000;
     sparseFile := newSparseExtent (actualSize geomtry) 0x00200000
                     (VHD_SECTOR_SIZE * 3) |}.

Definition withSparseFile (v : VHDFile) (se : SparseExtent) : VHDFile :=
  {| geomtry := geomtry v; fileTimestamp := fileTimestamp v;
     fileBlockSize := fileBlockSize v; sparseFile := se |}.

(** [vhdFile.writeBuffer(buffer, offset)] *)
Definition fileWriteBuffer (v : VHDFile) (buf : Buffer) (offset : Z)
    : Result VHDFile :=
  match writeBuffer (sparseFile v) buf offset with
  | Ok se => Ok (withSparseFile v se)
  | Err e => Err e
  end.

Definition fileFooterOf (v : VHDFile) : Buffer :=
  createFooter (actualSize (geomtry v)) (fileTimestamp v) (geomtry v)
    HARD_DISK_TYPE_DYNAMIC (Some (fuFooter_size codec)).

Definition diskHeaderOf (v : VHDFile) : Buffer :=
  createDynamicDiskHeader (entryCount (table (sparseFile v))) (fileBlockSize v).

(** [vhdFile.writeFile(fileName)]: what was written to the file, and the
    object afterwards (its table buffer carries the stamped offsets). *)
Definition writeFile (v : VHDFile) : File * Result VHDFile :=
  let fileFooter := fileFooterOf v in
  let diskHeader := diskHeaderOf v in
  let file : File := [] in
  let file := write file fileFooter 0 (lengthZ fileFooter) in
  let file := write file diskHeader 0 (lengthZ diskHeader) in
  match writeOnFile (sparseFile v) file with
  | (file, Err e) => (file, Err e)
  | (file, Ok se) =>
      (write file fileFooter 0 (lengthZ fileFooter), Ok (withSparseFile v se))
  end.

End WithCodec.

(** ** The streaming converter: [ReadableRawVHDStream]

    The stream object is single-threaded: [_read] is called by the readable
    machinery whenever the consumer wants data, and the asynchronous cycle it
    starts is modelled as running to its end (a [_read] arriving in between
    would find [busy] set and return).  The stream's surroundings are part of
    the state: the grains the parser has yet to deliver, the chunks handed
    to [push], the answers [push] will give (backpressure), and the callbacks
    queued with [process.nextTick]. *)

(** What [vmdkParser.next()] resolves to, short of [null]. *)
Record Grain := mkGrain {
  lbaBytes : Z;
  grain : Buffer
}.

(** The closures pushed onto [currentFile]. *)
Inductive Thunk :=
| ThunkAlloc (size : Z)     (* () => Buffer.alloc(size) *)
| ThunkFooter               (* () => this.footer *)
| ThunkEnd                  (* () => { this.done = true; return null } *)
| ThunkBuffer (b : Buffer)  (* () => buffer *).

(** The value of an ['error'] event. *)
Inductive ErrorValue :=
| ErrorMessage (msg : string)
| ErrorThrown (e : Exn).

(** How a call ends for its caller: it returns or it throws. *)
Inductive Completion (A : Type) :=
| Returned (a : A)
| Thrown (e : Exn).
Arguments Returned {A} a.
Arguments Thrown {A} e.

(** The promise an [async] function returns, by how it settles. *)
Inductive Promise (A : Type) :=
| Resolved (a : A)
| Rejected (e : Exn).
Arguments Resolved {A} a.
Arguments Rejected {A} e.

Record Stream := mkStream {
  size : Z;
  footer : Buffer;
  position : Z;
  done : bool;
  busy : bool;
  currentFile : list Thunk;
  (* surroundings *)
  vmdkParser : list Grain;           (* grains not yet delivered *)
  pushed : list (option Buffer);     (* arguments of push so far; None is null *)
  sink : list bool;                  (* answers push will give, true when exhausted *)
  nextTicks : list ErrorValue        (* queued () => this.emit('error', value) *)
}.

Definition setQueue (st : Stream) (q : list Thunk) : Stream :=
  {| size := size st; footer := footer st; position := position st;
     done := done st; busy := busy st; currentFile := q;
     vmdkParser := vmdkParser st; pushed := pushed st; sink := sink st;
     nextTicks := nextTicks st |}.

Definition setDone (st : Stream) : Stream :=
  {| size := size st; footer := footer st; position := position st;
     done := true; busy := busy st; currentFile := currentFile st;
     vmdkParser := vmdkParser st; pushed := pushed st; sink := sink st;
     nextTicks := nextTicks st |}.

Definition setBusy (st : Stream) (b : bool) : Stream :=
  {| size := size st; footer := footer st; position := position st;
     done := done st; busy := b; currentFile := currentFile st;
     vmdkParser := vmdkParser st; pushed := pushed st; sink := sink st;
     nextTicks := nextTicks st |}.

Definition setPosition (st : Stream) (p : Z) : Stream :=
  {| size := size st; footer := footer st; position := p;
     done := done st; busy := busy st; currentFile := currentFile st;
     vmdkParser := vmdkParser st; pushed := pushed st; sink := sink st;
     nextTicks := nextTicks st |}.

Definition setParser (st : Stream) (gs : list Grain) : Stream :=
  {| size := size st; footer := footer st; position := position st;
     done := done st; busy := busy st; currentFile := currentFile st;
     vmdkParser := gs; pushed := pushed st; sink := sink st;
     nextTicks := nextTicks st |}.

(** [process.nextTick(() => this.emit('error', value))] *)
Definition nextTickEmitError (st : Stream) (value : ErrorValue) : Stream :=
  {| size := size st; footer := footer st; position := position st;
     done := done st; busy := busy st; currentFile := currentFile st;
     vmdkParser := vmdkParser st; pushed := pushed st; sink := sink st;
     nextTicks := nextTicks st ++ [value] |}.

(** [this.push(chunk)]: the chunk goes to the consumer; the answer tells
    whether more may be pushed.  [push(null)] ends the stream and answers
    [false]. *)
Definition push (st : Stream) (chunk : option Buffer) : Stream * bool :=
  let answer :=
    match chunk with
    | None => false
    | Some _ => match sink st with [] => true | a :: _ => a end
    end in
  ({| size := size st; footer := footer st; position := position st;
      done := done st; busy := busy st; currentFile := currentFile st;
      vmdkParser := vmdkParser st;
      pushed := pushed st ++ [chunk];
      sink := match chunk with None => sink st | Some _ => tail (sink st) end;
      nextTicks := nextTicks st |}, answer).

(** Calling a queued closure.  [Buffer.alloc] throws a range error on a
    negative size. *)
Definition runThunk (st : Stream) (t : Thunk) : Stream * Result (option Buffer) :=
  match t with
  | ThunkAlloc n =>
      if n <? 0 then (st, Err (RangeError "The value of size is out of range"))
      else (st, Ok (Some (alloc n x00)))
  | ThunkFooter => (st, Ok (Some (footer st)))
  | ThunkEnd => (setDone st, Ok None)
  | ThunkBuffer b => (st, Ok (Some b))
  end.

Definition chunkSize : Z := 1024 * 1024. (* 1Mo *)

(** [filePadding(paddingLength)]: the closures appended to [currentFile]. *)
Definition filePadding (st : Stream) (paddingLength : Z) : Stream :=
  if paddingLength =? 0 then st
  else
    let chunkCount := paddingLength / chunkSize in
    setQueue st
      (currentFile st
       ++ replicate (Z.to_nat chunkCount) (ThunkAlloc chunkSize)
       ++ [ThunkAlloc (Z.rem paddingLength chunkSize)]).

(** The loop of [pushFileUntilFull] on the queue [q] (the closures not yet
    shifted); [currentFile] is set when the loop is left. *)
Fixpoint drainQueue (st : Stream) (q : list Thunk) : Stream * Result bool :=
  match q with
  | [] => (setQueue st [], Ok true)
  | t :: rest =>
      match runThunk st t with
      | (st1, Err e) => (setQueue st1 rest, Err e)
      | (st1, Ok chunk) =>
          match push st1 chunk with
          | (st2, true) => drainQueue st2 rest
          | (st2, false) =>
              (setQueue st2 rest, Ok (match rest with [] => true | _ => false end))
          end
      end
  end.

(** returns true if the file is empty *)
Definition pushFileUntilFull (st : Stream) : Stream * Result bool :=
  drainQueue st (currentFile st).

Definition outOfOrder : string :=
  "This VMDK file does not have its blocks in the correct order".

(** The body of [pushNextBlock], [next] being what [vmdkParser.next()]
    resolved to. *)
Definition pushNextBlockBody (st : Stream) (next : option Grain)
    : Stream * Result bool :=
  match next with
  | None =>
      let paddingLength := size st - position st in
      let st := filePadding st paddingLength in
      let st := setQueue st (currentFile st ++ [ThunkFooter]) in
      let st := setQueue st (currentFile st ++ [ThunkEnd]) in
      pushFileUntilFull st
  | Some next =>
      let offset := lbaBytes next in
      let buf := grain next in
      let paddingLength := offset - position st in
      let st := if paddingLength <? 0
                then nextTickEmitError st (ErrorMessage outOfOrder)
                else st in
      let st := filePadding st paddingLength in
      let st := setQueue st (currentFile st ++ [ThunkBuffer buf]) in
      let st := setPosition st (offset + lengthZ buf) in
      pushFileUntilFull st
  end.

(** An [async] function never throws at its caller: what its body throws
    rejects the promise it returns. *)
Definition async {S A} (body : S * Result A) : S * Completion (Promise A) :=
  match body with
  | (st, Ok a) => (st, Returned (Resolved a))
  | (st, Err e) => (st, Returned (Rejected e))
  end.

(** [vmdkParser.next()]: the next grain, or [null] at the end. *)
Definition parserNext (st : Stream) : Stream * option Grain :=
  match vmdkParser st with
  | [] => (st, None)
  | g :: rest => (setParser st rest, Some g)
  end.

Definition pushNextBlock (st : Stream) : Stream * Completion (Promise bool) :=
  let '(st, next) := parserNext st in
  async (pushNextBlockBody st next).

(** [while (!this.done && (await this.pushNextBlock())) {}], by recursion on
    the grains left.  Once the parser is exhausted the loop makes one more
    call at most: [pushNextBlock] then answers [true] only after the closing
    closure has set [done] (lemma [end_of_input_done]). *)
Fixpoint pushNextLoop (st : Stream) (grains : list Grain) : Stream * Result unit :=
  if done st then (st, Ok tt)
  else
    match pushNextBlock st with
    | (st', Returned (Resolved true)) =>
        match grains with
        | [] => (st', Ok tt)
        | _ :: rest => pushNextLoop st' rest
        end
    | (st', Returned (Resolved false)) => (st', Ok tt)
    | (st', Returned (Rejected e)) => (st', Err e)
    | (st', Thrown e) => (st', Err e)
    end.

Definition pushNextUntilFull (st : Stream) : Stream * Completion (Promise unit) :=
  async (pushNextLoop st (vmdkParser st)).

(** [_read()] *)
Definition _read (st : Stream) : Stream * Completion unit :=
  if busy st || done st then (st, Returned tt)
  else
    match pushFileUntilFull st with
    | (st, Err e) => (st, Thrown e)
    | (st, Ok false) => (st, Returned tt)
    | (st, Ok true) =>
        let st := setBusy st true in
        match pushNextUntilFull st with
        | (st, Returned (Resolved _)) => (setBusy st false, Returned tt)
        | (st, Returned (Rejected e)) =>
            (nextTickEmitError st (ErrorThrown e), Returned tt)
        | (st, Thrown e) => (st, Thrown e)
        end
    end.

(** The consumer asking [n] times for data. *)
Fixpoint reads (n : nat) (st : Stream) : Stream :=
  match n with
  | O => st
  | S k => reads k (fst (_read st))
  end.

(** The bytes handed to the consumer ahead of the last chunk (the footer,
    once the stream has ended). *)
Definition emittedBeforeLast (st : Stream) : Buffer :=
  concat (removelast (omap id (pushed st))).

(** Has [push(null)] ended the stream? *)
Definition ended (st : Stream) : bool :=
  match last (pushed st) with Some None => true | _ => false end.

Section StreamWithCodec.

Context (codec : Codec).

(** [new ReadableRawVHDStream(size, vmdkParser)]; [now] is [Date.now()],
    [answers] the backpressure the consumer will exert. *)
Definition newReadableRawVHDStream (size : Z) (grains : list Grain)
    (now : Z) (answers : list bool) : Stream :=
  let geometry := computeGeometryForSize codec size in
  {| size := size;
     footer := createFooter codec size (now / 1000) geometry
                 HARD_DISK_TYPE_FIXED None;
     position := 0;
     done := false;
     busy := false;
     currentFile := [];
     vmdkParser := grains;
     pushed := [];
     sink := answers;
     nextTicks := [] |}.

End StreamWithCodec.

(** ** Notions used to state further properties *)

(** The byte the extent holds for position [pos] of the virtual disk: the
    byte at [pos mod blockSize] of the data of block [pos / blockSize];
    nothing where no block is allocated. *)
Definition byteAt (se : SparseExtent) (pos : Z) : option byte :=
  match entries (table se) !! (pos / blockSize se) with
  | Some block => dataBuffer block !! Z.to_nat (pos mod blockSize se)
  | None => None
  end.

(** A block as [new Block(blockSize)] sizes it, every sector marked. *)
Definition blockWellSized (blockSize : Z) (b : Block) : Prop :=
  bitmapSize b = blockSize / VHD_SECTOR_SIZE / 8
  ∧ lengthZ (buffer b) = blockBufferSize blockSize
  ∧ bitmapBuffer b = alloc (blockSize / VHD_SECTOR_SIZE / 8) xff.

Definition blocksWellSized (se : SparseExtent) : Prop :=
  ∀ i b, entries (table se) !! i = Some b → blockWellSized (blockSize se) b.

(** What a queued closure yields when called; [f] is the stream's footer. *)
Definition thunkChunk (f : Buffer) (t : Thunk) : option Buffer :=
  match t with
  | ThunkAlloc n => Some (alloc n x00)
  | ThunkFooter => Some f
  | ThunkEnd => None
  | ThunkBuffer b => Some b
  end.

(** The closures [filePadding] appends. *)
Definition padThunks (paddingLength : Z) : list Thunk :=
  if paddingLength =? 0 then []
  else replicate (Z.to_nat (paddingLength / chunkSize)) (ThunkAlloc chunkSize)
       ++ [ThunkAlloc (Z.rem paddingLength chunkSize)].

(** The closures still to be queued from cursor [position] on, for the
    grains still to come: padding and data for each grain, then the padding
    up to [size], the footer and the end. *)
Fixpoint thunksAhead (size position : Z) (grains : list Grain) : list Thunk :=
  match grains with
  | [] => padThunks (size - position) ++ [ThunkFooter; ThunkEnd]
  | g :: rest =>
      padThunks (lbaBytes g - position) ++ [ThunkBuffer (grain g)]
      ++ thunksAhead size (lbaBytes g + lengthZ (grain g)) rest
  end.

(** Grains in ascending order from [position] on, none overlapping the one
    before it, the last ending within [size]. *)
Fixpoint ordered (size position : Z) (grains : list Grain) : Prop :=
  match grains with
  | [] => position ≤ size
  | g :: rest =>
      position ≤ lbaBytes g ∧ ordered size (lbaBytes g + lengthZ (grain g)) rest
  end.

(** The raw image from [position] on: each grain at its offset, zeros in
    between and up to [size]. *)
Fixpoint rawImage (size position : Z) (grains : list Grain) : Buffer :=
  match grains with
  | [] => alloc (size - position) x00
  | g :: rest =>
      alloc (lbaBytes g - position) x00 ++ grain g
      ++ rawImage size (lbaBytes g + lengthZ (grain g)) rest
  end.

(** A closure that can be called: no allocation of a negative size. *)
Definition safeThunk (t : Thunk) : Prop :=
  match t with ThunkAlloc n => 0 ≤ n | _ => True end.

Definition notEnd (t : Thunk) : Prop := t ≠ ThunkEnd.

(** What a drain of the queue leaves alone. *)
Definition sameCore (st st' : Stream) : Prop :=
  size st' = size st ∧ footer st' = footer st ∧ position st' = position st
  ∧ busy st' = busy st ∧ vmdkParser st' = vmdkParser st
  ∧ nextTicks st' = nextTicks st.

(** The states of a conversion of ordered grains, between two calls: [all]
    is the whole sequence of closures of the conversion and [gone] those
    already called, their chunks pushed.  Either grains, or the end of the
    input, are still to come; or the end is queued; or the stream is done. *)
Definition Streaming (b : bool) (f : Buffer) (size0 : Z) (all : list Thunk)
    (st : Stream) : Prop :=
  size st = size0 ∧ footer st = f ∧ busy st = b ∧ nextTicks st = []
  ∧ ∃ gone,
      pushed st = thunkChunk f <$> gone
      ∧ ((done st = false
          ∧ Forall safeThunk (currentFile st) ∧ Forall notEnd (currentFile st)
          ∧ ordered size0 (position st) (vmdkParser st)
          ∧ all = gone ++ currentFile st
                  ++ thunksAhead size0 (position st) (vmdkParser st))
         ∨ (done st = false ∧ vmdkParser st = []
            ∧ ∃ q, currentFile st = q ++ [ThunkEnd]
                   ∧ Forall safeThunk q ∧ Forall notEnd q
                   ∧ all = gone ++ q ++ [ThunkEnd])
         ∨ (done st = true ∧ all = gone)).

(** ** A sample codec

    It serves to run the builder and the converter on concrete inputs; their
    properties are proved for every codec, not for this one. *)
Module Sample.

(** Modelled from the spec: a stand-in for the struct codec of
    [@xen-orchestra/vhd-lib] ([fuFooter], [fuHeader], [checksumStruct],
    [computeGeometryForSize]), which is not among the sources.  Section 3 of
    the spec lists the fields and section 6 the checksum (the one's
    complement of the byte sum, the checksum field taken as zero); widths and
    the geometry computation are those of the VHD format. *)
Fixpoint beBytes (n : nat) (v : Z) : Buffer :=
  match n with
  | O => []
  | S k => byteOfZ (v / 2 ^ (8 * Z.of_nat k)) :: beBytes k v
  end.

Definition ascii (s : string) : Buffer := String.list_byte_of_string s.

Definition padTo (n : Z) (b : Buffer) : Buffer :=
  take (Z.to_nat n) (b ++ alloc (n - lengthZ b) x00).

Definition packFooter (f : FooterFields) : Buffer :=
  padTo 512
    (padTo 8 (ascii (cookie f)) ++ beBytes 4 (features f)
     ++ beBytes 4 (fileFormatVersion f) ++ beBytes 8 (default 0 (dataOffset f))
     ++ beBytes 4 (timestamp f) ++ padTo 4 (ascii (creatorApplication f))
     ++ beBytes 4 0 ++ beBytes 4 (creatorHostOs f)
     ++ beBytes 8 (originalSize f) ++ beBytes 8 (currentSize f)
     ++ beBytes 2 (cylinders (diskGeometry f)) ++ beBytes 1 (heads (diskGeometry f))
     ++ beBytes 1 (sectorsPerTrack (diskGeometry f))
     ++ beBytes 4 (diskType f) ++ beBytes 4 0).

Definition packHeader (h : HeaderFields) : Buffer :=
  padTo 1024
    (padTo 8 (ascii (hCookie h)) ++ padTo 8 (dataOffsetUnused h)
     ++ beBytes 8 (tableOffset h) ++ beBytes 4 (headerVersion h)
     ++ beBytes 4 (maxTableEntries h) ++ beBytes 4 (hBlockSize h)
     ++ beBytes 4 (hChecksum h)).

Definition checksumOffset (kind : Struct) : Z :=
  match kind with FuFooter => 64 | FuHeader => 36 end.

Definition byteSum (b : Buffer) : Z := foldr (λ x acc, ZofByte x + acc) 0 b.

Definition checksum (b : Buffer) (kind : Struct) : Buffer :=
  let zeroed := copyInto (beBytes 4 0) b (checksumOffset kind) in
  copyInto (beBytes 4 (0xFFFFFFFF - byteSum zeroed mod 2 ^ 32)) zeroed
    (checksumOffset kind).

Definition geometry (size : Z) : Geometry :=
  let totalSectors := Z.min (ceilDiv size 512) (65535 * 16 * 255) in
  let '(spt, hd, cth) :=
    if 65535 * 16 * 63 <? totalSectors then (255, 16, totalSectors / 255)
    else
      let spt := 17 in
      let cth := totalSectors / spt in
      let hd := Z.max 4 ((cth + 1023) / 1024) in
      let '(spt, hd, cth) :=
        if (hd * 1024 <=? cth) || (16 <? hd) then (31, 16, totalSectors / 31)
        else (spt, hd, cth) in
      if hd * 1024 <=? cth then (63, 16, totalSectors / 63) else (spt, hd, cth) in
  let cyl := cth / hd in
  {| cylinders := cyl; heads := hd; sectorsPerTrack := spt;
     actualSize := cyl * hd * spt * 512 |}.

Definition codec : Codec :=
  {| fuFooter_pack := packFooter;
     fuFooter_size := 512;
     fuHeader_pack := packHeader;
     checksumStruct := checksum;
     computeGeometryForSize := geometry |}.

(** A file laid out as [newVHDFile] lays it out, with three blocks of 4 KiB
    rather than of 2 MiB, so that its blocks can be written out in full. *)
Definition smallFile : VHDFile :=
  {| geomtry := {| cylinders := 1; heads := 4; sectorsPerTrack := 6;
                   actualSize := 0x3000 |};
     fileTimestamp := 5;
     fileBlockSize := 0x1000;
     sparseFile := newSparseExtent 0x3000 0x1000 (VHD_SECTOR_SIZE * 3) |}.

(** [smallFile] after "hello" was written across the boundary between its
    first two blocks. *)
Definition writtenFile : VHDFile :=
  match fileWriteBuffer smallFile (ascii "hello") 0xFFE with
  | Ok v => v
  | Err _ => smallFile
  end.

(** The grains of the example: ["AA"] at offset 0 and ["BB"] at offset 4. *)
Definition grainsAABB : list Grain :=
  [ {| lbaBytes := 0; grain := ascii "AA" |};
    {| lbaBytes := 4; grain := ascii "BB" |} ].

(** The same two grains, delivered in the wrong order. *)
Definition grainsBBAA : list Grain :=
  [ {| lbaBytes := 4; grain := ascii "BB" |};
    {| lbaBytes := 0; grain := ascii "AA" |} ].

End Sample.

End VhdWrite.

(** * Properties of [merge] *)

Module MergeFacts.
Import Merge.

Section Facts.

Context {W P : Type} (C : Contract W P).

(** ** The code produces only the listed runs *)

Lemma coalesceBlocks_run (cv : Vhd P) (ids : list Z) :
  ∀ (pv : Vhd P) (acc : Z) (w w' : W) (log log' : list (Event P)) r,
    coalesceBlocks C pv cv ids acc (w, log) = ((w', log'), r) →
    ∃ evs, log' = log ++ evs ∧ LoopRun C cv pv ids acc evs r.
Proof.
  induction ids as [|blockId ids IH]; intros pv acc w w' log log' r Hrun; simpl in Hrun.
  - inversion Hrun; subst. exists []. rewrite app_nil_r. split; [reflexivity | constructor].
  - destruct (containsBlock C cv blockId) eqn:Hc.
    + unfold bind, call in Hrun.
      destruct (coalesceBlock C pv cv blockId w) as [w1 [[pv1 n]|e]].
      * apply IH in Hrun as (evs & -> & Hloop).
        exists (EvCoalesceBlock pv cv blockId (Ok (pv1, n)) :: evs).
        split; [by rewrite <- app_assoc | by apply LoopCoalesce].
      * inversion Hrun; subst.
        exists [EvCoalesceBlock pv cv blockId (Err e)].
        split; [reflexivity | by apply LoopFail].
    + apply IH in Hrun as (evs & -> & Hloop).
      exists evs. split; [reflexivity | by apply LoopSkip].
Qed.

Lemma assert_three {A} (a b c : bool) (k : M W P A) (s : W * list (Event P)) :
  bind (assert a) (λ _, bind (assert b) (λ _, bind (assert c) (λ _, k))) s
  = if a && b && c then k s else (s, Err AssertionError).
Proof. by destruct a, b, c. Qed.

Lemma mergeOpened_run (ph : Handler) (pfd : Fd) (ch : Handler) (cfd : Fd)
    (w w' : W) (log log' : list (Event P)) (r : Result Z) :
  mergeOpened C ph pfd ch cfd (w, log) = ((w', log'), r) →
  ∃ evs, log' = log ++ evs ∧ OpenedRun C ph pfd ch cfd evs r.
Proof.
  unfold mergeOpened. intros Hrun.
  unfold bind at 1, all2 at 1, call at 1 2 in Hrun.
  destruct (readHeaderAndFooter C ph pfd w) as [w1 rp].
  destruct (readHeaderAndFooter C ch cfd w1) as [w2 rc].
  destruct rp as [pv|e]; [destruct rc as [cv|e] |];
    try (inversion Hrun; subst; eexists; split;
         [rewrite <- app_assoc; reflexivity | by eapply HeadersFailed]).
  rewrite assert_three in Hrun. fold (validPair pv cv) in Hrun.
  destruct (validPair pv cv) eqn:Hvalid.
  2:{ inversion Hrun; subst; eexists; split;
        [rewrite <- app_assoc; reflexivity | by apply Rejected]. }
  unfold bind at 1, all2 at 1, call at 1 2 in Hrun.
  destruct (readBlockAllocationTable C pv w2) as [w3 rp].
  destruct (readBlockAllocationTable C cv w3) as [w4 rc].
  destruct rp as [pv1|e]; [destruct rc as [cv1|e] |];
    try (inversion Hrun; subst; eexists; split;
         [rewrite <- !app_assoc; reflexivity | by eapply TablesFailed]).
  unfold bind at 1, call at 1 in Hrun.
  destruct (ensureBatSize C pv1 (maxTableEntries (header cv1)) w4) as [w5 [pv2|e]].
  2:{ inversion Hrun; subst; eexists; split;
        [rewrite <- !app_assoc; reflexivity | by apply EnsureFailed]. }
  unfold bind at 1 in Hrun.
  destruct (coalesceBlocks C pv2 cv1 _ 0 _) as [[w6 log6] rl] eqn:Hloop.
  apply coalesceBlocks_run in Hloop as (evs & -> & Hloop).
  destruct rl as [[pv3 n]|e].
  2:{ inversion Hrun; subst; eexists; split;
        [rewrite <- !app_assoc; reflexivity | by eapply LoopFailed]. }
  unfold bind, call, ret in Hrun.
  destruct (writeFooter C _ w6) as [w7 rw].
  eexists; split.
  { destruct rw; inversion Hrun; subst; rewrite <- !app_assoc; reflexivity. }
  replace r with (match rw with Ok _ => @Ok Z n | Err e => Err e end)
    by (destruct rw; inversion Hrun; reflexivity).
  by eapply Written.
Qed.

Lemma merge_run (ph : Handler) (pp : Path) (ch : Handler) (cp : Path) (w : W) :
  MergeRun C ph pp ch cp (logOf (runMerge C ph pp ch cp w))
    (resultOf (runMerge C ph pp ch cp w)).
Proof.
  destruct (runMerge C ph pp ch cp w) as [[w' log'] r] eqn:Hrun.
  unfold logOf, resultOf; simpl.
  unfold runMerge, merge in Hrun.
  unfold bind at 1, call at 1 in Hrun.
  destruct (openFile C ph pp "r+" w) as [w1 [pfd|e]].
  2:{ inversion Hrun; subst. apply ParentNotOpened. }
  unfold tryFinally at 1, bind at 1, call at 1 in Hrun.
  destruct (openFile C ch cp "r" w1) as [w2 [cfd|e]].
  2:{ unfold call in Hrun. destruct (closeFile C ph pfd w2) as [w3 rcp].
      replace r with (afterCleanup (@Err Z e) rcp)
        by (destruct rcp as [[]|]; inversion Hrun; reflexivity).
      replace log' with
        [EvOpenFile ph pp "r+" (Ok pfd); EvOpenFile ch cp "r" (Err e);
         EvCloseFile (P:=P) ph pfd rcp]
        by (destruct rcp as [[]|]; inversion Hrun; reflexivity).
      apply ChildNotOpened. }
  unfold tryFinally in Hrun.
  destruct (mergeOpened C ph pfd ch cfd _) as [[w3 log3] ro] eqn:Hopened.
  apply mergeOpened_run in Hopened as (evs & -> & Hopened).
  unfold call in Hrun.
  destruct (closeFile C ch cfd w3) as [w4 rcc].
  assert (Hshape : ∃ rcp,
    r = afterCleanup (afterCleanup ro rcc) rcp
    ∧ log' = [EvOpenFile ph pp "r+" (Ok pfd); EvOpenFile ch cp "r" (Ok cfd)] ++ evs
             ++ [EvCloseFile (P:=P) ch cfd rcc; EvCloseFile ph pfd rcp]).
  { destruct rcc as [[]|ec]; destruct (closeFile C ph pfd w4) as [w5 rcp];
      exists rcp; destruct rcp as [[]|]; inversion Hrun; subst;
      simpl; rewrite <- ?app_assoc; split; reflexivity. }
  destruct Hshape as (rcp & -> & ->).
  by apply BothOpened.
Qed.

(** ** What the loop logs *)

Lemma loop_only_coalesces cv pv ids acc evs r :
  LoopRun C cv pv ids acc evs r → Forall (λ ev, isCoalesce ev = true) evs.
Proof. induction 1; repeat constructor; auto. Qed.

Lemma coalesce_only_projections (evs : list (Event P)) :
  Forall (λ ev, isCoalesce ev = true) evs →
  opened evs = [] ∧ closed evs = [] ∧ headersRead evs = []
  ∧ tablesRead evs = [] ∧ footersWritten evs = []
  ∧ Forall (λ ev, mutates ev = true) evs.
Proof.
  induction 1 as [|ev evs Hev _ IH]; [by repeat split |].
  destruct ev; try discriminate.
  destruct IH as (? & ? & ? & ? & ? & ?). repeat split; auto.
Qed.

Lemma coalesceCalls_cons (p c : Vhd P) i r (evs : list (Event P)) :
  coalesceCalls (EvCoalesceBlock p c i r :: evs) = (c, i) :: coalesceCalls evs.
Proof. reflexivity. Qed.

Lemma reportedBytes_cons (p c p' : Vhd P) i n (evs : list (Event P)) :
  reportedBytes (EvCoalesceBlock p c i (Ok (p', n)) :: evs) = n :: reportedBytes evs.
Proof. reflexivity. Qed.

Lemma loop_completed cv pv ids acc evs pv' n :
  LoopRun C cv pv ids acc evs (Ok (pv', n)) →
  coalesceCalls evs
    = (λ i, (cv, i)) <$> filter (λ i, containsBlock C cv i = true) ids
  ∧ n = acc + sumZ (reportedBytes evs)
  ∧ length (reportedBytes evs) = length (coalesceCalls evs)
  ∧ Forall (λ ev, succeeded ev = true) evs.
Proof.
  remember (Ok (pv', n)) as r eqn:Hr. intros Hrun. revert Hr.
  induction Hrun as [pv acc|pv i ids acc evs r Hc _ IH
                     |pv i ids acc pv1 m evs r Hc _ IH|pv i ids acc e Hc];
    intros Hr.
  - inversion Hr; subst. simpl. repeat split; [lia | constructor].
  - rewrite filter_cons_False by congruence. auto.
  - rewrite filter_cons_True by done.
    destruct (IH Hr) as (Hcalls & Hsum & Hlen & Hok).
    rewrite coalesceCalls_cons, reportedBytes_cons, Hcalls. simpl.
    rewrite Hlen, Hcalls. repeat split; [lia | by constructor].
  - discriminate.
Qed.

Lemma loop_failed cv pv ids acc evs e :
  LoopRun C cv pv ids acc evs (Err e) → Exists (λ ev, succeeded ev = false) evs.
Proof.
  remember (Err e) as r eqn:Hr. intros Hrun. revert Hr.
  induction Hrun; intros Hr; try discriminate; auto.
Qed.

Lemma loop_keeps_footer cv pv ids acc evs pv' n :
  LoopRun C cv pv ids acc evs (Ok (pv', n)) →
  Forall keepsFooter evs → footer pv' = footer pv.
Proof.
  remember (Ok (pv', n)) as r eqn:Hr. intros Hrun. revert Hr.
  induction Hrun as [pv acc|pv i ids acc evs r Hc _ IH
                     |pv i ids acc pv1 m evs r Hc _ IH|pv i ids acc e Hc];
    intros Hr Hkeep.
  - by inversion Hr.
  - auto.
  - apply Forall_cons in Hkeep as [Hhd Htl]. simpl in Hhd.
    rewrite (IH Hr Htl). exact Hhd.
  - discriminate.
Qed.

Lemma loop_threads cv pv ids acc evs pv' n :
  LoopRun C cv pv ids acc evs (Ok (pv', n)) →
  threads pv (coalesceSteps evs) pv'
  ∧ length (coalesceSteps evs) = length evs.
Proof.
  remember (Ok (pv', n)) as r eqn:Hr. intros Hrun. revert Hr.
  induction Hrun as [pv acc|pv i ids acc evs r Hc _ IH
                     |pv i ids acc pv1 m evs r Hc _ IH|pv i ids acc e Hc];
    intros Hr.
  - inversion Hr; subst. by split.
  - auto.
  - destruct (IH Hr) as [Hth Hlen]. simpl. split; [by split | by rewrite Hlen].
  - discriminate.
Qed.

Lemma sumZ_nil_of_no_blocks (cv : Vhd P) (ids : list Z) :
  (∀ i, containsBlock C cv i = false) →
  filter (λ i, containsBlock C cv i = true) ids = [].
Proof.
  intros Hnone. induction ids as [|i ids IH]; [done |].
  rewrite filter_cons_False; [done | by rewrite Hnone].
Qed.

Lemma both_failed {A B} (ra : Result A) (rb : Result B) e :
  both ra rb = Err e → isOk ra = false ∨ isOk rb = false.
Proof. destruct ra, rb; simpl; intros; auto; discriminate. Qed.

(** ** The claims *)

(** C1.  In a [merge] call whose preconditions hold and in which no
    collaborator call fails, [coalesceBlock] is called, with the child as
    source, exactly on the indices of [0 .. maxTableEntries - 1] that the
    child contains, in ascending order, and on no other index; the call
    returns the sum of the byte counts these calls reported, which is 0 when
    the child contains no block.  Every one of these calls is made on the
    parent: on the wrapper read from the file opened at the parent's path,
    as its table read, [ensureBatSize] and the calls before it left it. *)
Theorem merge_coalesces_child_blocks
    (ph : Handler) (pp : Path) (ch : Handler) (cp : Path) (w : W) :
  let log := logOf (runMerge C ph pp ch cp w) in
  (∃ pv cv, headersRead log = [Ok pv; Ok cv] ∧ validPair pv cv = true) →
  Forall (λ ev, succeeded ev = true) log →
  ∃ n pv cv,
    resultOf (runMerge C ph pp ch cp w) = Ok n
    ∧ tablesRead log = [Ok pv; Ok cv]
    ∧ coalesceCalls log
      = (λ i, (cv, i)) <$> filter (λ i, containsBlock C cv i = true)
                                  (seqZ 0 (maxTableEntries (header cv)))
    ∧ length (reportedBytes log) = length (coalesceCalls log)
    ∧ n = sumZ (reportedBytes log)
    ∧ ((∀ i, containsBlock C cv i = false) → n = 0)
    ∧ ∃ pfd cfd pv0 cv0 pv2 pv3 loop rest,
        log = [EvOpenFile ph pp "r+" (Ok pfd); EvOpenFile ch cp "r" (Ok cfd);
               EvReadHeaderAndFooter ph pfd (Ok pv0);
               EvReadHeaderAndFooter ch cfd (Ok cv0);
               EvReadBlockAllocationTable pv0 (Ok pv);
               EvReadBlockAllocationTable cv0 (Ok cv);
               EvEnsureBatSize pv (maxTableEntries (header cv)) (Ok pv2)]
              ++ loop ++ rest
        ∧ Forall (λ ev, isCoalesce ev = true) loop
        ∧ Forall (λ ev, isCoalesce ev = false) rest
        ∧ threads pv2 (coalesceSteps loop) pv3
        ∧ length (coalesceSteps loop) = length loop.
Proof.
  intros log (pv0 & cv0 & Hread & Hvalid) Hok. subst log.
  pose proof (merge_run ph pp ch cp w) as Hrun.
  destruct (runMerge C ph pp ch cp w) as [[w' log] r].
  unfold logOf, resultOf in *; simpl in *.
  inversion Hrun as [e Hl Hr|pfd e rcp Hl Hr|pfd cfd evs ro rcc rcp Hopened Hl Hr];
    subst; try discriminate.
  apply Forall_cons in Hok as [_ Hok]. apply Forall_cons in Hok as [_ Hok].
  apply Forall_app in Hok as [Hevs Hclose].
  apply Forall_cons in Hclose as [Hcc Hclose].
  apply Forall_cons in Hclose as [Hcp _]. simpl in Hcc, Hcp.
  destruct rcc as [[]|]; [|discriminate]. destruct rcp as [[]|]; [|discriminate].
  simpl.
  unfold headersRead in Hread. simpl in Hread. rewrite omap_app in Hread.
  simpl in Hread. rewrite app_nil_r in Hread.
  inversion Hopened
    as [rp rc e Hboth|pv cv Hv|pv cv rp rc e Hv Hboth|pv cv pv1 cv1 e Hv
        |pv cv pv1 cv1 pv2 lev e Hv Hloop|pv cv pv1 cv1 pv2 lev pv3 n rw Hv Hloop];
    subst; simpl in Hread.
  - apply both_failed in Hboth.
    apply Forall_cons in Hevs as [H1 Hevs]. apply Forall_cons in Hevs as [H2 _].
    simpl in *. destruct Hboth; congruence.
  - inversion Hread; subst. congruence.
  - apply both_failed in Hboth.
    do 2 apply Forall_cons in Hevs as [_ Hevs].
    apply Forall_cons in Hevs as [H1 Hevs]. apply Forall_cons in Hevs as [H2 _].
    simpl in *. destruct Hboth; congruence.
  - do 4 apply Forall_cons in Hevs as [_ Hevs].
    apply Forall_cons in Hevs as [H1 _]. discriminate.
  - apply loop_failed in Hloop.
    do 5 apply Forall_cons in Hevs as [_ Hevs].
    apply Exists_exists in Hloop as (ev & Hin & Hfail).
    rewrite Forall_forall in Hevs. specialize (Hevs ev Hin). congruence.
  - pose proof (loop_only_coalesces _ _ _ _ _ _ Hloop) as Honly.
    pose proof (loop_threads _ _ _ _ _ _ _ Hloop) as [Hthreads Hsteps].
    pose proof Honly as Hproj.
    apply coalesce_only_projections in Hproj as (_ & _ & _ & Htab & _ & _).
    apply loop_completed in Hloop as (Hcalls & Hsum & Hlen & _).
    do 5 apply Forall_cons in Hevs as [_ Hevs].
    apply Forall_app in Hevs as [_ Hw]. apply Forall_cons in Hw as [Hw _].
    destruct rw as [pv4|]; [|discriminate].
    exists n, pv1, cv1.
    assert (Hchain : ∃ pfd0 cfd0 pv0' cv0' pv2' pv3' loop rest,
      [EvOpenFile ph pp "r+" (Ok pfd); EvOpenFile ch cp "r" (Ok cfd)]
      ++ ([EvReadHeaderAndFooter ph pfd (Ok pv); EvReadHeaderAndFooter ch cfd (Ok cv);
           EvReadBlockAllocationTable pv (Ok pv1);
           EvReadBlockAllocationTable cv (Ok cv1);
           EvEnsureBatSize pv1 (maxTableEntries (header cv1)) (Ok pv2)] ++ lev
          ++ [EvWriteFooter (withFooter pv3 (adoptFooter (footer pv3) (footer cv1)))
                (Ok pv4)])
      ++ [EvCloseFile ch cfd (Ok tt); EvCloseFile ph pfd (Ok tt)]
      = [EvOpenFile ph pp "r+" (Ok pfd0); EvOpenFile ch cp "r" (Ok cfd0);
         EvReadHeaderAndFooter ph pfd0 (Ok pv0');
         EvReadHeaderAndFooter ch cfd0 (Ok cv0');
         EvReadBlockAllocationTable pv0' (Ok pv1);
         EvReadBlockAllocationTable cv0' (Ok cv1);
         EvEnsureBatSize pv1 (maxTableEntries (header cv1)) (Ok pv2')]
        ++ loop ++ rest
      ∧ Forall (λ ev, isCoalesce ev = true) loop
      ∧ Forall (λ ev, isCoalesce ev = false) rest
      ∧ threads pv2' (coalesceSteps loop) pv3'
      ∧ length (coalesceSteps loop) = length loop).
    { exists pfd, cfd, pv, cv, pv2, pv3, lev.
      exists [EvWriteFooter (withFooter pv3 (adoptFooter (footer pv3) (footer cv1)))
                (Ok pv4);
              EvCloseFile ch cfd (Ok tt); EvCloseFile ph pfd (Ok tt)].
      split; [by rewrite <- !app_assoc |]. split; [exact Honly |].
      split; [by repeat constructor |]. by split. }
    unfold tablesRead, coalesceCalls, reportedBytes in *.
    simpl. rewrite ?omap_app. simpl.
    rewrite !app_nil_r. rewrite Htab.
    repeat split; try done.
    intros Hnone. rewrite (sumZ_nil_of_no_blocks cv1 _ Hnone) in Hcalls.
    simpl in Hcalls. rewrite Hcalls in Hlen. simpl in Hlen.
    apply nil_length_inv in Hlen. rewrite Hsum, Hlen. reflexivity.
Qed.

Lemma opened_run_no_files ph pfd ch cfd evs r :
  OpenedRun C ph pfd ch cfd evs r → opened evs = [] ∧ closed evs = [].
Proof.
  inversion 1 as [| | | |pv cv pv1 cv1 pv2 lev e Hv Hloop
                  |pv cv pv1 cv1 pv2 lev pv3 n rw Hv Hloop]; subst;
    try (split; reflexivity);
    apply loop_only_coalesces, coalesce_only_projections in Hloop
      as (Ho & Hc & _);
    unfold opened, closed in *; rewrite ?omap_app, Ho, Hc; done.
Qed.

Lemma invalid_pair (pv cv : Vhd P) :
  blockSize (header cv) ≠ blockSize (header pv)
  ∨ (diskType (footer pv) ≠ DISK_TYPE_DIFFERENCING
     ∧ diskType (footer pv) ≠ DISK_TYPE_DYNAMIC)
  ∨ diskType (footer cv) ≠ DISK_TYPE_DIFFERENCING →
  validPair pv cv = false.
Proof.
  unfold validPair. intros [Hb|[[Hp1 Hp2]|Hc]].
  - apply Z.eqb_neq in Hb. by rewrite Hb.
  - apply Z.eqb_neq in Hp1, Hp2. rewrite Hp1, Hp2. by rewrite andb_false_r.
  - apply Z.eqb_neq in Hc. rewrite Hc. by rewrite andb_false_r.
Qed.

(** C6.  When the headers read show a child block size different from the
    parent's, a parent that is neither differencing nor dynamic, or a child
    that is not differencing, [merge] fails, and it has called none of
    [ensureBatSize], [coalesceBlock] and [writeFooter]; the failure is the
    assertion's unless closing a file fails too. *)
Theorem merge_rejects_before_mutation
    (ph : Handler) (pp : Path) (ch : Handler) (cp : Path) (w : W)
    (pv cv : Vhd P) :
  let log := logOf (runMerge C ph pp ch cp w) in
  headersRead log = [Ok pv; Ok cv] →
  blockSize (header cv) ≠ blockSize (header pv)
  ∨ (diskType (footer pv) ≠ DISK_TYPE_DIFFERENCING
     ∧ diskType (footer pv) ≠ DISK_TYPE_DYNAMIC)
  ∨ diskType (footer cv) ≠ DISK_TYPE_DIFFERENCING →
  (∃ e, resultOf (runMerge C ph pp ch cp w) = Err e)
  ∧ Forall (λ ev, mutates ev = false) log
  ∧ (Forall (λ ev, succeeded ev = true) log →
     resultOf (runMerge C ph pp ch cp w) = Err AssertionError).
Proof.
  intros log Hread Hbad. subst log. apply invalid_pair in Hbad.
  pose proof (merge_run ph pp ch cp w) as Hrun.
  destruct (runMerge C ph pp ch cp w) as [[w' log] r].
  unfold logOf, resultOf in *; simpl in *.
  inversion Hrun as [e Hl Hr|pfd e rcp Hl Hr|pfd cfd evs ro rcc rcp Hopened Hl Hr];
    subst; try discriminate.
  unfold headersRead in Hread. simpl in Hread. rewrite omap_app in Hread.
  simpl in Hread. rewrite app_nil_r in Hread.
  inversion Hopened
    as [rp rc e Hboth|pv' cv' Hv|pv' cv' rp rc e Hv Hboth|pv' cv' pv1 cv1 e Hv
        |pv' cv' pv1 cv1 pv2 lev e Hv Hloop
        |pv' cv' pv1 cv1 pv2 lev pv3 n rw Hv Hloop];
    subst; simpl in Hread;
    try (inversion Hread; subst; congruence).
  - inversion Hread; subst. simpl in Hboth. discriminate.
  - split; [|split].
    + destruct rcc as [[]|], rcp as [[]|]; simpl; eauto.
    + repeat constructor.
    + intros Hok. simpl in Hok.
      do 4 apply Forall_cons in Hok as [_ Hok].
      apply Forall_cons in Hok as [Hcc Hok]. apply Forall_cons in Hok as [Hcp _].
      simpl in Hcc, Hcp.
      destruct rcc as [[]|]; [|discriminate]. destruct rcp as [[]|]; [|discriminate].
      reflexivity.
Qed.

(** C7.  After a successful [merge] in which the collaborator left the
    wrappers' footer fields alone, [writeFooter] was called once, as the last
    call before the files are closed, and resolved.  It was called on the
    parent: on the wrapper read from the file opened at the parent's path,
    as its table read, [ensureBatSize] and the [coalesceBlock] calls left
    it, with nothing but its footer reassigned.  That footer has the child's
    [currentSize], [diskGeometry], [originalSize], [timestamp] and [uuid] as
    they were read at the start, and the parent's own value, as read, in
    every other field. *)
Theorem merge_adopts_child_footer
    (ph : Handler) (pp : Path) (ch : Handler) (cp : Path) (w : W) (n : Z) :
  let log := logOf (runMerge C ph pp ch cp w) in
  resultOf (runMerge C ph pp ch cp w) = Ok n →
  Forall keepsFooter log →
  ∃ pv cv written written' before pfd cfd,
    headersRead log = [Ok pv; Ok cv]
    ∧ log = before ++ [EvWriteFooter written (Ok written');
                       EvCloseFile ch cfd (Ok tt); EvCloseFile ph pfd (Ok tt)]
    ∧ footersWritten log = [written]
    ∧ (∃ pv1 cv1 pv2 pv3 loop,
         before
         = [EvOpenFile ph pp "r+" (Ok pfd); EvOpenFile ch cp "r" (Ok cfd);
            EvReadHeaderAndFooter ph pfd (Ok pv);
            EvReadHeaderAndFooter ch cfd (Ok cv);
            EvReadBlockAllocationTable pv (Ok pv1);
            EvReadBlockAllocationTable cv (Ok cv1);
            EvEnsureBatSize pv1 (maxTableEntries (header cv1)) (Ok pv2)] ++ loop
         ∧ Forall (λ ev, isCoalesce ev = true) loop
         ∧ threads pv2 (coalesceSteps loop) pv3
         ∧ length (coalesceSteps loop) = length loop
         ∧ written = withFooter pv3 (adoptFooter (footer pv) (footer cv)))
    ∧ currentSize (footer written) = currentSize (footer cv)
    ∧ diskGeometry (footer written) = diskGeometry (footer cv)
    ∧ originalSize (footer written) = originalSize (footer cv)
    ∧ timestamp (footer written) = timestamp (footer cv)
    ∧ uuid (footer written) = uuid (footer cv)
    ∧ cookie (footer written) = cookie (footer pv)
    ∧ features (footer written) = features (footer pv)
    ∧ fileFormatVersion (footer written) = fileFormatVersion (footer pv)
    ∧ dataOffset (footer written) = dataOffset (footer pv)
    ∧ creatorApplication (footer written) = creatorApplication (footer pv)
    ∧ creatorHostOs (footer written) = creatorHostOs (footer pv)
    ∧ diskType (footer written) = diskType (footer pv)
    ∧ checksum (footer written) = checksum (footer pv).
Proof.
  intros log Hres Hkeep. subst log.
  pose proof (merge_run ph pp ch cp w) as Hrun.
  destruct (runMerge C ph pp ch cp w) as [[w' log] r].
  unfold logOf, resultOf in *; simpl in *. subst r.
  inversion Hrun as [e Hl Hr|pfd e rcp Hl Hr|pfd cfd evs ro rcc rcp Hopened Hl Hr];
    subst.
  { destruct rcp as [[]|]; discriminate. }
  destruct rcp as [[]|]; [|discriminate]. destruct rcc as [[]|]; [|discriminate].
  simpl in Hr. subst ro.
  do 2 apply Forall_cons in Hkeep as [_ Hkeep].
  apply Forall_app in Hkeep as [Hkeep _].
  inversion Hopened
    as [| | | | |pv cv pv1 cv1 pv2 lev pv3 m rw Hv Hloop Hl Hr]; subst.
  destruct rw as [pv4|]; [|discriminate]. inversion Hr; subst m.
  do 2 apply Forall_cons in Hkeep as [_ Hkeep].
  apply Forall_cons in Hkeep as [Hpt Hkeep]. apply Forall_cons in Hkeep as [Hct Hkeep].
  apply Forall_cons in Hkeep as [Hen Hkeep]. apply Forall_app in Hkeep as [Hlev _].
  simpl in Hpt, Hct, Hen.
  pose proof (loop_keeps_footer _ _ _ _ _ _ _ Hloop Hlev) as Hlf.
  pose proof (loop_threads _ _ _ _ _ _ _ Hloop) as [Hthreads Hsteps].
  pose proof (loop_only_coalesces _ _ _ _ _ _ Hloop) as Honly.
  pose proof Honly as Hcoalesce.
  apply coalesce_only_projections in Honly as (_ & _ & Hhr & _ & Hfw & _).
  exists pv, cv, (withFooter pv3 (adoptFooter (footer pv3) (footer cv1))), pv4.
  exists ([EvOpenFile ph pp "r+" (Ok pfd); EvOpenFile ch cp "r" (Ok cfd);
           EvReadHeaderAndFooter ph pfd (Ok pv); EvReadHeaderAndFooter ch cfd (Ok cv);
           EvReadBlockAllocationTable pv (Ok pv1);
           EvReadBlockAllocationTable cv (Ok cv1);
           EvEnsureBatSize pv1 (maxTableEntries (header cv1)) (Ok pv2)] ++ lev),
         pfd, cfd.
  split; [|split; [|split; [|split]]].
  - unfold headersRead in *. rewrite !omap_app, Hhr. reflexivity.
  - rewrite <- !app_assoc. reflexivity.
  - unfold footersWritten in *. rewrite !omap_app, Hfw. reflexivity.
  - exists pv1, cv1, pv2, pv3, lev.
    split; [reflexivity |]. split; [exact Hcoalesce |].
    split; [exact Hthreads |]. split; [exact Hsteps |].
    by rewrite Hlf, Hen, Hpt, Hct.
  - simpl. rewrite Hlf, Hen, Hpt, Hct.
    destruct (diskGeometry (footer cv)). repeat split; reflexivity.
Qed.

(** C8.  On every exit path of [merge], whatever the collaborator calls
    return, [closeFile] is called on each descriptor that [openFile]
    delivered, once, in the reverse order of the openings, and these calls
    are the last ones [merge] makes. *)
Theorem merge_closes_opened_files
    (ph : Handler) (pp : Path) (ch : Handler) (cp : Path) (w : W) :
  closed (logOf (runMerge C ph pp ch cp w))
    = rev (opened (logOf (runMerge C ph pp ch cp w)))
  ∧ ∃ body closes,
      logOf (runMerge C ph pp ch cp w) = body ++ closes
      ∧ closed body = []
      ∧ Forall (λ ev, isClose ev = true) closes.
Proof.
  pose proof (merge_run ph pp ch cp w) as Hrun.
  destruct (runMerge C ph pp ch cp w) as [[w' log] r].
  unfold logOf, resultOf in *; simpl in *.
  inversion Hrun as [e Hl Hr|pfd e rcp Hl Hr|pfd cfd evs ro rcc rcp Hopened Hl Hr];
    subst.
  - split; [reflexivity |]. exists [EvOpenFile ph pp "r+" (Err e)], [].
    repeat split; constructor.
  - split; [reflexivity |].
    exists [EvOpenFile ph pp "r+" (Ok pfd); EvOpenFile ch cp "r" (Err e)],
           [EvCloseFile ph pfd rcp].
    repeat split; repeat constructor.
  - apply opened_run_no_files in Hopened as [Ho Hc]. split.
    + unfold opened, closed in *. rewrite !omap_app, Ho, Hc. reflexivity.
    + exists ([EvOpenFile ph pp "r+" (Ok pfd); EvOpenFile ch cp "r" (Ok cfd)] ++ evs),
             [EvCloseFile ch cfd rcc; EvCloseFile ph pfd rcp].
      split; [by rewrite <- app_assoc |].
      split; [| repeat constructor].
      unfold closed in *. rewrite omap_app, Hc. reflexivity.
Qed.

End Facts.

(** ** The hypotheses above hold of runs on the sample disks *)

Lemma merge_coalesces_child_blocks_witness :
  let out := Sample.goodRun in
  resultOf out = Ok 0x400000
  ∧ coalesceCalls (logOf out)
    = (λ i, (Sample.withTable
               {| vhdHandler := "local"; vhdFd := 4;
                  footer := Sample.diskFooter Sample.childDisk;
                  header := Sample.diskHeader Sample.childDisk; priv := None |}
               (Sample.diskHeader Sample.childDisk)
               (Sample.diskTable Sample.childDisk), i)) <$> [1; 2]
  ∧ (λ step, vhdFd step.1) <$> coalesceSteps (logOf out) = [3; 3]
  ∧ ∃ n pv cv,
      resultOf out = Ok n
      ∧ tablesRead (logOf out) = [Ok pv; Ok cv]
      ∧ coalesceCalls (logOf out)
        = (λ i, (cv, i)) <$> filter (λ i, containsBlock Sample.contract cv i = true)
                                    (seqZ 0 (maxTableEntries (header cv)))
      ∧ length (reportedBytes (logOf out)) = length (coalesceCalls (logOf out))
      ∧ n = sumZ (reportedBytes (logOf out))
      ∧ ((∀ i, containsBlock Sample.contract cv i = false) → n = 0)
      ∧ ∃ pfd cfd pv0 cv0 pv2 pv3 loop rest,
          logOf out
          = [EvOpenFile "local" "parent.vhd" "r+" (Ok pfd);
             EvOpenFile "local" "child.vhd" "r" (Ok cfd);
             EvReadHeaderAndFooter "local" pfd (Ok pv0);
             EvReadHeaderAndFooter "local" cfd (Ok cv0);
             EvReadBlockAllocationTable pv0 (Ok pv);
             EvReadBlockAllocationTable cv0 (Ok cv);
             EvEnsureBatSize pv (maxTableEntries (header cv)) (Ok pv2)]
            ++ loop ++ rest
          ∧ Forall (λ ev, isCoalesce ev = true) loop
          ∧ Forall (λ ev, isCoalesce ev = false) rest
          ∧ threads pv2 (coalesceSteps loop) pv3
          ∧ length (coalesceSteps loop) = length loop.
Proof.
  split; [reflexivity |]. split; [reflexivity |]. split; [reflexivity |].
  apply (merge_coalesces_child_blocks Sample.contract
           "local" "parent.vhd" "local" "child.vhd" Sample.world).
  - eexists _, _. split; reflexivity.
  - vm_compute. repeat constructor.
Defined.

Lemma merge_rejects_before_mutation_witness :
  let log := logOf Sample.badRun in
  headersRead log = [Ok (Sample.wrapper 3 Sample.parentDisk);
                     Ok (Sample.wrapper 4 Sample.dynamicChildDisk)]
  ∧ diskType (Sample.diskFooter Sample.dynamicChildDisk) = DISK_TYPE_DYNAMIC
  ∧ (∃ e, resultOf Sample.badRun = Err e)
  ∧ Forall (λ ev, mutates ev = false) log
  ∧ (Forall (λ ev, succeeded ev = true) log →
     resultOf Sample.badRun = Err AssertionError).
Proof.
  split; [reflexivity |]. split; [reflexivity |].
  apply (merge_rejects_before_mutation Sample.contract
           "local" "parent.vhd" "local" "dynamic.vhd" Sample.world
           (Sample.wrapper 3 Sample.parentDisk)
           (Sample.wrapper 4 Sample.dynamicChildDisk)).
  - reflexivity.
  - right. right. vm_compute. discriminate.
Defined.

Lemma merge_adopts_child_footer_witness :
  let log := logOf Sample.goodRun in
  resultOf Sample.goodRun = Ok 0x400000
  ∧ vhdFd <$> footersWritten log = [3]
  ∧ ∃ pv cv written written' before pfd cfd,
      headersRead log = [Ok pv; Ok cv]
      ∧ log = before ++ [EvWriteFooter written (Ok written');
                         EvCloseFile "local" cfd (Ok tt);
                         EvCloseFile "local" pfd (Ok tt)]
      ∧ footersWritten log = [written]
      ∧ (∃ pv1 cv1 pv2 pv3 loop,
           before
           = [EvOpenFile "local" "parent.vhd" "r+" (Ok pfd);
              EvOpenFile "local" "child.vhd" "r" (Ok cfd);
              EvReadHeaderAndFooter "local" pfd (Ok pv);
              EvReadHeaderAndFooter "local" cfd (Ok cv);
              EvReadBlockAllocationTable pv (Ok pv1);
              EvReadBlockAllocationTable cv (Ok cv1);
              EvEnsureBatSize pv1 (maxTableEntries (header cv1)) (Ok pv2)] ++ loop
           ∧ Forall (λ ev, isCoalesce ev = true) loop
           ∧ threads pv2 (coalesceSteps loop) pv3
           ∧ length (coalesceSteps loop) = length loop
           ∧ written = withFooter pv3 (adoptFooter (footer pv) (footer cv)))
      ∧ currentSize (footer written) = currentSize (footer cv)
      ∧ diskGeometry (footer written) = diskGeometry (footer cv)
      ∧ originalSize (footer written) = originalSize (footer cv)
      ∧ timestamp (footer written) = timestamp (footer cv)
      ∧ uuid (footer written) = uuid (footer cv)
      ∧ cookie (footer written) = cookie (footer pv)
      ∧ features (footer written) = features (footer pv)
      ∧ fileFormatVersion (footer written) = fileFormatVersion (footer pv)
      ∧ dataOffset (footer written) = dataOffset (footer pv)
      ∧ creatorApplication (footer written) = creatorApplication (footer pv)
      ∧ creatorHostOs (footer written) = creatorHostOs (footer pv)
      ∧ diskType (footer written) = diskType (footer pv)
      ∧ checksum (footer written) = checksum (footer pv).
Proof.
  split; [reflexivity |]. split; [reflexivity |].
  apply (merge_adopts_child_footer Sample.contract
           "local" "parent.vhd" "local" "child.vhd" Sample.world 0x400000).
  - reflexivity.
  - vm_compute. repeat constructor.
Defined.

End MergeFacts.

(** * Properties of the sparse image builder and of the converter *)

Module VhdWriteFacts.
Import VhdWrite.

(** ** Buffers *)

Lemma lengthZ_nonneg (b : Buffer) : 0 ≤ lengthZ b.
Proof. unfold lengthZ. lia. Qed.

Lemma slice_nonneg (buf : Buffer) (s e : Z) :
  0 ≤ s → 0 ≤ e →
  slice buf s e = take (Z.to_nat (e - s)) (drop (Z.to_nat s) buf).
Proof.
  intros Hs He. unfold slice, clampIndex, lengthZ.
  destruct (Z.ltb_spec s 0); [lia |]. destruct (Z.ltb_spec e 0); [lia |].
  destruct (Z.le_gt_cases (Z.of_nat (length buf)) s) as [Hge|Hlt].
  - rewrite (Z.min_r s) by lia. rewrite !drop_ge by lia. by rewrite !take_nil.
  - rewrite (Z.min_l s) by lia.
    destruct (Z.le_gt_cases e (Z.of_nat (length buf))).
    + by rewrite (Z.min_l e) by lia.
    + rewrite (Z.min_r e) by lia.
      rewrite !take_ge; [done | |]; rewrite length_drop; lia.
Qed.

Lemma slice_all (buf : Buffer) : slice buf 0 (0 + lengthZ buf) = buf.
Proof.
  rewrite slice_nonneg by (pose proof (lengthZ_nonneg buf); lia).
  unfold lengthZ. simpl. rewrite drop_0. apply take_ge. lia.
Qed.

Lemma length_slice_le (buf : Buffer) (s e : Z) :
  0 ≤ s → 0 ≤ e → lengthZ (slice buf s e) ≤ Z.max 0 (e - s).
Proof.
  intros Hs He. rewrite slice_nonneg by done. unfold lengthZ.
  rewrite length_take. lia.
Qed.

Lemma length_copyInto (source target : Buffer) (ts : Z) :
  length (copyInto source target ts) = length target.
Proof.
  unfold copyInto. rewrite !length_app, !length_take, length_drop. lia.
Qed.

Lemma write_whole (file : File) (buf : Buffer) :
  write file buf 0 (lengthZ buf) = file ++ [buf].
Proof. unfold write. by rewrite slice_all. Qed.

Lemma ceilDiv_ge (a b : Z) : 0 < b → a ≤ ceilDiv a b * b.
Proof. intros Hb. unfold ceilDiv. pose proof (Z.mul_div_le (- a) b Hb). lia. Qed.

Lemma ceilDiv_lt (a b : Z) : 0 < b → (ceilDiv a b - 1) * b < a.
Proof.
  intros Hb. unfold ceilDiv.
  pose proof (Z.mul_succ_div_gt (- a) b Hb). lia.
Qed.

Lemma floorDiv_bounds (a b : Z) : 0 < b → a / b * b ≤ a < (a / b + 1) * b.
Proof.
  intros Hb. pose proof (Z.mul_div_le a b Hb).
  pose proof (Z.mul_succ_div_gt a b Hb). lia.
Qed.

(** ** [writeBuffer] *)


Lemma writeData_ok (b : Block) (buf : Buffer) (o : Z) :
  0 ≤ o → writeData b buf o = Ok (withData b buf o).
Proof. intros Ho. unfold writeData. by destruct (Z.ltb_spec o 0); [lia |]. Qed.

Lemma writeBlock_fits (se : SparseExtent) (b : Buffer) (idx o : Z) :
  0 ≤ o → lengthZ b + o ≤ blockSize se →
  _writeBlock se b idx o
  = Ok (withEntries se
          (<[idx := withData (default (newBlock (blockSize se))
                                (entries (table se) !! idx)) b o]>
             (entries (table se)))).
Proof.
  intros Ho Hfit. unfold _writeBlock.
  destruct (Z.ltb_spec (blockSize se) (lengthZ b + o)); [lia |].
  rewrite writeData_ok by done.
  by destruct (entries (table se) !! idx).
Qed.


Lemma writeBufferAt_ok (se : SparseExtent) (buf : Buffer) (offset i : Z) :
  0 < blockSize se →
  offset < (i + 1) * blockSize se →
  writeBufferAt se buf offset i
  = Ok (withEntries se
          (<[i := withData (default (newBlock (blockSize se))
                               (entries (table se) !! i))
                    (chunkFor (blockSize se) buf offset i)
                    (Z.max 0 (offset - i * blockSize se))]>
             (entries (table se)))).
Proof.
  intros Hbs Hhi. unfold writeBufferAt, chunkFor.
  destruct (Z.ltb_spec 0 (offset - i * blockSize se)) as [Hpos|Hneg].
  - rewrite Z.max_l by lia. rewrite (Z.max_r 0 (offset - _)) by lia.
    rewrite slice_nonneg by lia. rewrite Z.sub_0_r.
    apply writeBlock_fits; [lia |].
    unfold lengthZ. rewrite length_take. lia.
  - rewrite (Z.max_r 0 (i * _ - _)) by lia. rewrite (Z.max_l 0 (offset - _)) by lia.
    rewrite slice_nonneg by lia.
    replace (Z.to_nat (- (offset - i * blockSize se)))
      with (Z.to_nat (i * blockSize se - offset)) by lia.
    replace ((i + 1) * blockSize se - offset - - (offset - i * blockSize se))
      with ((i + 1) * blockSize se - offset - (i * blockSize se - offset)) by lia.
    apply writeBlock_fits; [lia |].
    unfold lengthZ. rewrite length_take. lia.
Qed.

Lemma writeBufferFrom_ok (buf : Buffer) (offset : Z) (ids : list Z) :
  ∀ se : SparseExtent,
    0 < blockSize se →
    (∀ i, i ∈ ids → offset < (i + 1) * blockSize se) →
    NoDup ids →
    ∃ se',
      writeBufferFrom se buf offset ids = Ok se'
      ∧ se' = withEntries se (entries (table se'))
      ∧ (∀ i, i ∈ ids →
           entries (table se') !! i
           = Some (withData (default (newBlock (blockSize se))
                                (entries (table se) !! i))
                     (chunkFor (blockSize se) buf offset i)
                     (Z.max 0 (offset - i * blockSize se))))
      ∧ (∀ i, i ∉ ids → entries (table se') !! i = entries (table se) !! i).
Proof.
  induction ids as [|i ids IH]; intros se Hbs Hhi Hnd; simpl.
  - exists se. repeat split.
    + by destruct se as [[] ? ?].
    + intros i Hi. by apply elem_of_nil in Hi.
  - rewrite writeBufferAt_ok by (auto; apply Hhi; left).
    apply NoDup_cons in Hnd as [Hi Hnd].
    set (se1 := withEntries se _).
    destruct (IH se1) as (se' & Hrun & Hshape & Hin & Hout); auto.
    { intros j Hj. apply Hhi. by right. }
    exists se'. split; [exact Hrun |]. split; [| split].
    + rewrite Hshape. reflexivity.
    + intros j Hj. apply elem_of_cons in Hj as [->|Hj].
      * rewrite (Hout i Hi). subst se1. simpl. by rewrite lookup_insert_eq.
      * rewrite (Hin j Hj). subst se1. simpl.
        rewrite lookup_insert_ne by (intros ->; contradiction). reflexivity.
    + intros j Hj. apply not_elem_of_cons in Hj as [Hne Hj].
      rewrite (Hout j Hj). subst se1. simpl. by rewrite lookup_insert_ne.
Qed.

Lemma newBlock_bitmap (bs : Z) :
  0 < bs → bitmapBuffer (newBlock bs) = alloc (bs / VHD_SECTOR_SIZE / 8) xff.
Proof.
  intros Hbs. unfold bitmapBuffer, newBlock, blockBufferSize. simpl.
  set (bm := bs / VHD_SECTOR_SIZE / 8).
  assert (Hbm : 0 ≤ bm).
  { subst bm. unfold VHD_SECTOR_SIZE. apply Z.div_pos; [|lia].
    apply Z.div_pos; lia. }
  pose proof (ceilDiv_ge (bs + bm) VHD_SECTOR_SIZE) as Hceil.
  unfold VHD_SECTOR_SIZE in Hceil at 1. specialize (Hceil ltac:(lia)).
  set (size := ceilDiv (bs + bm) VHD_SECTOR_SIZE * VHD_SECTOR_SIZE) in *.
  rewrite slice_nonneg by lia. unfold copyInto, alloc. simpl.
  rewrite length_replicate, Nat.sub_0_r.
  rewrite (take_ge (replicate (Z.to_nat bm) xff)) by (rewrite length_replicate; lia).
  change (Z.to_nat 0) with 0%nat. rewrite drop_0.
  rewrite Z.sub_0_r, take_app_length'; [done |].
  by rewrite length_replicate.
Qed.

Lemma writeBuffer_spec (se : SparseExtent) (buf : Buffer) (offset : Z) :
  0 < blockSize se →
  ∃ se',
    writeBuffer se buf offset = Ok se'
    ∧ se' = withEntries se (entries (table se'))
    ∧ (∀ i, startBlockOf se offset ≤ i < endBlockOf se buf offset →
         entries (table se') !! i
         = Some (withData (default (newBlock (blockSize se))
                              (entries (table se) !! i))
                   (chunkFor (blockSize se) buf offset i)
                   (if decide (i = startBlockOf se offset)
                    then offset mod blockSize se else 0)))
    ∧ (∀ i, ¬ (startBlockOf se offset ≤ i < endBlockOf se buf offset) →
         entries (table se') !! i = entries (table se) !! i).
Proof.
  intros Hbs. unfold writeBuffer.
  set (s := startBlockOf se offset). set (e := endBlockOf se buf offset).
  pose proof (floorDiv_bounds offset (blockSize se) Hbs) as Hfloor.
  fold (startBlockOf se offset) in Hfloor. fold s in Hfloor.
  destruct (writeBufferFrom_ok buf offset (seqZ s (e - s)) se Hbs)
    as (se' & Hrun & Hshape & Hin & Hout).
  { intros i Hi. apply elem_of_seqZ in Hi. nia. }
  { apply NoDup_seqZ. }
  exists se'. split; [exact Hrun |]. split; [exact Hshape |]. split.
  - intros i Hi. rewrite Hin by (apply elem_of_seqZ; lia).
    do 2 f_equal. destruct (decide (i = s)) as [->|Hne].
    + rewrite Z.max_r by lia. rewrite Z.mod_eq by lia.
      unfold s, startBlockOf. lia.
    + apply Z.max_l. nia.
  - intros i Hi. apply Hout. rewrite elem_of_seqZ. lia.
Qed.

(** The invariant holds of a new extent and is kept by [writeBuffer]. *)

Lemma lengthZ_alloc (n : Z) (x : byte) : lengthZ (alloc n x) = Z.max 0 n.
Proof. unfold lengthZ, alloc. rewrite length_replicate. lia. Qed.

Lemma read_sentinel (n i : Z) :
  0 ≤ i → i * 4 + 4 ≤ n → readUInt32BE (alloc n xff) (i * 4) = Some 0xFFFFFFFF.
Proof.
  intros Hi Hn. unfold readUInt32BE, alloc.
  rewrite !lookup_replicate_2 by lia. reflexivity.
Qed.

Lemma wf_newSparseExtent (dataSize bs start : Z) :
  0 ≤ start → wfExtent (newSparseExtent dataSize bs start).
Proof.
  intros Hstart. unfold newSparseExtent, createEmptyTable. simpl.
  set (ec := ceilDiv dataSize bs).
  pose proof (ceilDiv_ge (ec * 4) VHD_SECTOR_SIZE ltac:(unfold VHD_SECTOR_SIZE; lia))
    as Hceil.
  constructor; simpl.
  - apply Z.div_pos; [| unfold VHD_SECTOR_SIZE; lia].
    pose proof (lengthZ_nonneg (alloc (ceilDiv (ec * 4) VHD_SECTOR_SIZE
                                       * VHD_SECTOR_SIZE) xff)). lia.
  - rewrite lengthZ_alloc. lia.
  - intros i Hi _. apply read_sentinel; lia.
Qed.

Lemma wf_writeBuffer (se se' : SparseExtent) (buf : Buffer) (offset : Z) :
  0 < blockSize se → wfExtent se → writeBuffer se buf offset = Ok se' →
  wfExtent se'.
Proof.
  intros Hbs [Hstart Hroom Hsent] Hrun.
  destruct (writeBuffer_spec se buf offset Hbs) as (se1 & Hrun1 & Hshape & Hin & Hout).
  rewrite Hrun in Hrun1. inversion Hrun1; subst se1. clear Hrun1.
  rewrite Hshape. constructor; simpl; auto.
  intros i Hi Hnone. apply Hsent; [done |].
  destruct (decide (startBlockOf se offset ≤ i < endBlockOf se buf offset)) as [Hi'|Hi'].
  - rewrite (Hin i Hi') in Hnone. discriminate.
  - by rewrite <- (Hout i Hi').
Qed.

Lemma wf_newVHDFile (codec : Codec) (virtualSize timestamp : Z) :
  wfExtent (sparseFile (newVHDFile codec virtualSize timestamp)).
Proof. apply wf_newSparseExtent. unfold VHD_SECTOR_SIZE. lia. Qed.

Lemma wf_fileWriteBuffer (v v' : VHDFile) (buf : Buffer) (offset : Z) :
  0 < blockSize (sparseFile v) → wfExtent (sparseFile v) →
  fileWriteBuffer v buf offset = Ok v' →
  wfExtent (sparseFile v') ∧ blockSize (sparseFile v') = blockSize (sparseFile v).
Proof.
  intros Hbs Hwf. unfold fileWriteBuffer.
  destruct (writeBuffer (sparseFile v) buf offset) as [se'|e] eqn:Hrun; [| done].
  intros Hv. inversion Hv; subst v'. simpl. split.
  - by eapply wf_writeBuffer.
  - destruct (writeBuffer_spec (sparseFile v) buf offset Hbs)
      as (se1 & Hrun1 & Hshape & _).
    rewrite Hrun in Hrun1. inversion Hrun1; subst se1. by rewrite Hshape.
Qed.



(** ** Big-endian words *)

Lemma ZofByte_byteOfZ (z : Z) : ZofByte (byteOfZ z) = z mod 256.
Proof.
  unfold ZofByte, byteOfZ.
  pose proof (Z.mod_pos_bound z 256 ltac:(lia)) as Hmod.
  destruct (Byte.of_N (Z.to_N (z mod 256))) as [y|] eqn:Hy; simpl.
  - apply Byte.to_of_N in Hy. rewrite Hy. lia.
  - apply Byte.of_N_None_iff in Hy. lia.
Qed.

Lemma be32_value (v : Z) :
  0 ≤ v ≤ 0xFFFFFFFF →
  (v / 2 ^ 24) mod 256 * 2 ^ 24 + (v / 2 ^ 16) mod 256 * 2 ^ 16
  + (v / 2 ^ 8) mod 256 * 2 ^ 8 + v mod 256 = v.
Proof.
  intros Hv. change (2 ^ 24) with 16777216. change (2 ^ 16) with 65536.
  change (2 ^ 8) with 256. Z.div_mod_to_equations. lia.
Qed.

Lemma lookup_copyInto (source target : Buffer) (ts : Z) (k : nat) :
  0 ≤ ts → (Z.to_nat ts + length source ≤ length target)%nat →
  copyInto source target ts !! k
  = if decide (Z.to_nat ts ≤ k < Z.to_nat ts + length source)%nat
    then source !! (k - Z.to_nat ts)%nat else target !! k.
Proof.
  intros Hts Hfit. unfold copyInto.
  rewrite (take_ge source) by lia.
  destruct (decide (Z.to_nat ts ≤ k < Z.to_nat ts + length source)%nat) as [Hin|Hout].
  - rewrite lookup_app_r by (rewrite length_take; lia).
    rewrite length_take, Nat.min_l by lia.
    rewrite lookup_app_l by lia. reflexivity.
  - destruct (decide (k < Z.to_nat ts)%nat).
    + rewrite lookup_app_l by (rewrite length_take; lia).
      by rewrite lookup_take_lt.
    + rewrite lookup_app_r by (rewrite length_take; lia).
      rewrite length_take, Nat.min_l by lia.
      rewrite lookup_app_r by lia. rewrite lookup_drop. f_equal. lia.
Qed.

Lemma read_written (buf : Buffer) (v off : Z) :
  0 ≤ v ≤ 0xFFFFFFFF → 0 ≤ off → off + 4 ≤ lengthZ buf →
  readUInt32BE (copyInto (be32 v) buf off) off = Some v.
Proof.
  intros Hv Hoff Hroom. unfold lengthZ in Hroom. unfold readUInt32BE.
  rewrite !lookup_copyInto by (simpl; lia). simpl length.
  repeat (destruct (decide _) as [_|Hbad]; [| lia]).
  replace (Z.to_nat off - Z.to_nat off)%nat with 0%nat by lia.
  replace (S (Z.to_nat off) - Z.to_nat off)%nat with 1%nat by lia.
  replace (S (S (Z.to_nat off)) - Z.to_nat off)%nat with 2%nat by lia.
  replace (S (S (S (Z.to_nat off))) - Z.to_nat off)%nat with 3%nat by lia.
  simpl. rewrite !ZofByte_byteOfZ. f_equal. by apply be32_value.
Qed.

Lemma read_elsewhere (buf : Buffer) (v off off' : Z) :
  0 ≤ off → off + 4 ≤ lengthZ buf → 0 ≤ off' →
  off' + 4 ≤ off ∨ off + 4 ≤ off' →
  readUInt32BE (copyInto (be32 v) buf off) off' = readUInt32BE buf off'.
Proof.
  intros Hoff Hroom Hoff' Hapart. unfold lengthZ in Hroom. unfold readUInt32BE.
  rewrite !lookup_copyInto by (simpl; lia). simpl length.
  repeat (destruct (decide _) as [Hbad|_]; [lia |]). reflexivity.
Qed.

(** ** Blocks *)

Lemma blockBufferSize_room (bs : Z) :
  0 < bs → bs + bs / VHD_SECTOR_SIZE / 8 ≤ blockBufferSize bs
           ∧ 0 ≤ bs / VHD_SECTOR_SIZE / 8.
Proof.
  intros Hbs. unfold blockBufferSize. split.
  - apply ceilDiv_ge. unfold VHD_SECTOR_SIZE. lia.
  - unfold VHD_SECTOR_SIZE. apply Z.div_pos; [| lia]. apply Z.div_pos; lia.
Qed.

Lemma newBlock_wellSized (bs : Z) : 0 < bs → blockWellSized bs (newBlock bs).
Proof.
  intros Hbs. destruct (blockBufferSize_room bs Hbs) as [Hroom Hbm].
  split; [reflexivity |]. split; [| by apply newBlock_bitmap].
  unfold newBlock, lengthZ. simpl. rewrite length_copyInto.
  fold (lengthZ (alloc (blockBufferSize bs) x00)). rewrite lengthZ_alloc. lia.
Qed.

Lemma withData_wellSized (bs : Z) (b : Block) (chunk : Buffer) (o : Z) :
  0 < bs → 0 ≤ o → blockWellSized bs b → blockWellSized bs (withData b chunk o).
Proof.
  intros Hbs Ho (Hbm & Hlen & Hbits).
  destruct (blockBufferSize_room bs Hbs) as [Hroom Hbm0].
  split; [exact Hbm |]. split.
  - unfold withData, lengthZ in *. simpl. by rewrite length_copyInto.
  - rewrite <- Hbits. unfold bitmapBuffer, withData. simpl.
    rewrite !slice_nonneg by lia. rewrite Z.sub_0_r.
    change (Z.to_nat 0) with 0%nat. rewrite !drop_0.
    unfold copyInto. unfold lengthZ in Hlen.
    rewrite take_app_le by (rewrite length_take; lia).
    rewrite take_take. f_equal. lia.
Qed.

(** ** What a block holds after a write *)

Lemma dataBuffer_drop (bs : Z) (b : Block) :
  0 < bs → blockWellSized bs b →
  dataBuffer b = drop (Z.to_nat (bitmapSize b)) (buffer b).
Proof.
  intros Hbs (Hbm & Hlen & _).
  destruct (blockBufferSize_room bs Hbs) as [Hroom Hbm0].
  unfold dataBuffer. rewrite slice_nonneg by lia.
  apply take_ge. rewrite length_drop. unfold lengthZ. lia.
Qed.

Lemma dataBuffer_withData (bs : Z) (b : Block) (chunk : Buffer) (o : Z) (k : nat) :
  0 < bs → blockWellSized bs b → 0 ≤ o → o + lengthZ chunk ≤ bs →
  dataBuffer (withData b chunk o) !! k
  = if decide (Z.to_nat o ≤ k < Z.to_nat o + length chunk)%nat
    then chunk !! (k - Z.to_nat o)%nat else dataBuffer b !! k.
Proof.
  intros Hbs Hwf Ho Hfit.
  pose proof (withData_wellSized bs b chunk o Hbs Ho Hwf) as Hwf'.
  rewrite (dataBuffer_drop bs _ Hbs Hwf'), (dataBuffer_drop bs _ Hbs Hwf).
  destruct Hwf as (Hbm & Hlen & _).
  destruct (blockBufferSize_room bs Hbs) as [Hroom Hbm0].
  unfold lengthZ in *. simpl. rewrite !lookup_drop.
  rewrite lookup_copyInto by lia.
  destruct (decide (Z.to_nat o ≤ k < Z.to_nat o + length chunk)%nat);
    destruct (decide _); try lia; [f_equal; lia | reflexivity].
Qed.

Lemma newBlock_zero (bs : Z) (k : nat) :
  0 < bs → (k < Z.to_nat bs)%nat → dataBuffer (newBlock bs) !! k = Some x00.
Proof.
  intros Hbs Hk.
  rewrite (dataBuffer_drop bs _ Hbs (newBlock_wellSized bs Hbs)).
  destruct (blockBufferSize_room bs Hbs) as [Hroom Hbm0].
  simpl. rewrite lookup_drop.
  rewrite lookup_copyInto; [| lia |].
  2:{ unfold alloc. rewrite !length_replicate. lia. }
  unfold alloc. rewrite length_replicate.
  destruct (decide _); [lia |]. apply lookup_replicate_2. lia.
Qed.

Lemma chunkFor_lookup (bs : Z) (buf : Buffer) (offset i : Z) (j : nat) :
  (Z.of_nat j < (i + 1) * bs - offset - Z.max 0 (i * bs - offset)) →
  chunkFor bs buf offset i !! j
  = buf !! (Z.to_nat (Z.max 0 (i * bs - offset)) + j)%nat.
Proof.
  intros Hj. unfold chunkFor. rewrite lookup_take_lt by lia. apply lookup_drop.
Qed.

Lemma length_chunkFor (bs : Z) (buf : Buffer) (offset i : Z) :
  length (chunkFor bs buf offset i)
  = Nat.min (Z.to_nat ((i + 1) * bs - offset - Z.max 0 (i * bs - offset)))
            (length buf - Z.to_nat (Z.max 0 (i * bs - offset))).
Proof. unfold chunkFor. by rewrite length_take, length_drop. Qed.


(** ** [writeOnFile] *)

Lemma sectorsOf_nonneg (es : gmap Z Block) (ids : list Z) : 0 ≤ sectorsOf es ids.
Proof.
  induction ids as [|i ids IH]; simpl; [lia |].
  destruct (es !! i) as [b|]; [| done].
  pose proof (Z.div_pos (lengthZ (buffer b)) VHD_SECTOR_SIZE
                (lengthZ_nonneg _) ltac:(unfold VHD_SECTOR_SIZE; lia)).
  lia.
Qed.

Lemma sectorsOf_app (es : gmap Z Block) (l1 l2 : list Z) :
  sectorsOf es (l1 ++ l2) = sectorsOf es l1 + sectorsOf es l2.
Proof.
  induction l1 as [|i l1 IH]; simpl; [lia |].
  destruct (es !! i); lia.
Qed.

Lemma stampOffsets_spec (es : gmap Z Block) (ids : list Z) :
  ∀ (buf : Buffer) (cur : Z),
    0 ≤ cur → cur + sectorsOf es ids ≤ 0xFFFFFFFF →
    (∀ i, i ∈ ids → 0 ≤ i ∧ i * 4 + 4 ≤ lengthZ buf) →
    NoDup ids →
    ∃ buf',
      stampOffsets es buf cur ids = Ok (buf', cur + sectorsOf es ids)
      ∧ length buf' = length buf
      ∧ (∀ j, 0 ≤ j → j ∉ ids ∨ es !! j = None →
           readUInt32BE buf' (j * 4) = readUInt32BE buf (j * 4))
      ∧ (∀ pre i post, ids = pre ++ i :: post → is_Some (es !! i) →
           readUInt32BE buf' (i * 4) = Some (cur + sectorsOf es pre)).
Proof.
  induction ids as [|i ids IH]; intros buf cur Hcur Hmax Hroom Hnd.
  - exists buf. simpl. rewrite Z.add_0_r. repeat split; auto.
    intros [|] ? ? ?; discriminate.
  - apply NoDup_cons in Hnd as [Hi Hnd].
    pose proof (sectorsOf_nonneg es ids) as Hrest.
    destruct (Hroom i ltac:(left)) as [Hi0 Hiroom].
    simpl in *. destruct (es !! i) as [block|] eqn:Hblock.
    + pose proof (Z.div_pos (lengthZ (buffer block)) VHD_SECTOR_SIZE
                    (lengthZ_nonneg _) ltac:(unfold VHD_SECTOR_SIZE; lia)) as Hsec.
      unfold writeUInt32BE.
      destruct (Z.leb_spec 0 cur); [| lia].
      destruct (Z.leb_spec cur 0xFFFFFFFF); [| lia].
      destruct (Z.leb_spec 0 (i * 4)); [| lia].
      destruct (Z.leb_spec (i * 4 + 4) (lengthZ buf)); [| lia].
      simpl.
      set (buf1 := copyInto (be32 cur) buf (i * 4)).
      assert (Hlen1 : length buf1 = length buf) by apply length_copyInto.
      destruct (IH buf1 (cur + lengthZ (buffer block) / VHD_SECTOR_SIZE))
        as (buf' & Hrun & Hlen & Hframe & Hstamp); auto; try lia.
      { intros j Hj. unfold lengthZ. rewrite Hlen1. apply Hroom. by right. }
      exists buf'. split; [| split; [| split]].
      * rewrite Hrun. do 2 f_equal. lia.
      * congruence.
      * intros j Hj0 Hj.
        assert (j ≠ i) as Hne.
        { intros ->. destruct Hj as [Hj|Hj]; [| congruence].
          apply Hj. left. }
        rewrite Hframe; auto.
        -- apply read_elsewhere; lia.
        -- destruct Hj as [Hj|Hj]; [left | by right].
           intros Hin. apply Hj. by right.
      * intros pre k post Hids Hk. destruct pre as [|p pre]; simpl in Hids.
        -- inversion Hids; subst. simpl. rewrite Z.add_0_r.
           rewrite Hframe by auto. apply read_written; lia.
        -- inversion Hids; subst. simpl. rewrite Hblock.
           rewrite (Hstamp pre k post eq_refl Hk). f_equal. lia.
    + destruct (IH buf cur) as (buf' & Hrun & Hlen & Hframe & Hstamp); auto.
      { intros j Hj. apply Hroom. by right. }
      exists buf'. split; [exact Hrun |]. split; [exact Hlen |]. split.
      * intros j Hj0 Hj. apply Hframe; auto.
        destruct Hj as [Hj|Hj]; [left | by right].
        intros Hin. apply Hj. by right.
      * intros pre k post Hids Hk. destruct pre as [|p pre]; simpl in Hids.
        -- inversion Hids; subst. rewrite Hblock in Hk. by destruct Hk.
        -- inversion Hids; subst. simpl. rewrite Hblock.
           by apply (Hstamp pre k post).
Qed.

Lemma writeBlocks_spec (es : gmap Z Block) (ids : list Z) :
  ∀ file : File,
    writeBlocks es file ids = file ++ omap (λ i, buffer <$> es !! i) ids.
Proof.
  induction ids as [|i ids IH]; intros file; simpl.
  - by rewrite app_nil_r.
  - destruct (es !! i) as [block|]; simpl.
    + rewrite IH, write_whole, <- app_assoc. reflexivity.
    + apply IH.
Qed.

Lemma writeOnFile_spec (se : SparseExtent) (file : File) :
  wfExtent se →
  cursorAt se (entryCount (table se)) ≤ 0xFFFFFFFF →
  ∃ bat,
    writeOnFile se file
    = (file ++ [bat] ++ allocatedBlocks se, Ok (withTableBuffer se bat))
    ∧ length bat = length (tableBuffer (table se))
    ∧ ∀ i, 0 ≤ i < entryCount (table se) →
        readUInt32BE bat (i * 4)
        = Some (match entries (table se) !! i with
                | Some _ => cursorAt se i
                | None => 0xFFFFFFFF
                end).
Proof.
  intros [Hstart Hroom Hsent] Hmax. unfold writeOnFile, cursorAt in *.
  destruct (stampOffsets_spec (entries (table se)) (seqZ 0 (entryCount (table se)))
              (tableBuffer (table se)) (startOffset se))
    as (bat & Hrun & Hlen & Hframe & Hstamp); auto.
  { intros i Hi. apply elem_of_seqZ in Hi. lia. }
  { apply NoDup_seqZ. }
  exists bat. rewrite Hrun. split; [| split; [exact Hlen |]].
  - rewrite writeBlocks_spec, write_whole, <- app_assoc. reflexivity.
  - intros i Hi. destruct (entries (table se) !! i) as [block|] eqn:Hblock.
    + apply (Hstamp (seqZ 0 i) i (seqZ (i + 1) (entryCount (table se) - i - 1))).
      * replace (entryCount (table se)) with (i + (entryCount (table se) - i)) at 1
          by lia.
        rewrite seqZ_app by lia. f_equal.
        rewrite seqZ_cons by lia. repeat f_equal; lia.
      * rewrite Hblock. eauto.
    + rewrite Hframe by (auto; lia). by apply Hsent.
Qed.

Section BuilderFacts.

Context (codec : Codec).

(** C3.  For a file whose extent is well formed and whose blocks end below
    sector 2^32, [writeFile] succeeds and writes, in this order: the footer,
    the dynamic-disk header, the table, the buffers of the allocated blocks
    in ascending index order, and the footer again, the very same bytes.  In
    the table written, the slot of an allocated block reads back, big-endian,
    as the sector the ascending walk assigns to it (the blocks follow each
    other from [startOffset], each taking its length in sectors), and the
    slot of a block never written reads back as 0xFFFFFFFF. *)
Theorem writeFile_layout (v : VHDFile) :
  wfExtent (sparseFile v) →
  cursorAt (sparseFile v) (entryCount (table (sparseFile v))) ≤ 0xFFFFFFFF →
  ∃ bat,
    writeFile codec v
    = ([fileFooterOf codec v; diskHeaderOf codec v; bat]
         ++ allocatedBlocks (sparseFile v) ++ [fileFooterOf codec v],
       Ok (withSparseFile v (withTableBuffer (sparseFile v) bat)))
    ∧ length bat = length (tableBuffer (table (sparseFile v)))
    ∧ ∀ i, 0 ≤ i < entryCount (table (sparseFile v)) →
        readUInt32BE bat (i * 4)
        = Some (match entries (table (sparseFile v)) !! i with
                | Some _ => cursorAt (sparseFile v) i
                | None => 0xFFFFFFFF
                end).
Proof.
  intros Hwf Hmax. unfold writeFile.
  rewrite !write_whole. simpl.
  destruct (writeOnFile_spec (sparseFile v)
              [fileFooterOf codec v; diskHeaderOf codec v] Hwf Hmax)
    as (bat & Hrun & Hlen & Hread).
  exists bat. rewrite Hrun, write_whole. simpl.
  split; [| split; [exact Hlen | exact Hread]].
  rewrite <- ?app_assoc. reflexivity.
Qed.


End BuilderFacts.

(** ** The streaming converter *)

Lemma drainQueue_ticks (q : list Thunk) :
  ∀ st, nextTicks (fst (drainQueue st q)) = nextTicks st.
Proof.
  induction q as [|t q IH]; intros st; simpl; [done |].
  destruct t as [n| | |b]; simpl.
  - destruct (n <? 0); simpl; [done |].
    destruct (match sink st with [] => true | a :: _ => a end); [| done].
    by rewrite IH.
  - destruct (match sink st with [] => true | a :: _ => a end); [| done].
    by rewrite IH.
  - done.
  - destruct (match sink st with [] => true | a :: _ => a end); [| done].
    by rewrite IH.
Qed.

Lemma filePadding_ticks (st : Stream) (n : Z) :
  nextTicks (filePadding st n) = nextTicks st.
Proof. unfold filePadding. by destruct (n =? 0). Qed.

Lemma pushNextBlockBody_ticks (st : Stream) (next : option Grain) :
  nextTicks (fst (pushNextBlockBody st next))
  = nextTicks st
    ++ match next with
       | Some g => if lbaBytes g - position st <? 0
                   then [ErrorMessage outOfOrder] else []
       | None => []
       end.
Proof.
  unfold pushNextBlockBody, pushFileUntilFull.
  destruct next as [g|]; rewrite drainQueue_ticks; simpl;
    rewrite filePadding_ticks.
  - destruct (lbaBytes g - position st <? 0); simpl; [done | by rewrite app_nil_r].
  - by rewrite app_nil_r.
Qed.

Lemma async_returns {S A} (body : S * Result A) :
  ∃ p, snd (async body) = Returned p.
Proof. destruct body as [st [a|e]]; simpl; eauto. Qed.

Lemma async_state {S A} (body : S * Result A) : fst (async body) = fst body.
Proof. by destruct body as [st [a|e]]. Qed.

Lemma pushNextBlock_ticks (st : Stream) :
  ∃ l, nextTicks (fst (pushNextBlock st)) = nextTicks st ++ l.
Proof.
  unfold pushNextBlock, parserNext.
  destruct (vmdkParser st) as [|g rest]; rewrite async_state,
    pushNextBlockBody_ticks; eauto.
Qed.

Lemma pushNextLoop_ticks (grains : list Grain) :
  ∀ st, ∃ l, nextTicks (fst (pushNextLoop st grains)) = nextTicks st ++ l.
Proof.
  induction grains as [|g grains IH]; intros st; simpl;
    (destruct (done st); [exists []; by rewrite app_nil_r |]);
    destruct (pushNextBlock_ticks st) as [l Hl];
    destruct (pushNextBlock st) as [st' [[[]|e]|e]]; simpl in *; eauto.
  destruct (IH st') as [l' Hl']. rewrite Hl', Hl, <- app_assoc. eauto.
Qed.

(** Once the parser is exhausted, [pushNextBlock] answers [true] only when
    the closing closure has run, that is with [done] set: the loop of
    [pushNextUntilFull] stops there. *)
Lemma drainQueue_end_done (q : list Thunk) :
  ∀ st st', drainQueue st (q ++ [ThunkEnd]) = (st', Ok true) → done st' = true.
Proof.
  induction q as [|t q IH]; intros st st' Hrun.
  - simpl in Hrun. by inversion Hrun.
  - change ((t :: q) ++ [ThunkEnd]) with (t :: (q ++ [ThunkEnd])) in Hrun.
    cbn [drainQueue] in Hrun.
    destruct (runThunk st t) as [st1 [chunk|e]]; [| discriminate].
    destruct (push st1 chunk) as [st2 []]; [exact (IH _ _ Hrun) |].
    destruct q; discriminate.
Qed.

Lemma end_of_input_done (st st' : Stream) :
  vmdkParser st = [] →
  pushNextBlock st = (st', Returned (Resolved true)) → done st' = true.
Proof.
  intros Hnil. unfold pushNextBlock, parserNext. rewrite Hnil.
  unfold pushNextBlockBody, pushFileUntilFull. simpl.
  rewrite <- app_assoc.
  destruct (drainQueue _ _) as [st1 [[]|e]] eqn:Hrun; simpl; try discriminate.
  intros Heq. inversion Heq; subst st1.
  rewrite app_assoc in Hrun. by apply drainQueue_end_done in Hrun.
Qed.

Lemma reads_add (a b : nat) (st : Stream) :
  reads (a + b) st = reads b (reads a st).
Proof. revert st. induction a as [|a IH]; intros st; simpl; [done | apply IH]. Qed.

Lemma reads_done (n : nat) (st : Stream) : done st = true → reads n st = st.
Proof.
  intros Hdone. induction n as [|n IH]; simpl; [done |].
  unfold _read. rewrite Hdone, orb_true_r. simpl. exact IH.
Qed.

(** The example of the spec, for any footer and any backpressure. *)
Lemma example_after_four_reads (f : Buffer) (answers : list bool) :
  let st := reads 4 {| size := 8; footer := f; position := 0; done := false;
                       busy := false; currentFile := [];
                       vmdkParser := Sample.grainsAABB; pushed := [];
                       sink := answers; nextTicks := [] |} in
  done st = true
  ∧ pushed st = [Some (Sample.ascii "AA"); Some [x00; x00];
                 Some (Sample.ascii "BB"); Some [x00; x00]; Some f; None]
  ∧ nextTicks st = [].
Proof.
  destruct answers as [|[] [|[] [|[] [|[] [|[] ?]]]]]; vm_compute; auto.
Qed.

Section ConverterFacts.

Context (codec : Codec).

(** C4, as amended.  For the grains [(0, "AA"), (4, "BB")] and a declared
    capacity of 8, whatever the backpressure, after four read requests or
    more the stream has ended without an error; it was handed, in this
    order, "AA", two zero bytes, "BB", two more zero bytes (the gap up to
    the capacity), and the fixed-disk footer made for size 8: ahead of the
    footer the bytes are AA\0\0BB\0\0. *)
Theorem converter_example_stream (now : Z) (answers : list bool) (n : nat) :
  (4 ≤ n)%nat →
  let st := reads n (newReadableRawVHDStream codec 8 Sample.grainsAABB now answers) in
  emittedBeforeLast st
    = Sample.ascii "AA" ++ [x00; x00] ++ Sample.ascii "BB" ++ [x00; x00]
  ∧ pushed st
    = [Some (Sample.ascii "AA"); Some [x00; x00]; Some (Sample.ascii "BB");
       Some [x00; x00];
       Some (createFooter codec 8 (now / 1000) (computeGeometryForSize codec 8)
               HARD_DISK_TYPE_FIXED None);
       None]
  ∧ ended st = true
  ∧ nextTicks st = [].
Proof.
  intros Hn st. subst st.
  replace n with (4 + (n - 4))%nat by lia. rewrite reads_add.
  unfold newReadableRawVHDStream.
  destruct (example_after_four_reads
              (createFooter codec 8 (now / 1000) (computeGeometryForSize codec 8)
                 HARD_DISK_TYPE_FIXED None) answers) as (Hdone & Hpushed & Hticks).
  rewrite reads_done by exact Hdone.
  unfold emittedBeforeLast, ended. rewrite Hpushed, Hticks. repeat split.
Qed.

End ConverterFacts.

(** C5.  When the grain the parser delivers next starts before the cursor,
    [pushNextBlock] returns a promise (it does not throw) and has queued,
    with [process.nextTick], the emission of the ['error'] event "This VMDK
    file does not have its blocks in the correct order"; the [_read] that
    pulls such a grain returns too, with that emission queued. *)
Theorem out_of_order_grain_emits_error (st : Stream) (g : Grain) (rest : list Grain) :
  vmdkParser st = g :: rest →
  lbaBytes g < position st →
  (∃ st' p,
     pushNextBlock st = (st', Returned p)
     ∧ nextTicks st' = nextTicks st ++ [ErrorMessage outOfOrder])
  ∧ (busy st = false → done st = false → currentFile st = [] →
     ∃ st', _read st = (st', Returned tt)
            ∧ ErrorMessage outOfOrder ∈ nextTicks st').
Proof.
  intros Hparser Hlate.
  assert (Hblock : ∀ s, vmdkParser s = g :: rest → position s = position st →
            ∃ st' p, pushNextBlock s = (st', Returned p)
                     ∧ nextTicks st' = nextTicks s ++ [ErrorMessage outOfOrder]).
  { intros s Hs Hpos. unfold pushNextBlock, parserNext. rewrite Hs.
    pose proof (pushNextBlockBody_ticks (setParser s rest) (Some g)) as Hticks.
    destruct (pushNextBlockBody (setParser s rest) (Some g)) as [st' r].
    simpl in Hticks. rewrite Hpos in Hticks.
    destruct (Z.ltb_spec (lbaBytes g - position st) 0); [| lia].
    destruct r as [a|e]; simpl; eauto. }
  split; [by apply Hblock |].
  intros Hbusy Hdone Hqueue. unfold _read, pushFileUntilFull.
  rewrite Hbusy, Hdone, Hqueue. simpl.
  set (s := setBusy (setQueue st []) true).
  destruct (Hblock s) as (st1 & p & Hrun & Hticks); [done | done |].
  unfold pushNextUntilFull. replace (vmdkParser s) with (g :: rest) by done.
  simpl. rewrite Hdone, Hrun.
  assert (Hin : ErrorMessage outOfOrder ∈ nextTicks st1).
  { rewrite Hticks. apply elem_of_app. right. by left. }
  destruct p as [[]|e]; simpl.
  - destruct (pushNextLoop_ticks rest st1) as [l Hl].
    destruct (pushNextLoop st1 rest) as [st2 [[]|e]]; simpl in *;
      eexists; (split; [reflexivity |]); simpl; rewrite Hl;
      rewrite ?elem_of_app; auto.
  - eexists. split; [reflexivity |]. done.
  - eexists. split; [reflexivity |]. simpl. apply elem_of_app. by left.
Qed.

(** ** The hypotheses above hold of concrete inputs *)


Lemma writeFile_layout_witness :
  let v := Sample.writtenFile in
  cursorAt (sparseFile v) (entryCount (table (sparseFile v))) = 22
  ∧ length (allocatedBlocks (sparseFile v)) = 2%nat
  ∧ ∃ bat,
      writeFile Sample.codec v
      = ([fileFooterOf Sample.codec v; diskHeaderOf Sample.codec v; bat]
           ++ allocatedBlocks (sparseFile v) ++ [fileFooterOf Sample.codec v],
         Ok (withSparseFile v (withTableBuffer (sparseFile v) bat)))
      ∧ length bat = length (tableBuffer (table (sparseFile v)))
      ∧ ∀ i, 0 ≤ i < entryCount (table (sparseFile v)) →
          readUInt32BE bat (i * 4)
          = Some (match entries (table (sparseFile v)) !! i with
                  | Some _ => cursorAt (sparseFile v) i
                  | None => 0xFFFFFFFF
                  end).
Proof.
  split; [by vm_compute |]. split; [by vm_compute |].
  apply (writeFile_layout Sample.codec Sample.writtenFile).
  - constructor.
    + by vm_compute.
    + by vm_compute.
    + intros i Hi Hnone.
      assert (Hcases : i = 0 ∨ i = 1 ∨ i = 2)
        by (change (entryCount (table (sparseFile Sample.writtenFile))) with 3 in Hi;
            lia).
      destruct Hcases as [Hc|[Hc|Hc]]; subst i; by vm_compute in Hnone |- *.
  - by vm_compute.
Defined.


(** C4, as the spec words it, fails on the code: for the example's grains and
    capacity the bytes ahead of the footer are AA\0\0BB followed by two more
    zero bytes, eight bytes and not six, the converter padding the image up
    to the declared capacity. *)
Lemma converter_example_pads_to_capacity :
  let st := reads 4 (newReadableRawVHDStream Sample.codec 8 Sample.grainsAABB 0 []) in
  emittedBeforeLast st
    = (Sample.ascii "AA" ++ [x00; x00] ++ Sample.ascii "BB") ++ [x00; x00]
  ∧ length (emittedBeforeLast st) = 8%nat
  ∧ length (Sample.ascii "AA" ++ [x00; x00] ++ Sample.ascii "BB") = 6%nat
  ∧ last (omap id (pushed st)) = Some (footer st)
  ∧ ended st = true.
Proof. by vm_compute. Qed.

Lemma converter_example_stream_witness :
  let st := reads 4 (newReadableRawVHDStream Sample.codec 8 Sample.grainsAABB
                       1700000000000 [true; false; true]) in
  (4 ≤ 4)%nat
  ∧ emittedBeforeLast st
    = Sample.ascii "AA" ++ [x00; x00] ++ Sample.ascii "BB" ++ [x00; x00]
  ∧ pushed st
    = [Some (Sample.ascii "AA"); Some [x00; x00]; Some (Sample.ascii "BB");
       Some [x00; x00];
       Some (createFooter Sample.codec 8 (1700000000000 / 1000)
               (computeGeometryForSize Sample.codec 8) HARD_DISK_TYPE_FIXED None);
       None]
  ∧ ended st = true
  ∧ nextTicks st = [].
Proof.
  split; [lia |].
  apply (converter_example_stream Sample.codec 1700000000000 [true; false; true] 4).
  lia.
Defined.

Lemma out_of_order_grain_emits_error_witness :
  let st := fst (pushNextBlock
                   (newReadableRawVHDStream Sample.codec 8 Sample.grainsBBAA 0 [])) in
  let g := {| lbaBytes := 0; grain := Sample.ascii "AA" |} in
  vmdkParser st = [g]
  ∧ position st = 6
  ∧ (∃ st' p,
       pushNextBlock st = (st', Returned p)
       ∧ nextTicks st' = nextTicks st ++ [ErrorMessage outOfOrder])
  ∧ (busy st = false → done st = false → currentFile st = [] →
     ∃ st', _read st = (st', Returned tt)
            ∧ ErrorMessage outOfOrder ∈ nextTicks st').
Proof.
  split; [reflexivity |]. split; [reflexivity |].
  apply (out_of_order_grain_emits_error
           (fst (pushNextBlock
                   (newReadableRawVHDStream Sample.codec 8 Sample.grainsBBAA 0 [])))
           {| lbaBytes := 0; grain := Sample.ascii "AA" |} []).
  - reflexivity.
  - by vm_compute.
Defined.

End VhdWriteFacts.

(** * Further properties of [merge] *)

Module MergeMore.
Import Merge MergeFacts.

Section More.

Context {W P : Type} (C : Contract W P).

Lemma opened_run_succeeded ph pfd ch cfd evs n :
  OpenedRun C ph pfd ch cfd evs (Ok n) →
  Forall (λ ev, succeeded ev = true) evs
  ∧ ∃ pv cv, headersRead evs = [Ok pv; Ok cv] ∧ validPair pv cv = true.
Proof.
  inversion 1 as [| | | | |pv cv pv1 cv1 pv2 lev pv3 m rw Hv Hloop Hl Hr]; subst.
  destruct rw as [pv4|]; [|discriminate].
  pose proof (loop_only_coalesces _ _ _ _ _ _ _ Hloop) as Honly.
  apply coalesce_only_projections in Honly as (_ & _ & Hhr & _).
  apply loop_completed in Hloop as (_ & _ & _ & Hok).
  split.
  - repeat (apply Forall_cons; split; [reflexivity |]).
    apply Forall_app. split; [exact Hok | by repeat constructor].
  - exists pv, cv. split; [| exact Hv].
    unfold headersRead in *. rewrite !omap_app, Hhr. reflexivity.
Qed.

(** X1.  [merge] swallows no failure: when it returns a count, every call
    it made on the collaborator resolved, the closing of both files
    included, and the three assertions held of the headers read. *)
Theorem merge_returns_only_after_success
    (ph : Handler) (pp : Path) (ch : Handler) (cp : Path) (w : W) (n : Z) :
  resultOf (runMerge C ph pp ch cp w) = Ok n →
  Forall (λ ev, succeeded ev = true) (logOf (runMerge C ph pp ch cp w))
  ∧ ∃ pv cv, headersRead (logOf (runMerge C ph pp ch cp w)) = [Ok pv; Ok cv]
             ∧ validPair pv cv = true.
Proof.
  intros Hres.
  pose proof (merge_run C ph pp ch cp w) as Hrun.
  destruct (runMerge C ph pp ch cp w) as [[w' log] r].
  unfold logOf, resultOf in *; simpl in *. subst r.
  inversion Hrun as [e Hl Hr|pfd e rcp Hl Hr|pfd cfd evs ro rcc rcp Hopened Hl Hr];
    subst.
  { destruct rcp as [[]|]; discriminate. }
  destruct rcp as [[]|]; [|discriminate]. destruct rcc as [[]|]; [|discriminate].
  simpl in Hr. subst ro.
  apply opened_run_succeeded in Hopened as (Hok & pv & cv & Hread & Hvalid).
  split.
  - repeat (apply Forall_cons; split; [reflexivity |]).
    apply Forall_app. split; [exact Hok | by repeat constructor].
  - exists pv, cv. split; [| exact Hvalid].
    unfold headersRead in *. rewrite !omap_app, Hread. reflexivity.
Qed.

Lemma footersWritten_app (l1 l2 : list (Event P)) :
  footersWritten (l1 ++ l2) = footersWritten l1 ++ footersWritten l2.
Proof. apply omap_app. Qed.

Lemma loop_failure_last cv pv ids acc evs r p c i e :
  LoopRun C cv pv ids acc evs r →
  EvCoalesceBlock p c i (Err e) ∈ evs →
  r = Err e ∧ ∃ before, evs = before ++ [EvCoalesceBlock p c i (Err e)].
Proof.
  induction 1 as [pv acc|pv j ids acc evs r Hc _ IH
                  |pv j ids acc pv1 m evs r Hc _ IH|pv j ids acc e' Hc];
    intros Hin.
  - by apply elem_of_nil in Hin.
  - auto.
  - apply elem_of_cons in Hin as [Heq|Hin]; [discriminate |].
    destruct (IH Hin) as (-> & before & ->). split; [done |].
    by exists (EvCoalesceBlock pv cv j (Ok (pv1, m)) :: before).
  - apply list_elem_of_singleton in Hin. inversion Hin; subst.
    split; [done |]. by exists [].
Qed.

(** X2.  A rejected [coalesceBlock] ends the merge: it is the last call but
    for the closing of the two files, [writeFooter] is never called (the
    parent keeps its stale footer), [merge] fails, and with that very error
    when both files close. *)
Theorem merge_stops_at_failed_block
    (ph : Handler) (pp : Path) (ch : Handler) (cp : Path) (w : W)
    (p c : Vhd P) (i : Z) (e : Exn) :
  EvCoalesceBlock p c i (Err e) ∈ logOf (runMerge C ph pp ch cp w) →
  (∃ e', resultOf (runMerge C ph pp ch cp w) = Err e')
  ∧ footersWritten (logOf (runMerge C ph pp ch cp w)) = []
  ∧ ∃ before pfd cfd rcc rcp,
      logOf (runMerge C ph pp ch cp w)
      = before ++ [EvCoalesceBlock p c i (Err e);
                   EvCloseFile ch cfd rcc; EvCloseFile ph pfd rcp]
      ∧ (rcc = Ok tt → rcp = Ok tt →
         resultOf (runMerge C ph pp ch cp w) = Err e).
Proof.
  intros Hin.
  pose proof (merge_run C ph pp ch cp w) as Hrun.
  destruct (runMerge C ph pp ch cp w) as [[w' log] r].
  unfold logOf, resultOf in *; simpl in *.
  inversion Hrun as [e0 Hl Hr|pfd e0 rcp Hl Hr|pfd cfd evs ro rcc rcp Hopened Hl Hr];
    subst.
  { apply list_elem_of_singleton in Hin. discriminate. }
  { repeat (apply elem_of_cons in Hin as [Heq|Hin]; [discriminate |]).
    by apply elem_of_nil in Hin. }
  do 2 (apply elem_of_cons in Hin as [Heq|Hin]; [discriminate |]).
  apply elem_of_app in Hin as [Hin|Hin].
  2:{ repeat (apply elem_of_cons in Hin as [Heq|Hin]; [discriminate |]).
      by apply elem_of_nil in Hin. }
  assert (Hshape : ro = Err e ∧ footersWritten evs = []
                   ∧ ∃ before, evs = before ++ [EvCoalesceBlock p c i (Err e)]).
  { inversion Hopened
      as [rp rc e0 Hboth|pv cv Hv|pv cv rp rc e0 Hv Hboth|pv cv pv1 cv1 e0 Hv
          |pv cv pv1 cv1 pv2 lev e0 Hv Hloop
          |pv cv pv1 cv1 pv2 lev pv3 n rw Hv Hloop]; subst;
      try (repeat (apply elem_of_cons in Hin as [Heq|Hin]; [discriminate |]);
           by apply elem_of_nil in Hin).
    - do 5 (apply elem_of_cons in Hin as [Heq|Hin]; [discriminate |]).
      pose proof (loop_only_coalesces _ _ _ _ _ _ _ Hloop) as Honly.
      apply coalesce_only_projections in Honly as (_ & _ & _ & _ & Hfw & _).
      destruct (loop_failure_last _ _ _ _ _ _ _ _ _ _ Hloop Hin)
        as (Heq & before & ->).
      inversion Heq; subst e0. split; [done |]. split.
      + unfold footersWritten in *. rewrite !omap_app in *. simpl.
        apply app_eq_nil in Hfw as [-> _]. reflexivity.
      + eexists (_ ++ before). rewrite <- app_assoc. reflexivity.
    - do 5 (apply elem_of_cons in Hin as [Heq|Hin]; [discriminate |]).
      apply elem_of_app in Hin as [Hin|Hin].
      + destruct (loop_failure_last _ _ _ _ _ _ _ _ _ _ Hloop Hin) as [Heq _].
        discriminate.
      + apply list_elem_of_singleton in Hin. discriminate. }
  destruct Hshape as (-> & Hfw & before & ->).
  split; [| split].
  - destruct rcc as [[]|], rcp as [[]|]; simpl; eauto.
  - rewrite 2!footersWritten_app, Hfw. reflexivity.
  - exists ([EvOpenFile ph pp "r+" (Ok pfd); EvOpenFile ch cp "r" (Ok cfd)] ++ before),
           pfd, cfd, rcc, rcp.
    split; [by rewrite <- !app_assoc | by intros -> ->].
Qed.

(** X3.  A failure to close decides the outcome: when the last call, the
    closing of the parent, rejects, [merge] rejects with that error, whatever
    came before, a completed merge included; when the parent closes and the
    closing of the child rejected, [merge] rejects with the child's error. *)
Theorem merge_fails_when_close_fails
    (ph : Handler) (pp : Path) (ch : Handler) (cp : Path) (w : W) :
  (∀ h fd e, last (logOf (runMerge C ph pp ch cp w)) = Some (EvCloseFile h fd (Err e)) →
     resultOf (runMerge C ph pp ch cp w) = Err e)
  ∧ (∀ before h fd e h' fd',
       logOf (runMerge C ph pp ch cp w)
       = before ++ [EvCloseFile h fd (Err e); EvCloseFile h' fd' (Ok tt)] →
       resultOf (runMerge C ph pp ch cp w) = Err e).
Proof.
  pose proof (merge_run C ph pp ch cp w) as Hrun.
  destruct (runMerge C ph pp ch cp w) as [[w' log] r].
  unfold logOf, resultOf in *; simpl in *.
  inversion Hrun as [e0 Hl Hr|pfd e0 rcp Hl Hr|pfd cfd evs ro rcc rcp Hopened Hl Hr];
    subst; split.
  - intros h fd e Hlast. discriminate.
  - intros before h fd e h' fd' Hlog.
    destruct before as [|? [|? ?]]; discriminate.
  - intros h fd e Hlast. simpl in Hlast. by inversion Hlast.
  - intros before h fd e h' fd' Hlog.
    change [EvOpenFile ph pp "r+" (Ok pfd); EvOpenFile ch cp "r" (Err e0);
            EvCloseFile (P:=P) ph pfd rcp]
      with ([EvOpenFile ph pp "r+" (Ok pfd)]
            ++ [EvOpenFile ch cp "r" (Err e0); EvCloseFile (P:=P) ph pfd rcp])
      in Hlog.
    apply app_inj_2 in Hlog as [_ Hlog]; [| reflexivity]. discriminate.
  - intros h fd e Hlast.
    change [EvCloseFile (P:=P) ch cfd rcc; EvCloseFile ph pfd rcp]
      with ([EvCloseFile (P:=P) ch cfd rcc] ++ [EvCloseFile ph pfd rcp]) in Hlast.
    rewrite !app_assoc, last_snoc in Hlast. by inversion Hlast.
  - intros before h fd e h' fd' Hlog.
    rewrite app_assoc in Hlog.
    apply app_inj_2 in Hlog as [_ Hlog]; [| reflexivity].
    inversion Hlog; subst. reflexivity.
Qed.


End More.

(** ** The hypotheses above hold of runs on the sample disks *)

Lemma merge_returns_only_after_success_witness :
  resultOf Sample.goodRun = Ok 0x400000
  ∧ Forall (λ ev, succeeded ev = true) (logOf Sample.goodRun)
  ∧ ∃ pv cv, headersRead (logOf Sample.goodRun) = [Ok pv; Ok cv]
             ∧ validPair pv cv = true.
Proof.
  split; [reflexivity |].
  apply (merge_returns_only_after_success Sample.contract
           "local" "parent.vhd" "local" "child.vhd" Sample.world 0x400000).
  reflexivity.
Defined.

Lemma merge_stops_at_failed_block_witness :
  let failed := EvCoalesceBlock Sample.parentAfterBlock1 Sample.childAtLoop 2
                  (Err (Failure "EIO")) in
  logOf Sample.brokenRun !! 8%nat = Some failed
  ∧ (∃ e', resultOf Sample.brokenRun = Err e')
  ∧ footersWritten (logOf Sample.brokenRun) = []
  ∧ ∃ before pfd cfd rcc rcp,
      logOf Sample.brokenRun
      = before ++ [failed; EvCloseFile "local" cfd rcc; EvCloseFile "local" pfd rcp]
      ∧ (rcc = Ok tt → rcp = Ok tt →
         resultOf Sample.brokenRun = Err (Failure "EIO")).
Proof.
  split; [reflexivity |].
  apply (merge_stops_at_failed_block (Sample.faulty (Some 2) None)
           "local" "parent.vhd" "local" "child.vhd" Sample.world
           Sample.parentAfterBlock1 Sample.childAtLoop 2 (Failure "EIO")).
  apply list_elem_of_lookup_2 with 8%nat. reflexivity.
Defined.

Lemma merge_fails_when_close_fails_witness :
  last (logOf Sample.unclosedRun) = Some (EvCloseFile "local" 3 (Err (Failure "EIO")))
  ∧ length (footersWritten (logOf Sample.unclosedRun)) = 1%nat
  ∧ resultOf Sample.unclosedRun = Err (Failure "EIO").
Proof.
  split; [reflexivity |]. split; [reflexivity |].
  apply (proj1 (merge_fails_when_close_fails (Sample.faulty None (Some 3))
                  "local" "parent.vhd" "local" "child.vhd" Sample.world)
           "local" 3 (Failure "EIO")).
  reflexivity.
Defined.


End MergeMore.

(** * Further properties of the builder and of the converter *)

Module VhdWriteMore.
Import VhdWrite VhdWriteFacts.

(** ** The table *)

Lemma ceilDiv_nonneg (a b : Z) : 0 < b → 0 ≤ a → 0 ≤ ceilDiv a b.
Proof. intros Hb Ha. pose proof (ceilDiv_ge a b Hb). nia. Qed.

Lemma createEmptyTable_sizing_aux (dataSize blockSize : Z) :
  0 < blockSize → 0 ≤ dataSize →
  lengthZ (tableBuffer (createEmptyTable dataSize blockSize)) mod VHD_SECTOR_SIZE = 0
  ∧ 0 ≤ entryCount (createEmptyTable dataSize blockSize).
Proof.
  intros Hbs Hsize. unfold createEmptyTable. simpl.
  pose proof (ceilDiv_nonneg dataSize blockSize Hbs Hsize) as Hec.
  assert (Hs : 0 < VHD_SECTOR_SIZE) by (unfold VHD_SECTOR_SIZE; lia).
  pose proof (ceilDiv_nonneg (ceilDiv dataSize blockSize * 4) VHD_SECTOR_SIZE Hs
                ltac:(lia)).
  rewrite lengthZ_alloc, Z.max_r by nia.
  split; [apply Z.mod_mul; lia | done].
Qed.

(** X5.  For a positive block size and a size that is not negative,
    [createEmptyTable] makes a table without any block, of as many entries as
    blocks are needed to cover the size and no more; its buffer holds a whole
    number of sectors, fewer than one sector more than four bytes an entry
    take, all of them 0xff. *)
Theorem createEmptyTable_sizing (dataSize blockSize : Z) :
  0 < blockSize → 0 ≤ dataSize →
  let t := createEmptyTable dataSize blockSize in
  entries t = ∅
  ∧ 0 ≤ entryCount t
  ∧ (entryCount t - 1) * blockSize < dataSize ≤ entryCount t * blockSize
  ∧ lengthZ (tableBuffer t) mod VHD_SECTOR_SIZE = 0
  ∧ 4 * entryCount t ≤ lengthZ (tableBuffer t) < 4 * entryCount t + VHD_SECTOR_SIZE
  ∧ Forall (λ b, b = xff) (tableBuffer t).
Proof.
  intros Hbs Hsize t. subst t. unfold createEmptyTable. simpl.
  set (ec := ceilDiv dataSize blockSize).
  pose proof (ceilDiv_nonneg dataSize blockSize Hbs Hsize) as Hec. fold ec in Hec.
  pose proof (ceilDiv_ge dataSize blockSize Hbs). fold ec in H.
  pose proof (ceilDiv_lt dataSize blockSize Hbs). fold ec in H0.
  assert (Hs : 0 < VHD_SECTOR_SIZE) by (unfold VHD_SECTOR_SIZE; lia).
  pose proof (ceilDiv_ge (ec * 4) VHD_SECTOR_SIZE Hs).
  pose proof (ceilDiv_lt (ec * 4) VHD_SECTOR_SIZE Hs).
  pose proof (ceilDiv_nonneg (ec * 4) VHD_SECTOR_SIZE Hs ltac:(lia)).
  rewrite lengthZ_alloc.
  rewrite Z.max_r by nia.
  repeat split; try lia.
  - apply Z.mod_mul. lia.
  - unfold alloc. apply Forall_replicate. reflexivity.
Qed.

(** ** Blocks *)

Lemma writeBuffer_spec_max (se : SparseExtent) (buf : Buffer) (offset : Z) :
  0 < blockSize se →
  ∃ se',
    writeBuffer se buf offset = Ok se'
    ∧ se' = withEntries se (entries (table se'))
    ∧ (∀ i, startBlockOf se offset ≤ i < endBlockOf se buf offset →
         entries (table se') !! i
         = Some (withData (default (newBlock (blockSize se))
                              (entries (table se) !! i))
                   (chunkFor (blockSize se) buf offset i)
                   (Z.max 0 (offset - i * blockSize se))))
    ∧ (∀ i, ¬ (startBlockOf se offset ≤ i < endBlockOf se buf offset) →
         entries (table se') !! i = entries (table se) !! i).
Proof.
  intros Hbs. unfold writeBuffer.
  set (s := startBlockOf se offset). set (e := endBlockOf se buf offset).
  pose proof (floorDiv_bounds offset (blockSize se) Hbs) as Hfloor.
  fold (startBlockOf se offset) in Hfloor. fold s in Hfloor.
  destruct (writeBufferFrom_ok buf offset (seqZ s (e - s)) se Hbs)
    as (se' & Hrun & Hshape & Hin & Hout).
  { intros i Hi. apply elem_of_seqZ in Hi. nia. }
  { apply NoDup_seqZ. }
  exists se'. split; [exact Hrun |]. split; [exact Hshape |]. split.
  - intros i Hi. apply Hin. apply elem_of_seqZ. lia.
  - intros i Hi. apply Hout. rewrite elem_of_seqZ. lia.
Qed.

Lemma writeBuffer_wellSized (se se' : SparseExtent) (buf : Buffer) (offset : Z) :
  0 < blockSize se → blocksWellSized se →
  writeBuffer se buf offset = Ok se' →
  blockSize se' = blockSize se ∧ blocksWellSized se'.
Proof.
  intros Hbs Hwf Hrun.
  destruct (writeBuffer_spec_max se buf offset Hbs)
    as (se1 & Hrun1 & Hshape & Hin & Hout).
  rewrite Hrun in Hrun1. inversion Hrun1; subst se1. clear Hrun1.
  split; [by rewrite Hshape |].
  intros i b Hb. replace (blockSize se') with (blockSize se) by (by rewrite Hshape).
  destruct (decide (startBlockOf se offset ≤ i < endBlockOf se buf offset)) as [Hi|Hi].
  - rewrite (Hin i Hi) in Hb. inversion Hb; subst b.
    apply withData_wellSized; [done | lia |].
    destruct (entries (table se) !! i) as [old|] eqn:Hold; simpl.
    + by apply (Hwf i).
    + by apply newBlock_wellSized.
  - rewrite (Hout i Hi) in Hb. by apply (Hwf i).
Qed.

Lemma newSparseExtent_wellSized (dataSize bs start : Z) :
  blocksWellSized (newSparseExtent dataSize bs start).
Proof. intros i b Hb. simpl in Hb. by rewrite lookup_empty in Hb. Qed.

(** X6.  [writeBuffer] keeps the blocks of an extent as [new Block] sizes
    them: every block, those it allocates included, has a buffer of the
    sector-rounded size of a bitmap and a block of data, and a bitmap that
    marks every sector (no write reaches into the bitmap). *)
Theorem writeBuffer_keeps_blocks_sized
    (se se' : SparseExtent) (buf : Buffer) (offset : Z) :
  0 < blockSize se → blockSize se mod 4096 = 0 →
  blocksWellSized se →
  writeBuffer se buf offset = Ok se' →
  blockSize se' = blockSize se ∧ blocksWellSized se'.
Proof. intros Hbs _. by apply writeBuffer_wellSized. Qed.

(** ** Reading back what [writeBuffer] wrote *)

Lemma block_of_position (se : SparseExtent) (buf : Buffer) (offset pos : Z) :
  0 < blockSize se → offset ≤ pos < offset + lengthZ buf →
  startBlockOf se offset ≤ pos / blockSize se < endBlockOf se buf offset.
Proof.
  intros Hbs Hpos. unfold startBlockOf, endBlockOf. split.
  - apply Z.div_le_mono; lia.
  - apply Z.div_lt_upper_bound; [lia |].
    pose proof (ceilDiv_ge (offset + lengthZ buf) (blockSize se) Hbs). lia.
Qed.

(** X7.  What [writeBuffer] writes can be read back: in an extent with
    well-sized blocks, after [writeBuffer(buf, offset)] the byte held for
    position [offset + k] of the disk is byte [k] of [buf], for every [k]
    within the buffer, whether the write stays in one block or spans
    several and wherever it starts in a block. *)
Theorem writeBuffer_read_back
    (se se' : SparseExtent) (buf : Buffer) (offset : Z) (k : nat) :
  0 < blockSize se → blockSize se mod 4096 = 0 →
  blocksWellSized se →
  writeBuffer se buf offset = Ok se' →
  (k < length buf)%nat →
  byteAt se' (offset + Z.of_nat k) = buf !! k.
Proof.
  intros Hbs _ Hwf Hrun Hk.
  destruct (writeBuffer_spec_max se buf offset Hbs)
    as (se1 & Hrun1 & Hshape & Hin & Hout).
  rewrite Hrun in Hrun1. inversion Hrun1; subst se1. clear Hrun1.
  set (bs := blockSize se) in *. set (pos := offset + Z.of_nat k).
  assert (Hpos : offset ≤ pos < offset + lengthZ buf) by (unfold lengthZ; lia).
  pose proof (block_of_position se buf offset pos Hbs Hpos) as Hi.
  fold bs in Hi. set (i := pos / bs) in *.
  pose proof (floorDiv_bounds pos bs Hbs) as Hfloor. fold i in Hfloor.
  assert (Hmod : pos mod bs = pos - i * bs) by (rewrite Z.mod_eq by lia; lia).
  unfold byteAt. replace (blockSize se') with bs by (by rewrite Hshape).
  fold i. rewrite (Hin i Hi), Hmod.
  assert (Hold : blockWellSized bs (default (newBlock bs) (entries (table se) !! i))).
  { destruct (entries (table se) !! i) as [old|] eqn:Hold; simpl.
    - by apply (Hwf i).
    - by apply newBlock_wellSized. }
  pose proof (length_chunkFor bs buf offset i) as Hlen.
  rewrite (dataBuffer_withData bs) by (try done; unfold lengthZ; lia).
  destruct (decide _) as [_|Hout']; [| lia].
  rewrite chunkFor_lookup by lia. f_equal. lia.
Qed.

(** X8.  [writeBuffer] changes no other byte: a position outside the range
    written keeps the byte it had when its block existed, holds a zero when
    the write allocated its block, and stays without a block otherwise. *)
Theorem writeBuffer_leaves_other_bytes
    (se se' : SparseExtent) (buf : Buffer) (offset pos : Z) :
  0 < blockSize se → blockSize se mod 4096 = 0 →
  blocksWellSized se →
  writeBuffer se buf offset = Ok se' →
  ¬ (offset ≤ pos < offset + lengthZ buf) →
  byteAt se' pos
  = match entries (table se) !! (pos / blockSize se) with
    | Some _ => byteAt se pos
    | None =>
        if decide (startBlockOf se offset ≤ pos / blockSize se
                   < endBlockOf se buf offset)
        then Some x00 else None
    end.
Proof.
  intros Hbs _ Hwf Hrun Hpos.
  destruct (writeBuffer_spec_max se buf offset Hbs)
    as (se1 & Hrun1 & Hshape & Hin & Hout).
  rewrite Hrun in Hrun1. inversion Hrun1; subst se1. clear Hrun1.
  set (bs := blockSize se) in *. set (i := pos / bs).
  pose proof (floorDiv_bounds pos bs Hbs) as Hfloor. fold i in Hfloor.
  assert (Hmod : pos mod bs = pos - i * bs) by (rewrite Z.mod_eq by lia; lia).
  unfold byteAt. replace (blockSize se') with bs by (by rewrite Hshape).
  fold bs i.
  destruct (decide (startBlockOf se offset ≤ i < endBlockOf se buf offset)) as [Hi|Hi].
  2:{ rewrite (Hout i Hi). by destruct (entries (table se) !! i). }
  rewrite (Hin i Hi), Hmod.
  assert (Hhi : offset < (i + 1) * bs).
  { pose proof (floorDiv_bounds offset bs Hbs) as Hoff.
    unfold startBlockOf in Hi. fold bs in Hi. nia. }
  assert (Hold : blockWellSized bs (default (newBlock bs) (entries (table se) !! i))).
  { destruct (entries (table se) !! i) as [old|] eqn:Hold; simpl.
    - by apply (Hwf i).
    - by apply newBlock_wellSized. }
  pose proof (length_chunkFor bs buf offset i) as Hlen.
  rewrite (dataBuffer_withData bs) by (try done; unfold lengthZ; lia).
  destruct (decide _) as [Hin'|_]; [unfold lengthZ in Hpos; lia |].
  destruct (entries (table se) !! i) as [old|]; simpl; [done |].
  apply newBlock_zero; [done | lia].
Qed.

(** ** The table written points at the blocks written *)

Lemma blockBufferSize_sectors (bs : Z) : blockBufferSize bs mod VHD_SECTOR_SIZE = 0.
Proof. unfold blockBufferSize. apply Z.mod_mul. unfold VHD_SECTOR_SIZE. lia. Qed.

Lemma blocks_length (bs : Z) (es : gmap Z Block) (ids : list Z) :
  (∀ j blk, es !! j = Some blk → blockWellSized bs blk) →
  lengthZ (concat (omap (λ i, buffer <$> es !! i) ids))
  = VHD_SECTOR_SIZE * sectorsOf es ids.
Proof.
  intros Hwf. induction ids as [|i ids IH]; [unfold lengthZ; simpl; lia |].
  change (i :: ids) with ([i] ++ ids).
  rewrite omap_app, concat_app, sectorsOf_app.
  unfold lengthZ in *. rewrite length_app, Nat2Z.inj_add, IH. simpl.
  destruct (es !! i) as [blk|] eqn:Hblk; simpl; [| lia].
  destruct (Hwf i blk Hblk) as (_ & Hlen & _).
  pose proof (blockBufferSize_sectors bs) as Hsec. rewrite <- Hlen in Hsec.
  rewrite app_nil_r.
  pose proof (Z.div_mod (Z.of_nat (length (buffer blk))) VHD_SECTOR_SIZE
                ltac:(unfold VHD_SECTOR_SIZE; lia)).
  unfold lengthZ, VHD_SECTOR_SIZE in *. lia.
Qed.

Lemma startOffset_newSparseExtent (dataSize bs start : Z) :
  0 < bs → 0 ≤ dataSize → start mod VHD_SECTOR_SIZE = 0 →
  let se := newSparseExtent dataSize bs start in
  VHD_SECTOR_SIZE * startOffset se = start + lengthZ (tableBuffer (table se)).
Proof.
  intros Hbs Hsize Hstart se. subst se. unfold newSparseExtent.
  destruct (createEmptyTable_sizing_aux dataSize bs Hbs Hsize) as [Hmod _].
  cbn [startOffset table].
  assert (Hs : VHD_SECTOR_SIZE ≠ 0) by (unfold VHD_SECTOR_SIZE; lia).
  pose proof (Z.div_mod (start + lengthZ (tableBuffer (createEmptyTable dataSize bs)))
                VHD_SECTOR_SIZE Hs) as Hdm.
  rewrite Z.add_mod, Hstart, Hmod in Hdm by done.
  change ((0 + 0) mod VHD_SECTOR_SIZE) with 0 in Hdm.
  unfold VHD_SECTOR_SIZE in *. lia.
Qed.

Section LayoutFacts.

Context (codec : Codec).

(** X9.  The table [writeFile] writes points at the blocks it writes.  For a
    file whose extent is well formed, with well-sized blocks that start
    where its [startOffset] says (right after footer, header and table, as
    the constructor places them) and end below sector 2^32: each allocated
    block below [entryCount] is found, whole, in the bytes written, at the
    byte offset that is 512 times the sector its table entry reads back as,
    big-endian; and the table itself starts at byte [3 * 512], the table
    offset the header declares. *)
Theorem writeFile_table_points_at_blocks (v : VHDFile) (i : Z) (b : Block) :
  wfExtent (sparseFile v) →
  blocksWellSized (sparseFile v) →
  cursorAt (sparseFile v) (entryCount (table (sparseFile v))) ≤ 0xFFFFFFFF →
  lengthZ (fileFooterOf codec v) + lengthZ (diskHeaderOf codec v)
    = VHD_SECTOR_SIZE * 3 →
  VHD_SECTOR_SIZE * startOffset (sparseFile v)
    = VHD_SECTOR_SIZE * 3 + lengthZ (tableBuffer (table (sparseFile v))) →
  0 ≤ i < entryCount (table (sparseFile v)) →
  entries (table (sparseFile v)) !! i = Some b →
  ∃ bat before after sector,
    fst (writeFile codec v) !! 2%nat = Some bat
    ∧ concat (take 2 (fst (writeFile codec v)))
      = fileFooterOf codec v ++ diskHeaderOf codec v
    ∧ readUInt32BE bat (i * 4) = Some sector
    ∧ concat (fst (writeFile codec v)) = before ++ buffer b ++ after
    ∧ lengthZ before = VHD_SECTOR_SIZE * sector.
Proof.
  intros Hwf Hsized Hmax Hhead Hstart Hi Hb. unfold writeFile.
  rewrite !write_whole. simpl.
  destruct (writeOnFile_spec (sparseFile v)
              [fileFooterOf codec v; diskHeaderOf codec v] Hwf Hmax)
    as (bat & Hrun & Hlen & Hread).
  rewrite Hrun. simpl.
  set (es := entries (table (sparseFile v))) in *.
  set (ec := entryCount (table (sparseFile v))) in *.
  set (f := λ j : Z, buffer <$> es !! j).
  assert (Hsplit : allocatedBlocks (sparseFile v)
                   = omap f (seqZ 0 i) ++ buffer b :: omap f (seqZ (i + 1) (ec - i - 1))).
  { unfold allocatedBlocks. fold es ec f.
    replace ec with (i + (ec - i)) at 1 by lia.
    rewrite seqZ_app, omap_app by lia. f_equal.
    rewrite Z.add_0_l, seqZ_cons by lia. simpl. unfold f at 1. rewrite Hb. simpl.
    repeat f_equal; lia. }
  exists bat, (fileFooterOf codec v ++ diskHeaderOf codec v ++ bat
               ++ concat (omap f (seqZ 0 i))),
         (concat (omap f (seqZ (i + 1) (ec - i - 1))) ++ fileFooterOf codec v),
         (cursorAt (sparseFile v) i).
  split; [reflexivity |]. split; [by rewrite app_nil_r |]. split.
  { rewrite (Hread i Hi). fold es. by rewrite Hb. }
  split.
  - rewrite Hsplit. rewrite !concat_app. simpl. rewrite app_nil_r, slice_all.
    rewrite <- !app_assoc. reflexivity.
  - pose proof (blocks_length (blockSize (sparseFile v)) es (seqZ 0 i) Hsized) as Hblocks.
    fold f in Hblocks. unfold cursorAt. fold es.
    unfold lengthZ in *. rewrite !length_app, !Nat2Z.inj_add, Hlen. lia.
Qed.

End LayoutFacts.

(** ** The hypotheses above hold of concrete inputs *)

Lemma createEmptyTable_sizing_witness :
  let t := createEmptyTable 0x2800 0x1000 in
  entryCount t = 3
  ∧ lengthZ (tableBuffer t) = 512
  ∧ entries t = ∅
  ∧ 0 ≤ entryCount t
  ∧ (entryCount t - 1) * 0x1000 < 0x2800 ≤ entryCount t * 0x1000
  ∧ lengthZ (tableBuffer t) mod VHD_SECTOR_SIZE = 0
  ∧ 4 * entryCount t ≤ lengthZ (tableBuffer t) < 4 * entryCount t + VHD_SECTOR_SIZE
  ∧ Forall (λ b, b = xff) (tableBuffer t).
Proof.
  split; [reflexivity |]. split; [reflexivity |].
  apply (createEmptyTable_sizing 0x2800 0x1000); lia.
Defined.

Lemma writeBuffer_keeps_blocks_sized_witness :
  let se := sparseFile Sample.smallFile in
  let se' := sparseFile Sample.writtenFile in
  writeBuffer se (Sample.ascii "hello") 0xFFE = Ok se'
  ∧ blockSize se' = blockSize se ∧ blocksWellSized se'.
Proof.
  split; [reflexivity |].
  apply (writeBuffer_keeps_blocks_sized (sparseFile Sample.smallFile)
           (sparseFile Sample.writtenFile) (Sample.ascii "hello") 0xFFE).
  - reflexivity.
  - reflexivity.
  - apply newSparseExtent_wellSized.
  - reflexivity.
Defined.

Lemma writeBuffer_read_back_witness :
  let se := sparseFile Sample.smallFile in
  let se' := sparseFile Sample.writtenFile in
  writeBuffer se (Sample.ascii "hello") 0xFFE = Ok se'
  ∧ byteAt se' (0xFFE + Z.of_nat 3) = Sample.ascii "hello" !! 3%nat.
Proof.
  split; [reflexivity |].
  apply (writeBuffer_read_back (sparseFile Sample.smallFile)
           (sparseFile Sample.writtenFile) (Sample.ascii "hello") 0xFFE 3).
  - reflexivity.
  - reflexivity.
  - apply newSparseExtent_wellSized.
  - reflexivity.
  - simpl. lia.
Defined.

Lemma writeBuffer_leaves_other_bytes_witness :
  let se := sparseFile Sample.smallFile in
  let se' := sparseFile Sample.writtenFile in
  writeBuffer se (Sample.ascii "hello") 0xFFE = Ok se'
  ∧ byteAt se' 0x1003
    = match entries (table se) !! (0x1003 / blockSize se) with
      | Some _ => byteAt se 0x1003
      | None =>
          if decide (startBlockOf se 0xFFE ≤ 0x1003 / blockSize se
                     < endBlockOf se (Sample.ascii "hello") 0xFFE)
          then Some x00 else None
      end.
Proof.
  split; [reflexivity |].
  apply (writeBuffer_leaves_other_bytes (sparseFile Sample.smallFile)
           (sparseFile Sample.writtenFile) (Sample.ascii "hello") 0xFFE 0x1003).
  - reflexivity.
  - reflexivity.
  - apply newSparseExtent_wellSized.
  - reflexivity.
  - change (lengthZ (Sample.ascii "hello")) with 5. lia.
Defined.

Lemma writeFile_table_points_at_blocks_witness :
  let v := Sample.writtenFile in
  ∃ b, entries (table (sparseFile v)) !! 1 = Some b
  ∧ ∃ bat before after sector,
      fst (writeFile Sample.codec v) !! 2%nat = Some bat
      ∧ concat (take 2 (fst (writeFile Sample.codec v)))
        = fileFooterOf Sample.codec v ++ diskHeaderOf Sample.codec v
      ∧ readUInt32BE bat (1 * 4) = Some sector
      ∧ concat (fst (writeFile Sample.codec v)) = before ++ buffer b ++ after
      ∧ lengthZ before = VHD_SECTOR_SIZE * sector.
Proof.
  destruct (entries (table (sparseFile Sample.writtenFile)) !! 1) as [b|] eqn:Hb;
    [| by vm_compute in Hb].
  exists b. split; [exact Hb |].
  apply (writeFile_table_points_at_blocks Sample.codec Sample.writtenFile 1 b).
  - constructor.
    + by vm_compute.
    + by vm_compute.
    + intros i Hi Hnone.
      assert (Hcases : i = 0 ∨ i = 1 ∨ i = 2)
        by (change (entryCount (table (sparseFile Sample.writtenFile))) with 3 in Hi;
            lia).
      destruct Hcases as [Hc|[Hc|Hc]]; subst i; by vm_compute in Hnone |- *.
  - apply (writeBuffer_wellSized (sparseFile Sample.smallFile) _
             (Sample.ascii "hello") 0xFFE); [reflexivity | | reflexivity].
    apply newSparseExtent_wellSized.
  - by vm_compute.
  - reflexivity.
  - reflexivity.
  - by vm_compute.
  - exact Hb.
Defined.

(** ** The converter on ordered grains *)

Lemma runThunk_plain (st : Stream) (t : Thunk) :
  safeThunk t → notEnd t → runThunk st t = (st, Ok (thunkChunk (footer st) t)).
Proof.
  intros Hsafe Hne. destruct t as [n| | |b]; simpl in *; try done.
  by destruct (Z.ltb_spec n 0); [lia |].
Qed.

Lemma push_spec (st st' : Stream) (chunk : option Buffer) (answer : bool) :
  push st chunk = (st', answer) →
  pushed st' = pushed st ++ [chunk] ∧ done st' = done st
  ∧ currentFile st' = currentFile st ∧ sameCore st st'
  ∧ (chunk = None → answer = false).
Proof.
  unfold push. intros Heq. inversion Heq; subst. simpl.
  repeat split. by intros ->.
Qed.

Lemma sameCore_refl (st : Stream) : sameCore st st.
Proof. by repeat split. Qed.

Lemma sameCore_trans (a b c : Stream) : sameCore a b → sameCore b c → sameCore a c.
Proof.
  intros (? & ? & ? & ? & ? & ?) (? & ? & ? & ? & ? & ?).
  repeat split; congruence.
Qed.

Lemma sameCore_setQueue (st : Stream) (q : list Thunk) : sameCore st (setQueue st q).
Proof. by repeat split. Qed.

(** Draining a queue without the closing closure: some closures are called,
    the first one at least, and the rest stays queued. *)
Lemma drain_plain (q : list Thunk) :
  ∀ (st st' : Stream) (r : Result bool),
    Forall safeThunk q → Forall notEnd q →
    drainQueue st q = (st', r) →
    ∃ q1 q2,
      q = q1 ++ q2 ∧ (q ≠ [] → q1 ≠ [])
      ∧ r = Ok (match q2 with [] => true | _ => false end)
      ∧ pushed st' = pushed st ++ (thunkChunk (footer st) <$> q1)
      ∧ currentFile st' = q2 ∧ done st' = done st ∧ sameCore st st'.
Proof.
  induction q as [|t q IH]; intros st st' r Hsafe Hne Hrun.
  - simpl in Hrun. inversion Hrun; subst. exists [], [].
    simpl. rewrite app_nil_r. repeat split. done.
  - apply Forall_cons in Hsafe as [Ht Hsafe]. apply Forall_cons in Hne as [Hnt Hne].
    cbn [drainQueue] in Hrun. rewrite runThunk_plain in Hrun by done.
    destruct (push st (thunkChunk (footer st) t)) as [st2 answer] eqn:Hpush.
    apply push_spec in Hpush as (Hp & Hd & _ & Hcore & _).
    destruct answer.
    + apply IH in Hrun as (q1 & q2 & -> & _ & -> & Hp' & Hq & Hd' & Hcore'); auto.
      exists (t :: q1), q2.
      pose proof Hcore as (_ & Hf & _). rewrite Hf in Hp'.
      split; [done |]. split; [done |]. split; [done |].
      split; [rewrite Hp', Hp, <- app_assoc; done |].
      split; [done |]. split; [congruence |].
      by eapply sameCore_trans.
    + inversion Hrun; subst. exists [t], q. simpl.
      split; [done |]. split; [done |]. split; [done |].
      split; [done |]. split; [done |]. split; [done |].
      eapply sameCore_trans; [exact Hcore | apply sameCore_setQueue].
Qed.

(** Draining a queue that ends with the closing closure: either the drain
    stops ahead of it, or it runs it, which ends the stream. *)
Lemma drain_closing (q : list Thunk) :
  ∀ (st st' : Stream) (r : Result bool),
    Forall safeThunk q → Forall notEnd q →
    drainQueue st (q ++ [ThunkEnd]) = (st', r) →
    sameCore st st'
    ∧ ((∃ q1 q2,
          q = q1 ++ q2 ∧ q1 ≠ [] ∧ r = Ok false
          ∧ pushed st' = pushed st ++ (thunkChunk (footer st) <$> q1)
          ∧ currentFile st' = q2 ++ [ThunkEnd] ∧ done st' = done st)
       ∨ (r = Ok true
          ∧ pushed st' = pushed st ++ (thunkChunk (footer st) <$> q ++ [ThunkEnd])
          ∧ currentFile st' = [] ∧ done st' = true)).
Proof.
  induction q as [|t q IH]; intros st st' r Hsafe Hne Hrun.
  - simpl in Hrun. inversion Hrun; subst. split; [by repeat split |].
    right. by repeat split.
  - apply Forall_cons in Hsafe as [Ht Hsafe]. apply Forall_cons in Hne as [Hnt Hne].
    change ((t :: q) ++ [ThunkEnd]) with (t :: (q ++ [ThunkEnd])) in Hrun.
    cbn [drainQueue] in Hrun. rewrite runThunk_plain in Hrun by done.
    destruct (push st (thunkChunk (footer st) t)) as [st2 answer] eqn:Hpush.
    apply push_spec in Hpush as (Hp & Hd & _ & Hcore & _).
    destruct answer.
    + apply IH in Hrun as (Hcore' & Hcases); auto.
      split; [by eapply sameCore_trans |].
      pose proof Hcore as (_ & Hf & _). rewrite Hf in Hcases.
      destruct Hcases as [(q1 & q2 & -> & Hq1 & -> & Hp' & Hq & Hd')
                         |(-> & Hp' & Hq & Hd')].
      * left. exists (t :: q1), q2.
        split; [done |]. split; [done |]. split; [done |].
        split; [rewrite Hp', Hp, <- app_assoc; done |].
        split; [done | congruence].
      * right. split; [done |].
        split; [rewrite Hp', Hp, <- app_assoc; done |]. done.
    + assert (Hr : r = Ok false ∧ st' = setQueue st2 (q ++ [ThunkEnd])).
      { destruct q; inversion Hrun; done. }
      destruct Hr as [-> ->].
      split; [eapply sameCore_trans; [exact Hcore | apply sameCore_setQueue] |].
      left. exists [t], q. by repeat split.
Qed.

Lemma chunkSize_pos : 0 < chunkSize.
Proof. reflexivity. Qed.

Lemma padThunks_plain (pad : Z) :
  0 ≤ pad → Forall safeThunk (padThunks pad) ∧ Forall notEnd (padThunks pad).
Proof.
  intros Hpad. unfold padThunks. destruct (pad =? 0); [by split |].
  pose proof (Z.rem_nonneg pad chunkSize ltac:(pose proof chunkSize_pos; lia) Hpad).
  split; apply Forall_app; split; try apply Forall_replicate;
    repeat constructor; try done; simpl; pose proof chunkSize_pos; lia.
Qed.

Lemma filePadding_spec (st : Stream) (pad : Z) :
  currentFile (filePadding st pad) = currentFile st ++ padThunks pad
  ∧ pushed (filePadding st pad) = pushed st
  ∧ sink (filePadding st pad) = sink st
  ∧ done (filePadding st pad) = done st
  ∧ sameCore st (filePadding st pad).
Proof.
  unfold filePadding, padThunks. destruct (pad =? 0); simpl.
  - rewrite app_nil_r. by repeat split.
  - by repeat split.
Qed.

(** One call of [pushNextBlock] on an empty queue, for a grain in order. *)
Lemma pushNextBlock_grain (s s' : Stream) (g : Grain) (rest : list Grain)
    (c : Completion (Promise bool)) :
  vmdkParser s = g :: rest → currentFile s = [] → position s ≤ lbaBytes g →
  pushNextBlock s = (s', c) →
  ∃ q1 q2,
    padThunks (lbaBytes g - position s) ++ [ThunkBuffer (grain g)] = q1 ++ q2
    ∧ q1 ≠ []
    ∧ c = Returned (Resolved (match q2 with [] => true | _ => false end))
    ∧ pushed s' = pushed s ++ (thunkChunk (footer s) <$> q1)
    ∧ currentFile s' = q2 ∧ done s' = done s
    ∧ position s' = lbaBytes g + lengthZ (grain g) ∧ vmdkParser s' = rest
    ∧ size s' = size s ∧ footer s' = footer s ∧ busy s' = busy s
    ∧ nextTicks s' = nextTicks s.
Proof.
  intros Hparser Hqueue Hpos. unfold pushNextBlock, parserNext. rewrite Hparser.
  unfold pushNextBlockBody, pushFileUntilFull.
  cbn [lbaBytes grain]. replace (position (setParser s rest)) with (position s) by done.
  destruct (Z.ltb_spec (lbaBytes g - position s) 0) as [|_]; [lia |].
  set (pad := lbaBytes g - position s).
  destruct (filePadding_spec (setParser s rest) pad)
    as (Hq & Hp & _ & Hd & Hsz & Hf & Hpo & Hb & Hpa & Ht).
  destruct (padThunks_plain pad ltac:(lia)) as [Hsafe Hne].
  set (s0 := setPosition (setQueue _ _) _).
  assert (Hq0 : currentFile s0 = padThunks pad ++ [ThunkBuffer (grain g)]).
  { subst s0. simpl. rewrite Hq. simpl. by rewrite Hqueue. }
  rewrite Hq0.
  destruct (drainQueue s0 _) as [s1 r] eqn:Hrun.
  apply drain_plain in Hrun
    as (q1 & q2 & Hsplit & Hq1 & -> & Hp1 & Hq2 & Hd1 & Hsz1 & Hf1 & Hpo1 & Hb1 & Hpa1 & Ht1).
  2:{ apply Forall_app. split; [done | by repeat constructor]. }
  2:{ apply Forall_app. split; [done | by repeat constructor]. }
  simpl. intros Heq. inversion Heq; subst s' c. clear Heq.
  exists q1, q2. subst s0. simpl in *.
  split; [done |]. split; [apply Hq1; by destruct (padThunks pad) |].
  split; [done |].
  repeat split; try congruence.
Qed.

(** One call of [pushNextBlock] on an empty queue, at the end of the input. *)
Lemma pushNextBlock_end (s s' : Stream) (c : Completion (Promise bool)) :
  vmdkParser s = [] → currentFile s = [] → position s ≤ size s →
  pushNextBlock s = (s', c) →
  sameCore s s'
  ∧ ((∃ q1 q2,
        padThunks (size s - position s) ++ [ThunkFooter] = q1 ++ q2 ∧ q1 ≠ []
        ∧ c = Returned (Resolved false)
        ∧ pushed s' = pushed s ++ (thunkChunk (footer s) <$> q1)
        ∧ currentFile s' = q2 ++ [ThunkEnd] ∧ done s' = done s)
     ∨ (c = Returned (Resolved true)
        ∧ pushed s'
          = pushed s ++ (thunkChunk (footer s)
                           <$> padThunks (size s - position s)
                               ++ [ThunkFooter; ThunkEnd])
        ∧ currentFile s' = [] ∧ done s' = true)).
Proof.
  intros Hparser Hqueue Hpos. unfold pushNextBlock, parserNext. rewrite Hparser.
  unfold pushNextBlockBody, pushFileUntilFull.
  set (pad := size s - position s).
  destruct (filePadding_spec s pad) as (Hq & Hp & _ & Hd & Hcore).
  destruct (padThunks_plain pad ltac:(lia)) as [Hsafe Hne].
  set (s0 := setQueue (setQueue _ _) _).
  assert (Hq0 : currentFile s0 = (padThunks pad ++ [ThunkFooter]) ++ [ThunkEnd]).
  { subst s0. simpl. rewrite Hq, Hqueue. simpl. by rewrite <- app_assoc. }
  rewrite Hq0.
  destruct (drainQueue s0 _) as [s1 r] eqn:Hrun.
  apply drain_closing in Hrun as (Hcore1 & Hcases).
  2:{ apply Forall_app. split; [done | by repeat constructor]. }
  2:{ apply Forall_app. split; [done | by repeat constructor]. }
  assert (Hcore0 : sameCore s s0).
  { subst s0. eapply sameCore_trans; [exact Hcore |].
    eapply sameCore_trans; apply sameCore_setQueue. }
  assert (Hs0 : pushed s0 = pushed s ∧ footer s0 = footer s ∧ done s0 = done s).
  { subst s0. simpl. destruct Hcore as (_ & Hf & _). by repeat split. }
  destruct Hs0 as (Hp0 & Hf0 & Hd0).
  rewrite Hp0, Hf0, Hd0 in Hcases.
  destruct Hcases as [(q1 & q2 & Hsplit & Hq1 & -> & Hp1 & Hq2 & Hd1)
                     |(-> & Hp1 & Hq2 & Hd1)];
    simpl; intros Heq; inversion Heq; subst s' c; clear Heq;
    (split; [by eapply sameCore_trans |]).
  - left. exists q1, q2. by repeat split.
  - right. rewrite <- app_assoc in Hp1. by repeat split.
Qed.

(** The loop of [pushNextUntilFull], entered with an empty queue: it
    returns, having pushed at least one chunk, in a state of the conversion. *)
Lemma pushNextLoop_streaming (f : Buffer) (size0 : Z) (all : list Thunk) :
  ∀ gs s s' r,
    vmdkParser s = gs → currentFile s = [] → done s = false →
    Streaming true f size0 all s →
    pushNextLoop s gs = (s', r) →
    r = Ok tt ∧ Streaming true f size0 all s'
    ∧ (length (pushed s) < length (pushed s'))%nat.
Proof.
  induction gs as [|g rest IH];
    intros s s' r Hparser Hqueue Hdone (Hsz & Hf & Hb & Ht & gone & Hp & Hshape);
    (destruct Hshape as [(_ & _ & _ & Hord & Hall)
                        |[(_ & _ & q & Hq & _)|(Hd & _)]];
     [| rewrite Hqueue in Hq; by destruct q | congruence]);
    rewrite Hparser, Hqueue in *; simpl in Hall, Hord;
    destruct s; simpl in *; subst; simpl.
  - destruct (pushNextBlock _) as [s1 c] eqn:Hstep.
    apply pushNextBlock_end in Hstep; [| done | done | done].
    simpl in Hstep.
    destruct Hstep as ((Hsz1 & Hf1 & Hpo1 & Hb1 & Hpa1 & Ht1) & Hcases).
    simpl in *.
    destruct Hcases as [(q1 & q2 & Hsplit & Hq1 & -> & Hp1 & Hq2 & Hd1)
                       |(-> & Hp1 & Hq2 & Hd1)];
      intros Heq; inversion Heq; subst s' r; clear Heq.
    + split; [done |]. split.
      * repeat split; try done. exists (gone ++ q1). split.
        { by rewrite Hp1, fmap_app. }
        right. left. split; [done |]. split; [done |].
        exists q2. split; [done |].
        destruct (padThunks_plain (size0 - position0) ltac:(lia)) as [Hsafe Hne].
        assert (Hs : Forall safeThunk (q1 ++ q2)).
        { rewrite <- Hsplit. apply Forall_app. split; [done | by repeat constructor]. }
        assert (Hn : Forall notEnd (q1 ++ q2)).
        { rewrite <- Hsplit. apply Forall_app. split; [done | by repeat constructor]. }
        apply Forall_app in Hs as [_ Hs]. apply Forall_app in Hn as [_ Hn].
        split; [done |]. split; [done |].
        rewrite <- (app_assoc gone q1), (app_assoc q1 q2), <- Hsplit.
        by rewrite <- !app_assoc.
      * rewrite Hp1, length_app, length_fmap. destruct q1; [done | simpl; lia].
    + split; [done |]. split.
      * repeat split; try done.
        exists (gone ++ padThunks (size0 - position0) ++ [ThunkFooter; ThunkEnd]).
        split; [by rewrite Hp1, !fmap_app |]. right. right. done.
      * rewrite Hp1, length_app, !length_fmap, length_app. simpl. lia.
  - destruct Hord as [Hpos Hord].
    destruct (pushNextBlock _) as [s1 c] eqn:Hstep.
    eapply pushNextBlock_grain in Hstep; [| done | done | done].
    simpl in Hstep.
    destruct Hstep as (q1 & q2 & Hsplit & Hq1 & -> & Hp1 & Hq2 & Hd1 & Hpo1 & Hpa1
                       & Hsz1 & Hf1 & Hb1 & Ht1).
    destruct (padThunks_plain (lbaBytes g - position0) ltac:(lia)) as [Hsafe Hne].
    assert (Hs : Forall safeThunk (q1 ++ q2)).
    { rewrite <- Hsplit. apply Forall_app. split; [done | by repeat constructor]. }
    assert (Hn : Forall notEnd (q1 ++ q2)).
    { rewrite <- Hsplit. apply Forall_app. split; [done | by repeat constructor]. }
    apply Forall_app in Hs as [_ Hs]. apply Forall_app in Hn as [_ Hn].
    assert (Hlen : (length (thunkChunk f <$> gone)
                    < length (pushed s1))%nat).
    { rewrite Hp1, length_app, !length_fmap. destruct q1; [done | simpl; lia]. }
    assert (Hstream : Streaming true f size0
              (gone ++ padThunks (lbaBytes g - position0)
               ++ ThunkBuffer (grain g)
                  :: thunksAhead size0 (lbaBytes g + lengthZ (grain g)) rest) s1).
    { repeat split; try done. exists (gone ++ q1). split.
      { by rewrite Hp1, fmap_app. }
      left. rewrite Hq2, Hpo1, Hpa1. repeat split; try done.
      rewrite <- (app_assoc gone q1), (app_assoc q1 q2), <- Hsplit.
      by rewrite <- !app_assoc. }
    destruct q2 as [|t q2].
    + intros Hloop. eapply IH in Hloop as (-> & Hstream' & Hlen'); try done.
      split; [done |]. split; [done | lia].
    + intros Heq; inversion Heq; subst s' r; clear Heq. done.
Qed.

Lemma Streaming_setBusy (b b' : bool) (f : Buffer) (size0 : Z)
    (all : list Thunk) (st : Stream) :
  Streaming b f size0 all st → Streaming b' f size0 all (setBusy st b').
Proof. intros (Hsz & Hf & Hb & Ht & Hrest). by repeat split. Qed.

(** One read request, between two of which the stream is idle: the stream
    stays in a state of the conversion, and unless it is done at least one
    more chunk reaches the consumer. *)
Lemma read_streaming (f : Buffer) (size0 : Z) (all : list Thunk) (st : Stream) :
  Streaming false f size0 all st →
  Streaming false f size0 all (fst (_read st))
  ∧ (done st = true ∨ (length (pushed st) < length (pushed (fst (_read st))))%nat).
Proof.
  intros HS. pose proof HS as (Hsz & Hf & Hb & Ht & gone & Hp & Hshape).
  unfold _read, pushFileUntilFull. rewrite Hb. cbn [orb].
  destruct Hshape as [(Hd & Hsafe & Hne & Hord & Hall)
                     |[(Hd & Hpa & q & Hq & Hsafe & Hne & Hall)|(Hd & Hall)]];
    rewrite Hd; [| | by split; [| left]].
  - destruct (drainQueue st (currentFile st)) as [s1 r] eqn:Hrun.
    apply drain_plain in Hrun
      as (q1 & q2 & Hsplit & Hq1 & -> & Hp1 & Hq2 & Hd1
          & Hsz1 & Hf1 & Hpo1 & Hb1 & Hpa1 & Ht1); [| done | done].
    assert (Hlen : (length (pushed st) ≤ length (pushed s1))%nat
                   ∧ (currentFile st ≠ []
                      → (length (pushed st) < length (pushed s1))%nat)).
    { rewrite Hp1, length_app, length_fmap. split; [lia |].
      intros Hne0. apply Hq1 in Hne0. destruct q1; [done | simpl; lia]. }
    assert (Hs : Forall safeThunk q2 ∧ Forall notEnd q2).
    { rewrite Hsplit in Hsafe, Hne.
      apply Forall_app in Hsafe as [_ ?]. by apply Forall_app in Hne as [_ ?]. }
    assert (HS1 : Streaming false f size0 all s1).
    { repeat split; try congruence. exists (gone ++ q1). split.
      { rewrite Hp1, Hp, Hf. by rewrite fmap_app. }
      left. rewrite Hq2, Hpo1, Hpa1, Hd1. repeat split; try done; try tauto.
      by rewrite Hall, Hsplit, <- !app_assoc. }
    destruct q2 as [|t q2]; cbn [fst].
    + unfold pushNextUntilFull.
      destruct (pushNextLoop _ _) as [s2 r] eqn:Hloop.
      apply (pushNextLoop_streaming f size0 all) in Hloop
        as (-> & HS2 & Hlen2);
        [| done | done | simpl; congruence | by eapply Streaming_setBusy].
      simpl in *. split; [by eapply Streaming_setBusy |]. right. lia.
    + split; [done |]. right. apply Hlen. rewrite Hsplit. by destruct q1.
  - rewrite Hq.
    destruct (drainQueue st (q ++ [ThunkEnd])) as [s1 r] eqn:Hrun.
    apply drain_closing in Hrun
      as ((Hsz1 & Hf1 & Hpo1 & Hb1 & Hpa1 & Ht1) & Hcases); [| done | done].
    destruct Hcases as [(q1 & q2 & Hsplit & Hq1 & -> & Hp1 & Hq2 & Hd1)
                       |(-> & Hp1 & Hq2 & Hd1)]; cbn [fst].
    + assert (Hs : Forall safeThunk q2 ∧ Forall notEnd q2).
      { rewrite Hsplit in Hsafe, Hne.
        apply Forall_app in Hsafe as [_ ?]. by apply Forall_app in Hne as [_ ?]. }
      split.
      * repeat split; try congruence. exists (gone ++ q1). split.
        { rewrite Hp1, Hp, Hf. by rewrite fmap_app. }
        right. left. split; [congruence |]. split; [congruence |].
        exists q2. repeat split; try done; try tauto.
        by rewrite Hall, Hsplit, <- !app_assoc.
      * right. rewrite Hp1, length_app, length_fmap. destruct q1; [done | simpl; lia].
    + unfold pushNextUntilFull.
      assert (Hloop : ∀ gs, pushNextLoop (setBusy s1 true) gs
                            = (setBusy s1 true, Ok tt)).
      { intros gs. destruct gs; simpl; by rewrite Hd1. }
      rewrite Hloop. simpl. split.
      * repeat split; simpl; try congruence. exists (gone ++ q ++ [ThunkEnd]). split.
        { rewrite Hp1, Hp, Hf. by rewrite !fmap_app. }
        right. right. done.
      * right. rewrite Hp1, length_app, length_fmap, length_app. simpl. lia.
Qed.

Lemma reads_streaming (f : Buffer) (size0 : Z) (all : list Thunk) :
  ∀ n st,
    Streaming false f size0 all st →
    Streaming false f size0 all (reads n st)
    ∧ (done (reads n st) = true
       ∨ (length (pushed st) + n ≤ length (pushed (reads n st)))%nat).
Proof.
  induction n as [|n IH]; intros st HS; simpl.
  - split; [done | right; lia].
  - destruct (read_streaming f size0 all st HS) as [HS1 Hstep].
    destruct (IH _ HS1) as [HSn Hn]. split; [done |].
    destruct Hn as [Hn | Hn]; [by left |].
    destruct Hstep as [Hd | Hlt]; [| right; lia].
    left. unfold _read. destruct HS as (_ & _ & -> & _). rewrite Hd. simpl.
    by rewrite reads_done.
Qed.

Lemma Streaming_pushed_bound (b : bool) (f : Buffer) (size0 : Z)
    (all : list Thunk) (st : Stream) :
  Streaming b f size0 all st →
  (done st = false → (length (pushed st) < length all)%nat)
  ∧ (done st = true → pushed st = thunkChunk f <$> all).
Proof.
  intros (_ & _ & _ & _ & gone & Hp & Hshape).
  destruct Hshape as [(Hd & _ & _ & _ & Hall)
                     |[(Hd & _ & q & _ & _ & _ & Hall)|(Hd & Hall)]];
    (split; [| congruence]); [| | congruence]; intros _;
    rewrite Hp, Hall, length_fmap, !length_app.
  - destruct (vmdkParser st); simpl; rewrite !length_app; simpl; lia.
  - simpl. lia.
Qed.

Lemma Streaming_new (codec : Codec) (size0 now : Z) (grains : list Grain)
    (answers : list bool) :
  ordered size0 0 grains →
  Streaming false
    (footer (newReadableRawVHDStream codec size0 grains now answers)) size0
    (thunksAhead size0 0 grains)
    (newReadableRawVHDStream codec size0 grains now answers).
Proof.
  intros Hord. repeat split. exists []. split; [done |]. left. by repeat split.
Qed.

Lemma concat_replicate_alloc (c : nat) (k : Z) (f : Buffer) :
  concat (omap id (thunkChunk f <$> replicate c (ThunkAlloc k)))
  = replicate (c * Z.to_nat k) x00.
Proof.
  induction c as [|c IH]; [done |].
  change (replicate (S c) (ThunkAlloc k))
    with ([ThunkAlloc k] ++ replicate c (ThunkAlloc k)).
  rewrite fmap_app, omap_app, concat_app, IH. simpl.
  unfold alloc. by rewrite app_nil_r, <- replicate_add.
Qed.

(** The padding closures yield as many zeros as the padding is long. *)
Lemma padThunks_bytes (f : Buffer) (pad : Z) :
  0 ≤ pad → concat (omap id (thunkChunk f <$> padThunks pad)) = alloc pad x00.
Proof.
  intros Hpad. unfold padThunks. destruct (Z.eqb_spec pad 0) as [-> | Hne]; [done |].
  rewrite fmap_app, omap_app, concat_app, concat_replicate_alloc. simpl.
  rewrite app_nil_r. unfold alloc. rewrite <- replicate_add. f_equal.
  pose proof chunkSize_pos.
  rewrite Z.rem_mod_nonneg by lia.
  pose proof (Z.div_mod pad chunkSize ltac:(lia)).
  pose proof (Z.mod_pos_bound pad chunkSize ltac:(lia)).
  pose proof (Z.div_pos pad chunkSize ltac:(lia) ltac:(lia)).
  nia.
Qed.

Lemma chunks_notEnd (f : Buffer) (q : list Thunk) :
  Forall notEnd q → thunkChunk f <$> q = Some <$> omap id (thunkChunk f <$> q).
Proof.
  induction 1 as [|t q Ht _ IH]; [done |].
  destruct t; try (by destruct Ht); simpl; f_equal; apply IH.
Qed.

(** The chunks of a conversion: the raw image, then the footer, then the
    end. *)
Lemma thunksAhead_bytes (f : Buffer) (size0 : Z) :
  ∀ gs pos,
    ordered size0 pos gs →
    ∃ body,
      thunkChunk f <$> thunksAhead size0 pos gs
      = (Some <$> body) ++ [Some f; None]
      ∧ concat body = rawImage size0 pos gs.
Proof.
  induction gs as [|g rest IH]; intros pos Hord; simpl in *.
  - exists (omap id (thunkChunk f <$> padThunks (size0 - pos))). split.
    + rewrite fmap_app. f_equal.
      destruct (padThunks_plain (size0 - pos) ltac:(lia)) as [_ Hne].
      by apply chunks_notEnd.
    + apply padThunks_bytes. lia.
  - destruct Hord as [Hpos Hord]. destruct (IH _ Hord) as (body & Heq & Hbytes).
    exists (omap id (thunkChunk f <$> padThunks (lbaBytes g - pos))
            ++ grain g :: body). split.
    + rewrite fmap_app, fmap_cons, Heq, (fmap_app Some), fmap_cons.
      rewrite <- app_assoc, <- app_comm_cons. f_equal.
      destruct (padThunks_plain (lbaBytes g - pos) ltac:(lia)) as [_ Hne].
      by apply chunks_notEnd.
    + rewrite concat_app. simpl. rewrite Hbytes, padThunks_bytes by lia. done.
Qed.

Lemma lengthZ_rawImage (size0 : Z) :
  ∀ gs pos, ordered size0 pos gs → lengthZ (rawImage size0 pos gs) = size0 - pos.
Proof.
  induction gs as [|g rest IH]; intros pos Hord; simpl in *.
  - rewrite lengthZ_alloc. lia.
  - destruct Hord as [Hpos Hord]. specialize (IH _ Hord).
    unfold lengthZ, alloc in *. rewrite !length_app, length_replicate. lia.
Qed.

Lemma omap_id_Some {A} (l : list A) : omap id (Some <$> l) = l.
Proof. induction l as [|a l IH]; [done |]. simpl. f_equal. apply IH. Qed.

(** X10. Converting grains that come in ascending order without overlap and
    end within the disk size: whatever backpressure the consumer exerts, once
    it has asked for data as many times as the conversion has chunks, the
    stream has pushed the raw image of the disk (each grain at its offset,
    zeros everywhere else up to the size), then the fixed-disk footer made at
    construction, then the end of stream; it is done and idle and has scheduled
    no error. *)
Theorem converter_streams_raw_image (codec : Codec) (size0 now : Z)
    (grains : list Grain) (answers : list bool) (n : nat) :
  ordered size0 0 grains →
  (length (thunksAhead size0 0 grains) ≤ n)%nat →
  let st := reads n (newReadableRawVHDStream codec size0 grains now answers) in
  emittedBeforeLast st = rawImage size0 0 grains
  ∧ lengthZ (emittedBeforeLast st) = size0
  ∧ last (omap id (pushed st))
    = Some (createFooter codec size0 (now / 1000)
              (computeGeometryForSize codec size0) HARD_DISK_TYPE_FIXED None)
  ∧ ended st = true ∧ done st = true ∧ busy st = false ∧ nextTicks st = [].
Proof.
  intros Hord Hn st.
  pose proof (Streaming_new codec size0 now grains answers Hord) as HS0.
  destruct (reads_streaming _ _ _ n _ HS0) as [HS Hprogress]. fold st in HS, Hprogress.
  destruct (Streaming_pushed_bound _ _ _ _ _ HS) as [Hbound Hdone].
  assert (Hd : done st = true).
  { destruct Hprogress as [Hd | Hlen]; [done |].
    destruct (done st) eqn:Hd; [done |]. specialize (Hbound eq_refl).
    simpl in Hlen. lia. }
  specialize (Hdone Hd).
  destruct (thunksAhead_bytes
              (footer (newReadableRawVHDStream codec size0 grains now answers))
              size0 grains 0 Hord) as (body & Heq & Hbytes).
  rewrite Heq in Hdone.
  destruct HS as (_ & _ & Hb & Ht & _).
  unfold emittedBeforeLast, ended. rewrite Hdone.
  change [Some ?a; None] with ([Some a] ++ [None]).
  rewrite app_assoc, last_snoc, omap_app, omap_app, omap_id_Some. simpl.
  rewrite app_nil_r, removelast_last, last_snoc, Hbytes.
  rewrite (lengthZ_rawImage size0 grains 0 Hord).
  repeat split; try done. lia.
Qed.

Lemma converter_streams_raw_image_witness :
  let st := reads 9 (newReadableRawVHDStream Sample.codec 8 Sample.grainsAABB
                       1700000000000 [false; true; false]) in
  emittedBeforeLast st = rawImage 8 0 Sample.grainsAABB
  ∧ lengthZ (emittedBeforeLast st) = 8
  ∧ last (omap id (pushed st))
    = Some (createFooter Sample.codec 8 (1700000000000 / 1000)
              (computeGeometryForSize Sample.codec 8) HARD_DISK_TYPE_FIXED None)
  ∧ ended st = true ∧ done st = true ∧ busy st = false ∧ nextTicks st = [].
Proof.
  apply (converter_streams_raw_image Sample.codec 8 1700000000000
           Sample.grainsAABB [false; true; false] 9).
  - vm_compute. repeat split; discriminate.
  - vm_compute. lia.
Defined.

Lemma unordered_padding (pad : Z) :
  pad < 0 → Z.rem pad chunkSize ≠ 0 →
  (pad =? 0) = false ∧ (pad <? 0) = true
  ∧ Z.to_nat (pad / chunkSize) = 0%nat
  ∧ (Z.rem pad chunkSize <? 0) = true.
Proof.
  intros Hneg Hrem. pose proof chunkSize_pos.
  pose proof (Z.rem_bound_pos_neg pad chunkSize ltac:(lia) ltac:(lia)).
  pose proof (Z.div_lt_upper_bound pad chunkSize 0 ltac:(lia) ltac:(lia)).
  repeat split; lia.
Qed.

Lemma reads_busy (n : nat) (st : Stream) : busy st = true → reads n st = st.
Proof.
  intros Hb. induction n as [|n IH]; [done |]. simpl. unfold _read.
  by rewrite Hb.
Qed.

(** X11. An idle stream whose next grain lies before the cursor, at a distance
    that is no multiple of 1 MiB: the read request returns, but it pushes
    nothing, schedules two errors (the message about the order of the blocks,
    then the range error of the allocation of a negative size) and leaves the
    stream busy; every later read request returns at once, so the stream
    never pushes again and never ends. *)
Theorem converter_stalls_after_unordered_grain (st : Stream) (g : Grain)
    (rest : list Grain) (n : nat) :
  busy st = false → done st = false → currentFile st = [] →
  vmdkParser st = g :: rest →
  lbaBytes g < position st →
  Z.rem (lbaBytes g - position st) chunkSize ≠ 0 →
  let st' := fst (_read st) in
  snd (_read st) = Returned tt
  ∧ pushed st' = pushed st
  ∧ (∃ msg, nextTicks st'
            = nextTicks st ++ [ErrorMessage outOfOrder;
                               ErrorThrown (RangeError msg)])
  ∧ busy st' = true ∧ done st' = false
  ∧ reads n st' = st'.
Proof.
  intros Hb Hd Hq Hp Hlt Hrem.
  destruct (unordered_padding (lbaBytes g - position st) ltac:(lia) Hrem)
    as (Hz & Hneg & Hcount & Hr).
  assert (Hrun : ∃ st1 msg,
            _read st = (st1, Returned tt)
            ∧ pushed st1 = pushed st
            ∧ nextTicks st1 = nextTicks st ++ [ErrorMessage outOfOrder;
                                               ErrorThrown (RangeError msg)]
            ∧ busy st1 = true ∧ done st1 = false).
  { destruct st as [sz ft pos dn bs cf vp pu sk nt]; simpl in *; subst.
    eexists _, _. unfold _read, pushFileUntilFull, pushNextUntilFull.
    cbn -[chunkSize Z.rem Z.div Z.ltb Z.eqb Z.sub Z.to_nat Z.add].
    unfold pushNextBlock, pushNextBlockBody, pushFileUntilFull, filePadding.
    cbn -[chunkSize Z.rem Z.div Z.ltb Z.eqb Z.sub Z.to_nat Z.add].
    rewrite Hneg.
    cbn -[chunkSize Z.rem Z.div Z.ltb Z.eqb Z.sub Z.to_nat Z.add].
    rewrite Hz.
    cbn -[chunkSize Z.rem Z.div Z.ltb Z.eqb Z.sub Z.to_nat Z.add].
    rewrite Hcount.
    cbn -[chunkSize Z.rem Z.div Z.ltb Z.eqb Z.sub Z.to_nat Z.add].
    rewrite Hr.
    cbn -[chunkSize Z.rem Z.div Z.ltb Z.eqb Z.sub Z.to_nat Z.add].
    split; [reflexivity |].
    cbn -[chunkSize Z.rem Z.div Z.ltb Z.eqb Z.sub Z.to_nat Z.add].
    rewrite <- app_assoc. by repeat split. }
  destruct Hrun as (st1 & msg & Hrun & Hpu & Hnt & Hbu & Hdo).
  intros st'. subst st'. rewrite Hrun. cbn [fst snd].
  split; [done |]. split; [done |]. split; [by exists msg |].
  split; [done |]. split; [done |]. by apply reads_busy.
Qed.


Lemma converter_stalls_after_unordered_grain_witness :
  let st := fst (pushNextBlock
                   (newReadableRawVHDStream Sample.codec 8 Sample.grainsBBAA 0 [])) in
  let st' := fst (_read st) in
  snd (_read st) = Returned tt
  ∧ pushed st' = pushed st
  ∧ (∃ msg, nextTicks st'
            = nextTicks st ++ [ErrorMessage outOfOrder;
                               ErrorThrown (RangeError msg)])
  ∧ busy st' = true ∧ done st' = false
  ∧ reads 3 st' = st'.
Proof.
  apply (converter_stalls_after_unordered_grain
           (fst (pushNextBlock
                   (newReadableRawVHDStream Sample.codec 8 Sample.grainsBBAA 0 [])))
           {| lbaBytes := 0; grain := Sample.ascii "AA" |} [] 3);
    try reflexivity.
  vm_compute. discriminate.
Defined.

(** X12. A grain that lies before the cursor at a distance that is a multiple
    of 1 MiB is not refused: the error message is scheduled, yet the call
    succeeds, the cursor moves back to the end of that grain, and the grain
    is handed on as it is behind one empty chunk (pushed, or left in the
    queue if the consumer asked to wait). *)
Theorem unordered_grain_at_chunk_multiple_is_streamed (st : Stream) (g : Grain)
    (rest : list Grain) :
  vmdkParser st = g :: rest → currentFile st = [] →
  lbaBytes g < position st →
  Z.rem (lbaBytes g - position st) chunkSize = 0 →
  ∃ st' b,
    pushNextBlock st = (st', Returned (Resolved b))
    ∧ nextTicks st' = nextTicks st ++ [ErrorMessage outOfOrder]
    ∧ pushed st' ++ (thunkChunk (footer st) <$> currentFile st')
      = pushed st ++ [Some []; Some (grain g)]
    ∧ position st' = lbaBytes g + lengthZ (grain g)
    ∧ vmdkParser st' = rest.
Proof.
  intros Hp Hq Hlt Hrem. pose proof chunkSize_pos.
  assert (Hz : (lbaBytes g - position st =? 0) = false) by lia.
  assert (Hneg : (lbaBytes g - position st <? 0) = true) by lia.
  assert (Hcount : Z.to_nat ((lbaBytes g - position st) / chunkSize) = 0%nat).
  { pose proof (Z.div_lt_upper_bound (lbaBytes g - position st) chunkSize 0
                  ltac:(lia) ltac:(lia)). lia. }
  destruct st as [sz ft pos dn bs cf vp pu sk nt]; simpl in *; subst.
  unfold pushNextBlock, pushNextBlockBody, pushFileUntilFull, filePadding.
  cbn -[chunkSize Z.rem Z.div Z.ltb Z.eqb Z.sub Z.to_nat Z.add].
  rewrite Hneg.
  cbn -[chunkSize Z.rem Z.div Z.ltb Z.eqb Z.sub Z.to_nat Z.add].
  rewrite Hz.
  cbn -[chunkSize Z.rem Z.div Z.ltb Z.eqb Z.sub Z.to_nat Z.add].
  rewrite Hcount, Hrem.
  destruct sk as [|[] [|[] sk]];
    cbn -[chunkSize Z.rem Z.div Z.ltb Z.eqb Z.sub Z.to_nat Z.add];
    eexists _, _; (split; [reflexivity |]);
    cbn -[chunkSize Z.rem Z.div Z.ltb Z.eqb Z.sub Z.to_nat Z.add];
    rewrite <- ?app_assoc; by repeat split.
Qed.

Lemma unordered_grain_at_chunk_multiple_is_streamed_witness :
  let g := {| lbaBytes := 0; grain := Sample.ascii "AA" |} in
  let st := setPosition (newReadableRawVHDStream Sample.codec 8 [g] 0 [])
              chunkSize in
  ∃ st' b,
    pushNextBlock st = (st', Returned (Resolved b))
    ∧ nextTicks st' = nextTicks st ++ [ErrorMessage outOfOrder]
    ∧ pushed st' ++ (thunkChunk (footer st) <$> currentFile st')
      = pushed st ++ [Some []; Some (grain g)]
    ∧ position st' = lbaBytes g + lengthZ (grain g)
    ∧ vmdkParser st' = [].
Proof.
  apply (unordered_grain_at_chunk_multiple_is_streamed
           (setPosition
              (newReadableRawVHDStream Sample.codec 8
                 [{| lbaBytes := 0; grain := Sample.ascii "AA" |}] 0 [])
              chunkSize)
           {| lbaBytes := 0; grain := Sample.ascii "AA" |} []);
    reflexivity.
Defined.

(** X13. [filePadding] pushes nothing itself: it queues closures that
    allocate zero-filled buffers of at most 1 MiB each, whose sizes add up
    to the padding asked for, behind what was already queued. *)
Theorem filePadding_queues_bounded_chunks (st : Stream) (paddingLength : Z) :
  0 ≤ paddingLength →
  ∃ sizes,
    currentFile (filePadding st paddingLength)
    = currentFile st ++ (ThunkAlloc <$> sizes)
    ∧ Forall (λ n, 0 ≤ n ≤ chunkSize) sizes
    ∧ foldr Z.add 0 sizes = paddingLength
    ∧ pushed (filePadding st paddingLength) = pushed st
    ∧ sink (filePadding st paddingLength) = sink st.
Proof.
  intros Hpad. pose proof chunkSize_pos as Hcs.
  unfold filePadding. destruct (Z.eqb_spec paddingLength 0) as [-> | Hne].
  - exists []. by rewrite app_nil_r.
  - exists (replicate (Z.to_nat (paddingLength / chunkSize)) chunkSize
            ++ [Z.rem paddingLength chunkSize]).
    rewrite Z.rem_mod_nonneg by lia.
    pose proof (Z.mod_pos_bound paddingLength chunkSize Hcs).
    pose proof (Z.div_pos paddingLength chunkSize Hpad Hcs) as Hq.
    pose proof (Z.div_mod paddingLength chunkSize ltac:(lia)) as Hdm.
    split; [| split; [| split; [| done]]].
    + cbn [currentFile setQueue]. by rewrite fmap_app, fmap_replicate.
    + apply Forall_app. split; [apply Forall_replicate; lia |].
      repeat constructor; lia.
    + rewrite foldr_app. cbn [foldr]. rewrite Z.add_0_r.
      revert Hq Hdm. generalize (paddingLength / chunkSize) as c.
      generalize (paddingLength mod chunkSize) as r. intros r c Hc ->.
      rewrite <- (Z2Nat.id c Hc) at 2. clear Hc.
      induction (Z.to_nat c) as [|k IH]; [simpl; lia |].
      rewrite replicate_S. cbn [foldr]. rewrite IH. lia.
Qed.

Lemma filePadding_queues_bounded_chunks_witness :
  ∃ sizes,
    currentFile (filePadding (newReadableRawVHDStream Sample.codec 8 [] 0 [])
                   (2 * chunkSize + 5))
    = currentFile (newReadableRawVHDStream Sample.codec 8 [] 0 [])
      ++ (ThunkAlloc <$> sizes)
    ∧ Forall (λ n, 0 ≤ n ≤ chunkSize) sizes
    ∧ foldr Z.add 0 sizes = 2 * chunkSize + 5
    ∧ pushed (filePadding (newReadableRawVHDStream Sample.codec 8 [] 0 [])
                (2 * chunkSize + 5))
      = pushed (newReadableRawVHDStream Sample.codec 8 [] 0 [])
    ∧ sink (filePadding (newReadableRawVHDStream Sample.codec 8 [] 0 [])
              (2 * chunkSize + 5))
      = sink (newReadableRawVHDStream Sample.codec 8 [] 0 []).
Proof.
  apply (filePadding_queues_bounded_chunks
           (newReadableRawVHDStream Sample.codec 8 [] 0 []) (2 * chunkSize + 5)).
  by vm_compute.
Defined.

End VhdWriteMore.
